(** * The multi-hop swap router of [router-engine/optimized_router.py]

    A shallow embedding of the pure-Python code path of [OptimizedRouter]
    ([RUST_ENGINE_AVAILABLE = False]: the optional [router_engine] module is
    not part of the repository) and of [PricePredictor.adjust], followed by
    the properties of the routing engine that were checked against it.

    - Python [int] is [Z]; Python [float] is IEEE-754 binary64, taken from
      the Standard Library's [SpecFloat] at precision 53 and [emax] 1024.
    - Python [str] is [string], a character being a code point below 256.
    - Python [dict] is an insertion-ordered association list ([odict]).
    - A Python exception is a [Raise] outcome; code that mutates [self]
      returns the new router state next to its outcome, so that the state a
      raised exception leaves behind is part of the model. *)

From Stdlib Require Import ZArith List String Ascii Bool Lia.
From Stdlib Require Import DecimalString DecimalZ DecimalPos Sorted Permutation.
From Stdlib Require Import Floats.SpecFloat.
From Stdlib Require QArith Qround.
Import ListNotations.

Local Open Scope string_scope.
Local Open Scope list_scope.
Local Open Scope Z_scope.

(* ------------------------------------------------------------------ *)
(** ** Exceptions and the outcome of a call *)

Inductive exn : Type :=
| ZeroDivisionError
| OverflowError
| ValueError
| KeyError
| NetworkXNoPath
| NetworkXError
| NodeNotFound.

Inductive result (A : Type) : Type :=
| Ok (a : A)
| Raise (e : exn).

Arguments Ok {A} a.
Arguments Raise {A} e.

Definition bind {A B : Type} (r : result A) (f : A -> result B) : result B :=
  match r with
  | Ok a => f a
  | Raise e => Raise e
  end.

Notation "x <- c1 ;; c2" := (bind c1 (fun x => c2))
  (at level 61, c1 at next level, right associativity).

Notation "' pat <- c1 ;; c2" :=
  (bind c1 (fun x => match x with pat => c2 end))
  (at level 61, pat pattern, c1 at next level, right associativity).

Fixpoint mapM {A B : Type} (f : A -> result B) (l : list A) : result (list B) :=
  match l with
  | [] => Ok []
  | x :: r => y <- f x ;; ys <- mapM f r ;; Ok (y :: ys)
  end.

(* ------------------------------------------------------------------ *)
(** ** Python floats and the int/float operators the router uses *)

Module PyFloat.

Definition float : Type := spec_float.

Definition prec : Z := 53.
Definition emax : Z := 1024.

Definition add : float -> float -> float := SFadd prec emax.
Definition sub : float -> float -> float := SFsub prec emax.
Definition mul : float -> float -> float := SFmul prec emax.
Definition ltb : float -> float -> bool := SFltb.

Definition is_zero (x : float) : bool :=
  match x with S754_zero _ => true | _ => false end.

Definition is_inf (x : float) : bool :=
  match x with S754_infinity _ => true | _ => false end.

(** [float(n)]: round to nearest, ties to even; [OverflowError] when the
    rounded value does not fit. *)
Definition of_int (n : Z) : result float :=
  let f := binary_normalize prec emax n 0 false in
  if is_inf f then Raise OverflowError else Ok f.

(** [a / b] on two ints: the correctly rounded quotient. *)
Definition int_truediv (a b : Z) : result float :=
  if b =? 0 then Raise ZeroDivisionError
  else if a =? 0 then Ok (S754_zero (b <? 0))
  else
    let q := SFdiv prec emax
               (S754_finite (a <? 0) (Z.to_pos (Z.abs a)) 0)
               (S754_finite (b <? 0) (Z.to_pos (Z.abs b)) 0) in
    if is_inf q then Raise OverflowError else Ok q.

(** [x / y] on two floats. *)
Definition truediv (x y : float) : result float :=
  if is_zero y then Raise ZeroDivisionError else Ok (SFdiv prec emax x y).

(** [int(x)]: truncation toward zero. *)
Definition to_int (x : float) : result Z :=
  match x with
  | S754_zero _ => Ok 0
  | S754_infinity _ => Raise OverflowError
  | S754_nan => Raise ValueError
  | S754_finite s m e =>
      let a := if 0 <=? e then Z.pos m * 2 ^ e else Z.shiftr (Z.pos m) (- e) in
      Ok (if s then - a else a)
  end.

(** The mixed operators: the int operand is converted first. *)
Definition int_sub_float (n : Z) (x : float) : result float :=
  fn <- of_int n ;; Ok (sub fn x).

Definition int_mul_float (n : Z) (x : float) : result float :=
  fn <- of_int n ;; Ok (mul fn x).

Definition float_div_int (x : float) (n : Z) : result float :=
  fn <- of_int n ;; truediv x fn.

Definition int_div_float (n : Z) (x : float) : result float :=
  fn <- of_int n ;; truediv fn x.

(** The builtins [min(a, b)] and [max(a, b)]: the first argument is kept
    unless the second is strictly smaller (resp. larger). *)
Definition min2 (a b : float) : float := if ltb b a then b else a.
Definition max2 (a b : float) : float := if ltb a b then b else a.

(** A decimal literal [n / d] with [n] and [d] exact is the nearest
    binary64 number to the quotient. *)
Definition lit (n d : Z) : float :=
  SFdiv prec emax (binary_normalize prec emax n 0 false)
                  (binary_normalize prec emax d 0 false).

Definition f0 : float := S754_zero false.
Definition f1 : float := Eval vm_compute in lit 1 1.
Definition f0_5 : float := Eval vm_compute in lit 5 10.
Definition f0_01 : float := Eval vm_compute in lit 1 100.
Definition f0_005 : float := Eval vm_compute in lit 5 1000.
Definition f0_6 : float := Eval vm_compute in lit 6 10.
Definition f0_3 : float := Eval vm_compute in lit 3 10.
Definition f0_1 : float := Eval vm_compute in lit 1 10.
Definition f1e5 : float := Eval vm_compute in lit 100000 1.
Definition f1e6 : float := Eval vm_compute in lit 1000000 1.
Definition f1e18 : float := Eval vm_compute in lit (10 ^ 18) 1.

(** The exact value of a finite float as a rational [num / den]. *)
Definition to_ratio (x : float) : Z * Z :=
  match x with
  | S754_finite s m e =>
      let n := if s then Z.neg m else Z.pos m in
      if 0 <=? e then (n * 2 ^ e, 1) else (n, 2 ^ (- e))
  | _ => (0, 1)
  end.

End PyFloat.

Import PyFloat.

(* ------------------------------------------------------------------ *)
(** ** Python strings: [str(int)], [int(str)], [str(float)], [str.lower] *)

Definition str (n : Z) : string := NilZero.string_of_int (Z.to_int n).

(** The whitespace that [int(s)] drops around the number. *)
Definition is_space (c : ascii) : bool :=
  let n := nat_of_ascii c in
  ((9 <=? n)%nat && (n <=? 13)%nat) || (n =? 32)%nat ||
  (n =? 133)%nat || (n =? 160)%nat.

Definition is_digit (c : ascii) : bool :=
  let n := nat_of_ascii c in (48 <=? n)%nat && (n <=? 57)%nat.

Fixpoint lstrip (s : string) : string :=
  match s with
  | EmptyString => EmptyString
  | String c r => if is_space c then lstrip r else s
  end.

Fixpoint rstrip (s : string) : string :=
  match s with
  | EmptyString => EmptyString
  | String c r =>
      match rstrip r with
      | EmptyString => if is_space c then EmptyString else String c EmptyString
      | r' => String c r'
      end
  end.

(** What may follow a digit: more digits, each preceded by at most one
    underscore.  The underscores are dropped. *)
Fixpoint digit_run (s : string) : option string :=
  match s with
  | EmptyString => Some EmptyString
  | String c r =>
      if is_digit c then option_map (String c) (digit_run r)
      else if Ascii.eqb c "_" then
        match r with
        | String d r' =>
            if is_digit d then option_map (String d) (digit_run r') else None
        | EmptyString => None
        end
      else None
  end.

Definition digits_of (s : string) : option string :=
  match s with
  | String c r => if is_digit c then option_map (String c) (digit_run r) else None
  | EmptyString => None
  end.

(** [int(s)] in base 10: surrounding whitespace is dropped, one sign may
    lead, and the digits may be separated by single underscores; leading
    zeros are accepted.  Anything else raises [ValueError]. *)
Definition int (s : string) : result Z :=
  let s1 := rstrip (lstrip s) in
  let '(negative, body) :=
    match s1 with
    | String c r =>
        if Ascii.eqb c "-" then (true, r)
        else if Ascii.eqb c "+" then (false, r)
        else (false, s1)
    | EmptyString => (false, s1)
    end in
  match digits_of body with
  | Some ds =>
      match NilEmpty.uint_of_string ds with
      | Some u => Ok (if negative then - Z.of_uint u else Z.of_uint u)
      | None => Raise ValueError
      end
  | None => Raise ValueError
  end.

(** The number of decimal digits of a positive integer. *)
Definition digits10 (n : Z) : Z := Z.of_nat (String.length (str n)).

(** [n / d] compared with [10 ^ k], for positive [n] and [d]. *)
Definition below_pow10 (n d k : Z) : bool :=
  if 0 <=? k then n <? 10 ^ k * d else n * 10 ^ (- k) <? d.

(** The decimal point of [n / d]: the [k] with [10^(k-1) <= n/d < 10^k]. *)
Definition decimal_point (n d : Z) : Z :=
  let k := digits10 n - digits10 d in
  if below_pow10 n d k then k else k + 1.

(** [c * 10 ^ j] read back as a float (correctly rounded). *)
Definition of_decimal (c j : Z) : float :=
  let n := if 0 <=? j then c * 10 ^ j else c in
  let d := if 0 <=? j then 1 else 10 ^ (- j) in
  SFdiv prec emax (S754_finite false (Z.to_pos n) 0) (S754_finite false (Z.to_pos d) 0).

Definition same (x y : float) : bool :=
  match SFcompare x y with Some Eq => true | _ => false end.

(** The [digits]-digit decimals on either side of [n / d] that read back as [x]:
    the closest one, if any. *)
Definition shortest_at (x : float) (n d k digits : Z) : option Z :=
  let j := k - digits in
  let p := if 0 <=? j then n else n * 10 ^ (- j) in
  let q := if 0 <=? j then d * 10 ^ j else d in
  let lo := p / q in
  let r := p mod q in
  let hi := lo + 1 in
  let lo_ok := (0 <? lo) && same (of_decimal lo j) x in
  let hi_ok := same (of_decimal hi j) x in
  if r =? 0 then (if lo_ok then Some lo else None)
  else if lo_ok && hi_ok then
    (if 2 * r <? q then Some lo
     else if q <? 2 * r then Some hi
     else if Z.even lo then Some lo else Some hi)
  else if lo_ok then Some lo
  else if hi_ok then Some hi
  else None.

Fixpoint shortest (x : float) (n d k : Z) (digits : Z) (fuel : nat) : Z * Z :=
  match fuel with
  | O => (n * 10 ^ 17 / d, digits)
  | S fuel' =>
      match shortest_at x n d k digits with
      | Some c => (c, digits)
      | None => shortest x n d k (digits + 1) fuel'
      end
  end.

Fixpoint strip_zeros (c : Z) (fuel : nat) : Z :=
  match fuel with
  | O => c
  | S fuel' => if (c mod 10 =? 0) && negb (c =? 0) then strip_zeros (c / 10) fuel' else c
  end.

Fixpoint zeros (n : nat) : string :=
  match n with O => "" | S n' => String "0" (zeros n') end.

Definition take (n : nat) (s : string) : string := substring 0 n s.
Definition drop (n : nat) (s : string) : string := substring n (String.length s - n) s.

(** The layout of [repr]: exponent form when the decimal point is at most
    [-4] or above [16], positional form with at least one fractional digit
    otherwise. *)
Definition layout (digits : string) (decpt : Z) : string :=
  let len := Z.of_nat (String.length digits) in
  if (decpt <=? -4) || (16 <? decpt) then
    let e := decpt - 1 in
    let mant := if len =? 1 then digits
                else String.concat "" [take 1 digits; "."; drop 1 digits] in
    let es := str (Z.abs e) in
    String.concat ""
      [mant; "e"; if e <? 0 then "-" else "+";
       if Z.abs e <? 10 then String "0" es else es]
  else if decpt <=? 0 then
    String.concat "" ["0."; zeros (Z.to_nat (- decpt)); digits]
  else if len <=? decpt then
    String.concat "" [digits; zeros (Z.to_nat (decpt - len)); ".0"]
  else
    String.concat "" [take (Z.to_nat decpt) digits; "."; drop (Z.to_nat decpt) digits].

(** [str(x)] on a float, which is also what an f-string interpolates: the
    shortest decimal that reads back as [x] (the closest one among the
    shortest), laid out as [repr] does. *)
Definition str_float (x : float) : string :=
  match x with
  | S754_zero s => if s then "-0.0" else "0.0"
  | S754_infinity s => if s then "-inf" else "inf"
  | S754_nan => "nan"
  | S754_finite s m e =>
      let n := if 0 <=? e then Z.pos m * 2 ^ e else Z.pos m in
      let d := if 0 <=? e then 1 else 2 ^ (- e) in
      let k := decimal_point n d in
      let '(c, digits) := shortest (S754_finite false m e) n d k 1 17 in
      let decpt := k + (digits10 c - digits) in
      let body := layout (str (strip_zeros c 20)) decpt in
      if s then String "-" body else body
  end.

(** The upper-case letters below 256 are A to Z and, past the ASCII range,
    the code points 192 to 222 except the multiplication sign 215. *)
Definition lower_ascii (c : ascii) : ascii :=
  let n := nat_of_ascii c in
  if ((65 <=? n)%nat && (n <=? 90)%nat) ||
     ((192 <=? n)%nat && (n <=? 222)%nat && negb (n =? 215)%nat)
  then ascii_of_nat (n + 32) else c.

Fixpoint lower (s : string) : string :=
  match s with
  | EmptyString => EmptyString
  | String c r => String (lower_ascii c) (lower r)
  end.

(* ------------------------------------------------------------------ *)
(** ** Insertion-ordered dictionaries *)

Class EqDec (K : Type) : Type :=
  eq_dec : forall x y : K, {x = y} + {x <> y}.

#[export] Instance string_EqDec : EqDec string := string_dec.

Section ODict.
Context {K V : Type} `{EqDec K}.

Definition odict : Type := list (K * V).

(** [d.get(k)] *)
Fixpoint oget (k : K) (d : odict) : option V :=
  match d with
  | [] => None
  | (k', v) :: r => if eq_dec k k' then Some v else oget k r
  end.

(** [d[k] = v]: an existing key keeps its position, a new key goes last. *)
Fixpoint oset (k : K) (v : V) (d : odict) : odict :=
  match d with
  | [] => [(k, v)]
  | (k', v') :: r =>
      if eq_dec k k' then (k', v) :: r else (k', v') :: oset k v r
  end.

(** [k in d] *)
Definition omem (k : K) (d : odict) : bool :=
  match oget k d with Some _ => true | None => false end.

Definition okeys (d : odict) : list K := map fst d.

End ODict.

Arguments odict : clear implicits.


(* ------------------------------------------------------------------ *)
(** ** Data model: the dataclasses of the module *)

Module Token.
Record t : Type := mk {
  chain_id : Z;
  address : string;
  symbol : string;
  decimals : Z
}.
End Token.

Module Pool.
Record t : Type := mk {
  exchange : string;
  token_a : Token.t;
  token_b : Token.t;
  fee_tier : float;
  reserve_a : Z;
  reserve_b : Z;
  price : float;
  liquidity : float
}.
End Pool.

Module SwapStep.
Record t : Type := mk {
  exchange_id : string;
  token_in : Token.t;
  token_out : Token.t;
  fee_tier : option float;
  amount_in : string;
  amount_out_min : string
}.
End SwapStep.

Module SwapRoute.
Record t : Type := mk {
  steps : list SwapStep.t;
  amount_in : string;
  expected_amount_out : string;
  price_impact : float;
  gas_estimate : Z;
  risk_score : Z
}.

(** [path.expected_amount_out = v] *)
Definition set_expected_amount_out (v : string) (r : t) : t :=
  mk (steps r) (amount_in r) v (price_impact r) (gas_estimate r) (risk_score r).
End SwapRoute.

(** A pool id is a string: the key of [self.pools] and the [pool_id]
    attribute of an edge. *)
Definition PoolId : Type := string.

(** The attribute dict of a graph edge.  [add_pool] always stores the first
    seven keys; the last three exist only once a path search has run. *)
Module Edge.
Record t : Type := mk {
  pool_id : PoolId;
  exchange : string;
  fee_tier : float;
  price : float;
  liquidity : float;
  reserve_a : Z;
  reserve_b : Z;
  price_impact : option float;
  gas_cost : option Z;
  slippage : option float
}.

(** [datadict.update(attr)] with the seven keyword arguments of
    [add_edge]: the other keys of an existing dict are kept. *)
Definition update (old : option t) (kw : t) : t :=
  mk (pool_id kw) (exchange kw) (fee_tier kw) (price kw) (liquidity kw)
     (reserve_a kw) (reserve_b kw)
     (match old with Some o => price_impact o | None => None end)
     (match old with Some o => gas_cost o | None => None end)
     (match old with Some o => slippage o | None => None end).

(** The three assignments of the preparation loop of [_k_shortest_paths]. *)
Definition set_search (pi : float) (gc : Z) (sl : float) (d : t) : t :=
  mk (pool_id d) (exchange d) (fee_tier d) (price d) (liquidity d)
     (reserve_a d) (reserve_b d) (Some pi) (Some gc) (Some sl).
End Edge.

(** A hop of a candidate path: [(u, v, data)]. *)
Definition Hop : Type := (string * string * Edge.t)%type.

(* ------------------------------------------------------------------ *)
(** ** The graph library: [networkx.DiGraph] *)

Module nx.

(** The adjacency structure [_adj]: node -> neighbour -> attribute dict.
    Every node is a key of the outer dict. *)
Definition DiGraph : Type := odict string (odict string Edge.t).

Definition empty : DiGraph := [].

Definition has_node (g : DiGraph) (u : string) : bool := omem u g.

Definition add_node (u : string) (g : DiGraph) : DiGraph :=
  if omem u g then g else oset u [] g.

Definition neighbors (g : DiGraph) (u : string) : odict string Edge.t :=
  match oget u g with Some n => n | None => [] end.

(** [G.get_edge_data(u, v)] *)
Definition get_edge_data (g : DiGraph) (u v : string) : option Edge.t :=
  oget v (neighbors g u).

(** [G.add_edge(u, v, **kw)]: both nodes are created when missing and the
    keyword arguments are merged into the edge's attribute dict. *)
Definition add_edge (g : DiGraph) (u v : string) (kw : Edge.t) : DiGraph :=
  let g2 := add_node v (add_node u g) in
  let nbrs := neighbors g2 u in
  oset u (oset v (Edge.update (oget v nbrs) kw) nbrs) g2.

(** [G.edges(data=True)], in iteration order. *)
Definition edges (g : DiGraph) : list Hop :=
  flat_map (fun '(u, nbrs) => map (fun '(v, d) => (u, v, d)) nbrs) g.

(** Every simple path from [u] to [target] that avoids [visited]; a simple
    path visits at most every node once, which bounds the recursion. *)
Fixpoint simple_paths (fuel : nat) (g : DiGraph) (visited : list string)
    (u target : string) : list (list string) :=
  match fuel with
  | O => []
  | S n =>
      if string_dec u target then [[u]]
      else
        flat_map
          (fun '(v, _) =>
             if in_dec string_dec v (u :: visited) then []
             else map (cons u) (simple_paths n g (u :: visited) v target))
          (neighbors g u)
  end.

(** [sum(wt(u, v, G.get_edge_data(u, v)) for u, v in zip(path, path[1:]))] *)
Fixpoint path_length (wt : string -> string -> Edge.t -> result float)
    (g : DiGraph) (acc : float) (p : list string) : result float :=
  match p with
  | u :: ((v :: _) as r) =>
      match get_edge_data g u v with
      | None => Raise KeyError
      | Some d => w <- wt u v d ;; path_length wt g (add acc w) r
      end
  | _ => Ok acc
  end.

(** Stable insertion by increasing length. *)
Fixpoint insert_by_length (x : float * list string)
    (l : list (float * list string)) : list (float * list string) :=
  match l with
  | [] => [x]
  | y :: r => if ltb (fst y) (fst x) then y :: insert_by_length x r else x :: l
  end.

Definition sort_by_length (l : list (float * list string))
  : list (float * list string) :=
  fold_right insert_by_length [] l.

(** [networkx.shortest_simple_paths(G, source, target, weight=wt)], consumed
    whole by [list(...)].  The library is not part of the repository; this
    follows its documented behaviour: [NodeNotFound] when an endpoint is not
    a node, [NetworkXNoPath] when no path joins them, otherwise all simple
    paths from the shortest onwards.  (How the library orders paths of
    equal length is not modelled: none of the results below depends on
    it.) *)
Definition shortest_simple_paths (g : DiGraph) (source target : string)
    (wt : string -> string -> Edge.t -> result float)
  : result (list (list string)) :=
  if negb (has_node g source) then Raise NodeNotFound
  else if negb (has_node g target) then Raise NodeNotFound
  else
    match simple_paths (List.length g) g [] source target with
    | [] => Raise NetworkXNoPath
    | ps =>
        ws <- mapM (fun p => w <- path_length wt g f0 p ;; Ok (w, p)) ps ;;
        Ok (map snd (sort_by_length ws))
    end.

End nx.

(* ------------------------------------------------------------------ *)
(** ** [PricePredictor] *)

Module PricePredictor.

(** The [for path in paths] loop of [adjust]; [random i] is the value of
    the [i]-th call to [np.random.random()]. *)
Fixpoint adjust_loop (random : nat -> float) (i : nat)
    (paths : list SwapRoute.t) : result (list SwapRoute.t) :=
  match paths with
  | [] => Ok []
  | path :: rest =>
      let adjustment := add f1 (mul (sub (random i) f0_5) f0_01) in
      current_amount <- int (SwapRoute.expected_amount_out path) ;;
      x <- int_mul_float current_amount adjustment ;;
      n <- to_int x ;;
      rest' <- adjust_loop random (S i) rest ;;
      Ok (SwapRoute.set_expected_amount_out (str n) path :: rest')
  end.

(** [sorted(paths, key=..., reverse=True)]: stable, by decreasing key. *)
Fixpoint insert_desc (x : Z * SwapRoute.t) (l : list (Z * SwapRoute.t))
  : list (Z * SwapRoute.t) :=
  match l with
  | [] => [x]
  | y :: r => if fst x <? fst y then y :: insert_desc x r else x :: l
  end.

Definition sort_desc (l : list (Z * SwapRoute.t)) : list (Z * SwapRoute.t) :=
  fold_right insert_desc [] l.

Definition sorted_by_amount (paths : list SwapRoute.t)
  : result (list SwapRoute.t) :=
  keyed <- mapM (fun p => key <- int (SwapRoute.expected_amount_out p) ;;
                          Ok (key, p)) paths ;;
  Ok (map snd (sort_desc keyed)).

Definition adjust (random : nat -> float) (paths : list SwapRoute.t)
  : result (list SwapRoute.t) :=
  match paths with
  | [] => Ok paths
  | _ => paths' <- adjust_loop random O paths ;; sorted_by_amount paths'
  end.

End PricePredictor.

(* ------------------------------------------------------------------ *)
(** ** [OptimizedRouter] *)

Module OptimizedRouter.

Record t : Type := mk {
  graph : nx.DiGraph;
  pools : odict PoolId Pool.t;
  tokens : odict string Token.t
}.

(** [OptimizedRouter()] *)
Definition init : t := mk nx.empty [] [].

(** [f"{token.chain_id}_{token.address}"] *)
Definition token_key (tok : Token.t) : string :=
  (str (Token.chain_id tok) ++ "_" ++ Token.address tok)%string.

(** [f"{pool.exchange}_{pool.token_a.address}_{pool.token_b.address}_{pool.fee_tier}"].
    Two pools that differ in these four values can still share an id, when
    an underscore of an exchange name or of an address falls on a
    separator. *)
Definition pool_id_of (pool : Pool.t) : PoolId :=
  String.concat "_"
    [Pool.exchange pool; Token.address (Pool.token_a pool);
     Token.address (Pool.token_b pool); str_float (Pool.fee_tier pool)].

(** [if key not in self.tokens: self.tokens[key] = token] *)
Definition register (key : string) (token : Token.t)
    (registry : odict string Token.t) : odict string Token.t :=
  if omem key registry then registry else oset key token registry.

Definition add_pool (self : t) (pool : Pool.t) : t * result unit :=
  let pool_id := pool_id_of pool in
  let pools1 := oset pool_id pool (pools self) in
  let token_a_key := token_key (Pool.token_a pool) in
  let token_b_key := token_key (Pool.token_b pool) in
  let tokens1 := register token_a_key (Pool.token_a pool) (tokens self) in
  let tokens2 := register token_b_key (Pool.token_b pool) tokens1 in
  let graph1 :=
    nx.add_edge (graph self) token_a_key token_b_key
      (Edge.mk pool_id (Pool.exchange pool) (Pool.fee_tier pool)
         (Pool.price pool) (Pool.liquidity pool)
         (Pool.reserve_a pool) (Pool.reserve_b pool) None None None) in
  match truediv f1 (Pool.price pool) with
  | Raise e => (mk graph1 pools1 tokens2, Raise e)
  | Ok inverse =>
      let graph2 :=
        nx.add_edge graph1 token_b_key token_a_key
          (Edge.mk pool_id (Pool.exchange pool) (Pool.fee_tier pool)
             inverse (Pool.liquidity pool)
             (Pool.reserve_b pool) (Pool.reserve_a pool) None None None) in
      (mk graph2 pools1 tokens2, Ok tt)
  end.

Definition _calculate_price_impact (amount reserve_in reserve_out : Z)
  : result float :=
  if (amount <=? 0) || (reserve_in <=? 0) || (reserve_out <=? 0) then Ok f1
  else
    let k := reserve_in * reserve_out in
    let new_reserve_in := reserve_in + amount in
    new_reserve_out <- int_truediv k new_reserve_in ;;
    output_amount <- int_sub_float reserve_out new_reserve_out ;;
    price_before <- int_truediv reserve_out reserve_in ;;
    price_after <- float_div_int new_reserve_out new_reserve_in ;;
    ratio <- truediv price_after price_before ;;
    let price_impact := sub f1 ratio in
    Ok (max2 f0 (min2 f1 price_impact)).

(** [exchange_costs.get(name, 0)] *)
Definition exchange_costs (name : string) : Z :=
  if string_dec name "uniswap" then 0
  else if string_dec name "sushiswap" then 5000
  else if string_dec name "curve" then -10000
  else if string_dec name "balancer" then 15000
  else 0.

Definition _calculate_gas_cost (path_length : Z) (exchanges : list string) : Z :=
  let base_cost := 100000 in
  let hop_cost := 70000 in
  fold_left (fun total_cost exchange => total_cost + exchange_costs (lower exchange))
    exchanges (base_cost + (path_length - 1) * hop_cost).

(** The builtin [min] over a generator of floats. *)
Definition min_floats (l : list float) : result float :=
  match l with
  | [] => Raise ValueError
  | x :: r => Ok (fold_left min2 r x)
  end.

Definition reputable (name : string) : bool :=
  if in_dec string_dec name ["uniswap"; "sushiswap"; "curve"; "balancer"]
  then true else false.

Definition _calculate_risk_score (path : list Hop) : result Z :=
  let hop_count := Z.of_nat (List.length path) in
  let base_risk :=
    if hop_count =? 1 then 1
    else if hop_count =? 2 then 2
    else if hop_count =? 3 then 3
    else 4 in
  min_liquidity <- min_floats (map (fun '(_, _, data) => Edge.liquidity data) path) ;;
  let liquidity_factor :=
    if ltb min_liquidity f1e5 then 2
    else if ltb min_liquidity f1e6 then 1
    else 0 in
  let exchanges := map (fun '(_, _, data) => Edge.exchange data) path in
  let high_risk_exchanges :=
    Z.of_nat (List.length (filter (fun ex => negb (reputable (lower ex))) exchanges)) in
  let exchange_factor := Z.min 2 high_risk_exchanges in
  let risk_score := base_risk + liquidity_factor + exchange_factor in
  Ok (Z.min 5 risk_score).

Definition _weight_function (u v : string) (data : Edge.t) : result float :=
  let price_impact_weight := f0_6 in
  let gas_cost_weight := f0_3 in
  let slippage_weight := f0_1 in
  let price_impact :=
    match Edge.price_impact data with Some x => x | None => f0_01 end in
  gas_cost <- int_div_float
                (match Edge.gas_cost data with Some n => n | None => 100000 end)
                f1e6 ;;
  let slippage :=
    match Edge.slippage data with Some x => x | None => f0_005 end in
  Ok (add (add (mul price_impact_weight price_impact)
               (mul gas_cost_weight gas_cost))
          (mul slippage_weight slippage)).

(** The body of the preparation loop of [_k_shortest_paths] on one edge. *)
Definition prepare_edge (amount : Z) (data : Edge.t) : result Edge.t :=
  let reserve_in := Edge.reserve_a data in
  let reserve_out := Edge.reserve_b data in
  price_impact <- _calculate_price_impact amount reserve_in reserve_out ;;
  let gas_cost := _calculate_gas_cost 1 [Edge.exchange data] in
  Ok (Edge.set_search price_impact gas_cost f0_005 data).

(** [for u, v, data in self.graph.edges(data=True)]: the attribute dicts
    are updated in place, in iteration order; an exception leaves the
    edges already visited updated and the others untouched. *)
Fixpoint prepare_nbrs (amount : Z) (nbrs : odict string Edge.t)
  : odict string Edge.t * result unit :=
  match nbrs with
  | [] => ([], Ok tt)
  | (v, data) :: rest =>
      match prepare_edge amount data with
      | Raise e => ((v, data) :: rest, Raise e)
      | Ok data' =>
          let '(rest', r) := prepare_nbrs amount rest in
          ((v, data') :: rest', r)
      end
  end.

Fixpoint prepare_graph (amount : Z) (g : nx.DiGraph)
  : nx.DiGraph * result unit :=
  match g with
  | [] => ([], Ok tt)
  | (u, nbrs) :: rest =>
      match prepare_nbrs amount nbrs with
      | (nbrs', Raise e) => ((u, nbrs') :: rest, Raise e)
      | (nbrs', Ok _) =>
          let '(rest', r) := prepare_graph amount rest in
          ((u, nbrs') :: rest', r)
      end
  end.

(** [zip(path[:-1], path[1:], [get_edge_data(u, v) ...])] *)
Fixpoint path_hops (g : nx.DiGraph) (path : list string) : result (list Hop) :=
  match path with
  | u :: ((v :: _) as rest) =>
      match nx.get_edge_data g u v with
      | None => Raise KeyError
      | Some data => hops <- path_hops g rest ;; Ok ((u, v, data) :: hops)
      end
  | _ => Ok []
  end.

Definition _k_shortest_paths (self : t) (token_in token_out : string)
    (amount : Z) (k : nat) : t * result (list (list Hop)) :=
  if string_dec token_in token_out then (self, Ok [])
  else
    let '(g, prepared) := prepare_graph amount (graph self) in
    let self' := mk g (pools self) (tokens self) in
    match prepared with
    | Raise e => (self', Raise e)
    | Ok _ =>
        match
          paths <- nx.shortest_simple_paths g token_in token_out _weight_function ;;
          mapM (path_hops g) (firstn k paths)
        with
        | Raise NetworkXNoPath | Raise NetworkXError => (self', Ok [])
        | r => (self', r)
        end
    end.

(** The output of one hop of [_path_to_swap_route]. *)
Definition hop_output (data : Edge.t) (current_amount : Z) : result Z :=
  let reserve_in := Edge.reserve_a data in
  let reserve_out := Edge.reserve_b data in
  if (0 <? reserve_in) && (0 <? reserve_out) then
    let k := reserve_in * reserve_out in
    let new_reserve_in := reserve_in + current_amount in
    new_reserve_out <- int_truediv k new_reserve_in ;;
    diff <- int_sub_float reserve_out new_reserve_out ;;
    to_int diff
  else
    let price := Edge.price data in
    scaled <- int_mul_float current_amount price ;;
    to_int scaled.

(** The [for u, v, data in path] loop of [_path_to_swap_route]. *)
Fixpoint route_loop (self : t) (path : list Hop) (steps : list SwapStep.t)
    (current_amount : Z) (exchanges : list string)
  : result (list SwapStep.t * Z * list string) :=
  match path with
  | [] => Ok (steps, current_amount, exchanges)
  | (u, v, data) :: rest =>
      token_in <- match oget u (tokens self) with
                  | Some tok => Ok tok | None => Raise KeyError end ;;
      token_out <- match oget v (tokens self) with
                   | Some tok => Ok tok | None => Raise KeyError end ;;
      let exchange := Edge.exchange data in
      let fee_tier := Some (Edge.fee_tier data) in
      output_amount <- hop_output data current_amount ;;
      let slippage := f0_005 in
      buffered <- int_mul_float output_amount (sub f1 slippage) ;;
      min_output <- to_int buffered ;;
      let step := SwapStep.mk exchange token_in token_out fee_tier
                    (str current_amount) (str min_output) in
      route_loop self rest (steps ++ [step]) output_amount (exchanges ++ [exchange])
  end.

Definition _path_to_swap_route (self : t) (path : list Hop) (amount_in : Z)
  : result SwapRoute.t :=
  '(steps, current_amount, exchanges) <- route_loop self path [] amount_in [] ;;
  let price_impact :=
    fold_left
      (fun acc '(_, _, data) =>
         add acc (match Edge.price_impact data with Some x => x | None => f0 end))
      path f0 in
  let gas_estimate := _calculate_gas_cost (Z.of_nat (List.length path)) exchanges in
  risk_score <- _calculate_risk_score path ;;
  Ok (SwapRoute.mk steps (str amount_in) (str current_amount)
        price_impact gas_estimate risk_score).

(** [find_routes], pure-Python path.  [adjust] is [self.predictor.adjust];
    the predictor built by [__init__] is [PricePredictor.adjust random]. *)
Definition find_routes (adjust : list SwapRoute.t -> result (list SwapRoute.t))
    (self : t) (token_in token_out : Token.t) (amount : Z)
  : t * result (list SwapRoute.t) :=
  let token_in_key := token_key token_in in
  let token_out_key := token_key token_out in
  let '(self', found) := _k_shortest_paths self token_in_key token_out_key amount 5 in
  match found with
  | Raise e => (self', Raise e)
  | Ok [] => (self', Ok [])
  | Ok paths =>
      (self',
       routes <- mapM (fun path => _path_to_swap_route self' path amount) paths ;;
       adjust routes)
  end.

End OptimizedRouter.

Import OptimizedRouter.

(* ------------------------------------------------------------------ *)
(** ** Concrete routers used as test inputs *)

Module Demo.

(** The tokens and pools of [main()]. *)
Definition eth : Token.t :=
  Token.mk 1 "0xC02aaA39b223FE8D0A0e5C4F27eAD9083C756Cc2" "WETH" 18.
Definition usdc : Token.t :=
  Token.mk 1 "0xA0b86991c6218b36c1d19D4a2e9Eb0cE3606eB48" "USDC" 6.
Definition dai : Token.t :=
  Token.mk 1 "0x6B175474E89094C44Da98b954EedeAC495271d0F" "DAI" 18.

Definition pool_eth_usdc : Pool.t :=
  Pool.mk "uniswap" eth usdc f0_3 (1000 * 10 ^ 18) (2000000 * 10 ^ 6)
    (lit 2000 1) (lit 4000000 1).
Definition pool_usdc_dai : Pool.t :=
  Pool.mk "uniswap" usdc dai (lit 5 100) (5000000 * 10 ^ 6) (5000000 * 10 ^ 18)
    (lit 1 1) (lit 5000000 1).

(** [router.add_pool(p)] for each pool of the list, from left to right,
    whatever the outcome of each call. *)
Definition upserts (self : OptimizedRouter.t) (ps : list Pool.t) : OptimizedRouter.t :=
  fold_left (fun s p => fst (add_pool s p)) ps self.

Definition main_router : OptimizedRouter.t :=
  upserts init [pool_eth_usdc; pool_usdc_dai].

(** Three small tokens and pools. *)
Definition tA : Token.t := Token.mk 1 "0xA" "AAA" 18.
Definition tB : Token.t := Token.mk 1 "0xB" "BBB" 18.
Definition tC : Token.t := Token.mk 1 "0xC" "CCC" 18.

Definition small_pool (ex : string) (a b : Token.t) (ra rb : Z) : Pool.t :=
  Pool.mk ex a b f0_3 ra rb (lit 1 1) (lit 5000000 1).

Definition chain_router : OptimizedRouter.t :=
  upserts init [small_pool "uniswap" tA tB 1000 1000;
                small_pool "uniswap" tB tC 1000 1000].

Definition rank_router : OptimizedRouter.t :=
  upserts init [small_pool "uniswap" tA tB 100 200;
                small_pool "uniswap" tA tC 1000000 1000000;
                small_pool "dodo" tC tB 1000000 1020000].

Definition dead_router : OptimizedRouter.t :=
  upserts init [small_pool "uniswap" tA tB 0 0].

Definition bad_pool : Pool.t :=
  Pool.mk "uniswap" tA tA (lit 3 2) (-5) 7 (lit 1 1) (lit 1 1).

Definition fee_router : OptimizedRouter.t :=
  upserts init [small_pool "uniswap" tA tB 1000 2000].

Definition first_pool : Pool.t := small_pool "uniswap" tA tB 100 200.
Definition second_pool : Pool.t := small_pool "sushiswap" tA tB 300 400.

Definition overwritten_router : OptimizedRouter.t :=
  upserts init [first_pool; second_pool].

End Demo.

(* ------------------------------------------------------------------ *)
(** ** Vocabulary of the statements *)

(** A pool the data model rules out: equal tokens, a negative reserve, or
    a fee tier outside [0, 1). *)
Definition malformed (p : Pool.t) : bool :=
  (if string_dec (token_key (Pool.token_a p)) (token_key (Pool.token_b p))
   then true else false)
  || (Pool.reserve_a p <? 0) || (Pool.reserve_b p <? 0)
  || ltb (Pool.fee_tier p) f0 || negb (ltb (Pool.fee_tier p) f1).

(** The edges of the graph that carry a given pool id. *)
Definition edges_of_pool (g : nx.DiGraph) (id : PoolId) : list Hop :=
  filter (fun '(_, _, d) => if eq_dec (Edge.pool_id d) id then true else false)
    (nx.edges g).

(** [d'] is the mirror image of [d]: same pool, reserves swapped, and one
    of the two prices is [1.0 / ] the other. *)
Definition mirrored (d d' : Edge.t) : Prop :=
  Edge.pool_id d' = Edge.pool_id d /\
  Edge.reserve_a d' = Edge.reserve_b d /\
  Edge.reserve_b d' = Edge.reserve_a d /\
  (truediv f1 (Edge.price d) = Ok (Edge.price d') \/
   truediv f1 (Edge.price d') = Ok (Edge.price d)).

Definition mirror_invariant (g : nx.DiGraph) : Prop :=
  forall u v d, u <> v -> nx.get_edge_data g u v = Some d ->
  exists d', nx.get_edge_data g v u = Some d' /\ mirrored d d'.

(** The pool [p] owns the two edges between its tokens. *)
Definition owns_pair (g : nx.DiGraph) (p : Pool.t) : Prop :=
  exists d d',
    nx.get_edge_data g (token_key (Pool.token_a p)) (token_key (Pool.token_b p)) = Some d /\
    nx.get_edge_data g (token_key (Pool.token_b p)) (token_key (Pool.token_a p)) = Some d' /\
    Edge.pool_id d = pool_id_of p /\
    Edge.reserve_a d = Pool.reserve_a p /\
    Edge.reserve_b d = Pool.reserve_b p /\
    Edge.price d = Pool.price p /\
    Edge.pool_id d' = pool_id_of p /\
    Edge.reserve_a d' = Pool.reserve_b p /\
    Edge.reserve_b d' = Pool.reserve_a p /\
    truediv f1 (Pool.price p) = Ok (Edge.price d').

(** The registry and the graph know the same token keys. *)
Definition consistent (self : OptimizedRouter.t) : Prop :=
  forall key, omem key (tokens self) = nx.has_node (graph self) key.

(** A directed path of edges joins two nodes of the graph. *)
Inductive has_path (g : nx.DiGraph) : string -> string -> Prop :=
| path_here (u : string) : has_path g u u
| path_step (u v w : string) (d : Edge.t) :
    nx.get_edge_data g u v = Some d -> has_path g v w -> has_path g u w.

(** The integer a route's [expected_amount_out] string stands for. *)
Definition amount_out (r : SwapRoute.t) : result Z :=
  int (SwapRoute.expected_amount_out r).

Definition amount_out_is (z : Z) (r : SwapRoute.t) : bool :=
  match amount_out r with Ok k => k =? z | Raise _ => false end.

(** The routes are in order of decreasing expected output. *)
Definition ranked_by_amount (rs : list SwapRoute.t) : Prop :=
  exists keys, mapM amount_out rs = Ok keys /\ StronglySorted Z.ge keys.

(** The order the spec asks for: decreasing expected output, then
    increasing risk score, then increasing gas estimate. *)
Definition spec_before (r1 r2 : SwapRoute.t) : Prop :=
  exists k1 k2,
    amount_out r1 = Ok k1 /\ amount_out r2 = Ok k2 /\
    (k1 > k2 \/
     (k1 = k2 /\
      (SwapRoute.risk_score r1 < SwapRoute.risk_score r2 \/
       (SwapRoute.risk_score r1 = SwapRoute.risk_score r2 /\
        SwapRoute.gas_estimate r1 <= SwapRoute.gas_estimate r2)))).

(** A sort key that is the amount of its route. *)
Definition keyed_ok (kp : Z * SwapRoute.t) : Prop :=
  amount_out (snd kp) = Ok (fst kp).

(** Some step of the route was entered with a zero amount. *)
Definition has_zero_hop (r : SwapRoute.t) : bool :=
  existsb (fun s => if string_dec (SwapStep.amount_in s) "0" then true else false)
    (SwapRoute.steps r).

(** The hop formula in the words of the spec (section 4.4), on exact
    rationals: [effective_in = current * (1 - fee_tier)],
    [new_reserve_in = reserve_in + effective_in],
    [output = floor(reserve_out - (reserve_in * reserve_out) / new_reserve_in)]. *)
Definition spec_hop_output (fee_tier : QArith_base.Q)
    (reserve_in reserve_out current : Z) : Z :=
  let q := QArith_base.inject_Z in
  let effective_in :=
    QArith_base.Qmult (q current) (QArith_base.Qminus (q 1) fee_tier) in
  let new_reserve_in := QArith_base.Qplus (q reserve_in) effective_in in
  let new_reserve_out :=
    QArith_base.Qdiv (QArith_base.Qmult (q reserve_in) (q reserve_out)) new_reserve_in in
  Qround.Qfloor (QArith_base.Qminus (q reserve_out) new_reserve_out).

(** The exact value of a finite float. *)
Definition float_to_Q (x : float) : QArith_base.Q :=
  let '(n, d) := to_ratio x in QArith_base.Qmake n (Z.to_pos d).

(** The same edge with another fee tier. *)
Definition with_fee (f : float) (d : Edge.t) : Edge.t :=
  Edge.mk (Edge.pool_id d) (Edge.exchange d) f (Edge.price d) (Edge.liquidity d)
    (Edge.reserve_a d) (Edge.reserve_b d)
    (Edge.price_impact d) (Edge.gas_cost d) (Edge.slippage d).

Definition refee (fee : Hop -> float) (h : Hop) : Hop :=
  let '(u, v, d) := h in (u, v, with_fee (fee h) d).

(** A route without the [fee_tier] fields of its steps. *)
Definition step_view (s : SwapStep.t) : string * Token.t * Token.t * string * string :=
  (SwapStep.exchange_id s, SwapStep.token_in s, SwapStep.token_out s,
   SwapStep.amount_in s, SwapStep.amount_out_min s).

Definition route_view (r : SwapRoute.t)
  : list (string * Token.t * Token.t * string * string) * string * string * float * Z * Z :=
  (map step_view (SwapRoute.steps r), SwapRoute.amount_in r,
   SwapRoute.expected_amount_out r, SwapRoute.price_impact r,
   SwapRoute.gas_estimate r, SwapRoute.risk_score r).

Definition result_map {A B : Type} (f : A -> B) (r : result A) : result B :=
  match r with Ok a => Ok (f a) | Raise e => Raise e end.

Definition loop_view (x : list SwapStep.t * Z * list string)
  : list (string * Token.t * Token.t * string * string) * Z * list string :=
  let '(steps, current_amount, exchanges) := x in
  (map step_view steps, current_amount, exchanges).

(** The node list [p] follows edges of the graph. *)
Fixpoint walk (g : nx.DiGraph) (p : list string) : Prop :=
  match p with
  | u :: ((v :: _) as r) => nx.get_edge_data g u v <> None /\ walk g r
  | _ => True
  end.

(** A float between 0.0 and 1.0 (in particular not a NaN). *)
Definition in_unit_interval (x : float) : Prop :=
  SFleb f0 x = true /\ SFleb x f1 = true.

(** The seven attributes of an edge that come from its pool. *)
Definition pool_view (d : Edge.t)
  : PoolId * string * float * float * float * Z * Z :=
  (Edge.pool_id d, Edge.exchange d, Edge.fee_tier d, Edge.price d,
   Edge.liquidity d, Edge.reserve_a d, Edge.reserve_b d).

(** A dictionary with [f] applied to its values. *)
Definition omap {K V W : Type} (f : V -> W) (d : odict K V) : odict K W :=
  map (fun kv => (fst kv, f (snd kv))) d.

(** The graph without the attributes a path search writes: nodes and edges
    in order, each edge with its pool attributes. *)
Definition pool_data (g : nx.DiGraph)
  : odict string (odict string (PoolId * string * float * float * float * Z * Z)) :=
  omap (omap pool_view) g.

(** The router states a program can reach: a fresh router, then upserts
    and routing queries in any order, whatever their outcomes. *)
Inductive reachable : OptimizedRouter.t -> Prop :=
| reach_init : reachable init
| reach_add_pool (self : OptimizedRouter.t) (pool : Pool.t) :
    reachable self -> reachable (fst (add_pool self pool))
| reach_find_routes (adjust : list SwapRoute.t -> result (list SwapRoute.t))
    (self : OptimizedRouter.t) (token_in token_out : Token.t) (amount : Z) :
    reachable self ->
    reachable (fst (find_routes adjust self token_in token_out amount)).

(** Every neighbour of a node is itself a node of the graph. *)
Definition closed (g : nx.DiGraph) : Prop :=
  forall u v d, nx.get_edge_data g u v = Some d -> nx.has_node g v = true.

(** Every token of the registry is stored under its own key. *)
Definition keyed (self : OptimizedRouter.t) : Prop :=
  forall key tok, oget key (tokens self) = Some tok -> token_key tok = key.

(** Both endpoints of every edge are registered tokens. *)
Definition registered_edges (self : OptimizedRouter.t) : Prop :=
  forall u v d,
    nx.get_edge_data (graph self) u v = Some d ->
    omem u (tokens self) = true /\ omem v (tokens self) = true.

(** More routers used as test inputs. *)
Module Demo2.

Definition queried_router : OptimizedRouter.t :=
  fst (find_routes Ok Demo.main_router Demo.eth Demo.dai (10 ^ 18)).

Definition pool_eth_usdc_moved : Pool.t :=
  Pool.mk "uniswap" Demo.eth Demo.usdc f0_3 (1001 * 10 ^ 18) (1998002 * 10 ^ 6)
    (lit 1996 1) (lit 4000000 1).

End Demo2.

(** The hops lead from [a] to [b], each starting where the previous one
    ended. *)
Fixpoint chain (a : string) (hops : list Hop) (b : string) : Prop :=
  match hops with
  | [] => a = b
  | (u, v, _) :: rest => u = a /\ chain v rest b
  end.

Definition hop_source (h : Hop) : string := fst (fst h).
Definition hop_target (h : Hop) : string := snd (fst h).

(** A candidate path from [a] to [b] in the graph [g]: at least one hop, the
    hops chain from [a] to [b], no token is visited twice, and every hop
    carries the attribute dict of its edge in [g]. *)
Definition candidate (g : nx.DiGraph) (a b : string) (hops : list Hop) : Prop :=
  hops <> [] /\
  chain a hops b /\
  NoDup (a :: map hop_target hops) /\
  Forall (fun h => nx.get_edge_data g (hop_source h) (hop_target h) = Some (snd h)) hops.

(** The step built for a hop: the registry's tokens for the two ends of
    the hop, and the edge's exchange and fee tier. *)
Definition step_of_hop (self : OptimizedRouter.t) (h : Hop) (s : SwapStep.t) : Prop :=
  oget (hop_source h) (tokens self) = Some (SwapStep.token_in s) /\
  oget (hop_target h) (tokens self) = Some (SwapStep.token_out s) /\
  SwapStep.exchange_id s = Edge.exchange (snd h) /\
  SwapStep.fee_tier s = Some (Edge.fee_tier (snd h)).

(** The amounts thread through the hops: every step is entered with the
    output of the hop before it, and [final] comes out of the last hop. *)
Fixpoint threads (current : Z) (path : list Hop) (steps : list SwapStep.t)
    (final : Z) : Prop :=
  match path, steps with
  | [], [] => current = final
  | h :: path', s :: steps' =>
      SwapStep.amount_in s = str current /\
      exists output,
        hop_output (snd h) current = Ok output /\ threads output path' steps' final
  | _, _ => False
  end.

(** A route without its expected output. *)
Definition route_strip (r : SwapRoute.t)
  : list SwapStep.t * string * float * Z * Z :=
  (SwapRoute.steps r, SwapRoute.amount_in r, SwapRoute.price_impact r,
   SwapRoute.gas_estimate r, SwapRoute.risk_score r).

(** The steps lead from the token key [a] to the token key [b]. *)
Fixpoint steps_chain (a : string) (steps : list SwapStep.t) (b : string) : Prop :=
  match steps with
  | [] => a = b
  | s :: rest =>
      token_key (SwapStep.token_in s) = a /\
      steps_chain (token_key (SwapStep.token_out s)) rest b
  end.

(** The exceptions of Python arithmetic and of [int(...)]. *)
Definition arithmetic_error (e : exn) : Prop :=
  e = ZeroDivisionError \/ e = OverflowError \/ e = ValueError.

(** Every exception the computation [r] can raise satisfies [P]. *)
Definition raises_in (P : exn -> Prop) {A : Type} (r : result A) : Prop :=
  forall e, r = Raise e -> P e.

(** The output of a hop in the words of the amended claim C1: the
    constant-product formula on the hop's whole input,
    [int(reserve_out - (reserve_in * reserve_out) / (reserve_in + current))]
    in float arithmetic.  No fee tier enters it. *)
Definition constant_product_output (reserve_in reserve_out current : Z) : result Z :=
  new_reserve_out <- int_truediv (reserve_in * reserve_out) (reserve_in + current) ;;
  difference <- int_sub_float reserve_out new_reserve_out ;;
  to_int difference.

(** The formula applied hop after hop: the amounts the hops are entered
    with, and the amount that leaves the last hop. *)
Fixpoint constant_product_amounts (current : Z) (path : list Hop)
  : result (list Z * Z) :=
  match path with
  | [] => Ok ([], current)
  | (_, _, data) :: rest =>
      output <- constant_product_output (Edge.reserve_a data) (Edge.reserve_b data)
                  current ;;
      '(inputs, final) <- constant_product_amounts output rest ;;
      Ok (current :: inputs, final)
  end.

Definition positive_reserves (h : Hop) : Prop :=
  0 < Edge.reserve_a (snd h) /\ 0 < Edge.reserve_b (snd h).

(** The hop of [fee_router]'s only pool, from A to B, as [add_pool] stores it. *)
Definition fee_hop : Hop :=
  (token_key Demo.tA, token_key Demo.tB,
   Edge.mk (pool_id_of (Demo.small_pool "uniswap" Demo.tA Demo.tB 1000 2000))
     "uniswap" f0_3 (lit 1 1) (lit 5000000 1) 1000 2000 None None None).

(** An edge the spec calls unusable for a search with this amount. *)
Definition unusable (amount : Z) (d : Edge.t) : Prop :=
  amount <= 0 \/ Edge.reserve_a d <= 0 \/ Edge.reserve_b d <= 0.

(** A hop through an unusable edge, as a search leaves it: price impact 1
    and a weight below 1. *)
Definition unusable_hop (amount : Z) (h : Hop) : Prop :=
  unusable amount (snd h) /\
  Edge.price_impact (snd h) = Some f1 /\
  exists w,
    _weight_function (hop_source h) (hop_target h) (snd h) = Ok w /\ ltb w f1 = true.

(** A directed path joins two nodes of the graph through edges that are
    not unusable. *)
Inductive usable_path (amount : Z) (g : nx.DiGraph) : string -> string -> Prop :=
| usable_here (u : string) : usable_path amount g u u
| usable_step (u v w : string) (d : Edge.t) :
    nx.get_edge_data g u v = Some d ->
    ~ unusable amount d ->
    usable_path amount g v w ->
    usable_path amount g u w.

(** A string of decimal digits. *)
Fixpoint all_digits (s : string) : bool :=
  match s with
  | EmptyString => true
  | String c r => is_digit c && all_digits r
  end.

(* ================================================================== *)
(** * Properties *)

Import Demo.

(** ** The model on the example of [main()] *)

Example str_examples : str 0 = "0" /\ str 1998001998 = "1998001998" /\ str (-42) = "-42".
Proof. repeat split. Qed.

Example lower_example : lower "SushiSwap" = "sushiswap".
Proof. reflexivity. Qed.

Example token_key_example :
  token_key eth = "1_0xC02aaA39b223FE8D0A0e5C4F27eAD9083C756Cc2".
Proof. reflexivity. Qed.

Example int_examples :
  int " +4_2 " = Ok 42 /\ int "-007" = Ok (-7) /\ int "4__2" = Raise ValueError /\
  int "" = Raise ValueError.
Proof. repeat split. Qed.

Example str_float_examples :
  str_float f0_3 = "0.3" /\ str_float f1 = "1.0" /\ str_float (lit 5 100) = "0.05" /\
  str_float (lit 1 100000) = "1e-05" /\ str_float (lit (10 ^ 16) 1) = "1e+16".
Proof. vm_compute. repeat split. Qed.

Example pool_id_example :
  pool_id_of pool_eth_usdc =
  "uniswap_0xC02aaA39b223FE8D0A0e5C4F27eAD9083C756Cc2_0xA0b86991c6218b36c1d19D4a2e9Eb0cE3606eB48_0.3".
Proof. vm_compute. reflexivity. Qed.

(** A pool id is a formatted string: an underscore in a name can make two
    different pools share one id, and the later upsert then replaces the
    earlier pool in the pool table. *)
Example pool_id_shared_by_two_pools :
  let p1 := Pool.mk "uni_x" (Token.mk 1 "y" "Y" 18) tB f0_3 1 1 f1 f1 in
  let p2 := Pool.mk "uni" (Token.mk 1 "x_y" "XY" 18) tB f0_3 2 2 f1 f1 in
  pool_id_of p1 = "uni_x_y_0xB_0.3" /\
  pool_id_of p2 = "uni_x_y_0xB_0.3" /\
  pools (upserts init [p1; p2]) = [("uni_x_y_0xB_0.3", p2)].
Proof. vm_compute. repeat split. Qed.

Example gas_cost_example :
  _calculate_gas_cost 2 ["Uniswap"; "curve"] = 160000.
Proof. reflexivity. Qed.

(** One WETH into the WETH/USDC pool, then into USDC/DAI: the amounts of
    the two steps and of the route, with a draw of 0.5 (no adjustment). *)
Example main_route :
  result_map
    (map (fun r => (map (fun s => (SwapStep.amount_in s, SwapStep.amount_out_min s))
                        (SwapRoute.steps r),
                    SwapRoute.expected_amount_out r,
                    SwapRoute.gas_estimate r, SwapRoute.risk_score r)))
    (snd (find_routes (PricePredictor.adjust (fun _ => f0_5)) main_router eth dai (10 ^ 18))) =
  Ok [([("1000000000000000000", "1988011988");
        ("1998001998", "1987217894945392951296")],
       "1997203914517983002624", 170000, 2)].
Proof. vm_compute. reflexivity. Qed.

(** The default predictor draws random numbers: other draws, other
    amounts. *)
Example default_predictor_depends_on_draws :
  result_map (map SwapRoute.expected_amount_out)
    (snd (find_routes (PricePredictor.adjust (fun _ => f0)) main_router eth usdc (10 ^ 18))) =
    Ok ["1988011988"] /\
  result_map (map SwapRoute.expected_amount_out)
    (snd (find_routes (PricePredictor.adjust (fun _ => f0_5)) main_router eth usdc (10 ^ 18))) =
    Ok ["1998001998"].
Proof. split; vm_compute; reflexivity. Qed.

(** ** Dictionaries *)

Section ODictFacts.
Context {K V : Type} `{EqDec K}.
Implicit Types (k : K) (v : V) (d : odict K V).

Lemma oget_oset_eq k v d : oget k (oset k v d) = Some v.
Proof.
  induction d as [|[k' v'] r IH]; simpl.
  - destruct (eq_dec k k); congruence.
  - destruct (eq_dec k k') as [->|Hne]; simpl.
    + destruct (eq_dec k' k'); congruence.
    + destruct (eq_dec k k'); [contradiction|exact IH].
Qed.

Lemma oget_oset_ne k k' v d : k <> k' -> oget k' (oset k v d) = oget k' d.
Proof.
  intros Hne. induction d as [|[k0 v0] r IH]; simpl.
  - destruct (eq_dec k' k); congruence.
  - destruct (eq_dec k k0) as [->|Hk]; simpl.
    + destruct (eq_dec k' k0); congruence.
    + destruct (eq_dec k' k0); [reflexivity|exact IH].
Qed.

Lemma oset_same k v d : oget k d = Some v -> oset k v d = d.
Proof.
  induction d as [|[k0 v0] r IH]; simpl; [discriminate|].
  destruct (eq_dec k k0) as [->|Hk]; intros Hg.
  - congruence.
  - now rewrite IH.
Qed.

Lemma oset_oset k v v' d : oset k v (oset k v' d) = oset k v d.
Proof.
  induction d as [|[k0 v0] r IH]; simpl.
  - destruct (eq_dec k k); congruence.
  - destruct (eq_dec k k0) as [->|Hk]; simpl.
    + destruct (eq_dec k0 k0); congruence.
    + destruct (eq_dec k k0); [contradiction|now rewrite IH].
Qed.

Lemma omem_oset_eq k v d : omem k (oset k v d) = true.
Proof. unfold omem. now rewrite oget_oset_eq. Qed.

Lemma omem_oset_ne k k' v d : k <> k' -> omem k' (oset k v d) = omem k' d.
Proof. intros Hne. unfold omem. now rewrite oget_oset_ne. Qed.

Lemma omem_oset_mono k k' v d : omem k' d = true -> omem k' (oset k v d) = true.
Proof.
  intros Hm. destruct (eq_dec k k') as [->|Hne].
  - apply omem_oset_eq.
  - now rewrite omem_oset_ne.
Qed.

Lemma omem_true_get k d : omem k d = true -> exists v, oget k d = Some v.
Proof. unfold omem. destruct (oget k d) as [v|]; [now exists v|discriminate]. Qed.

Lemma oget_in k v d : oget k d = Some v -> In (k, v) d.
Proof.
  induction d as [|[k0 v0] r IH]; simpl; [discriminate|].
  destruct (eq_dec k k0) as [->|Hk]; intros Hg.
  - left. congruence.
  - right. now apply IH.
Qed.

Lemma in_omem k v d : In (k, v) d -> omem k d = true.
Proof.
  unfold omem. induction d as [|[k0 v0] r IH]; simpl; [tauto|].
  intros [Heq|Hin].
  - inversion Heq; subst. destruct (eq_dec k k); congruence.
  - destruct (eq_dec k k0); [reflexivity|now apply IH].
Qed.

End ODictFacts.

(** ** The graph *)

Lemma neighbors_add_node u g x :
  nx.neighbors (nx.add_node u g) x = nx.neighbors g x.
Proof.
  unfold nx.add_node, nx.neighbors. destruct (omem u g) eqn:Hm; [reflexivity|].
  destruct (string_dec u x) as [->|Hne].
  - rewrite oget_oset_eq. unfold omem in Hm.
    now destruct (oget x g).
  - now rewrite oget_oset_ne.
Qed.

Lemma has_node_add_node u g x :
  nx.has_node (nx.add_node u g) x = nx.has_node g x || (if string_dec u x then true else false).
Proof.
  unfold nx.add_node, nx.has_node. destruct (omem u g) eqn:Hm.
  - destruct (string_dec u x) as [->|Hne]; [rewrite Hm|]; now rewrite ?orb_false_r.
  - destruct (string_dec u x) as [->|Hne].
    + now rewrite omem_oset_eq, orb_true_r.
    + now rewrite omem_oset_ne, orb_false_r.
Qed.

Lemma add_node_present u g : nx.has_node g u = true -> nx.add_node u g = g.
Proof. unfold nx.add_node, nx.has_node. now intros ->. Qed.

Lemma has_node_add_edge g u v kw x :
  nx.has_node (nx.add_edge g u v kw) x =
  nx.has_node g x || (if string_dec u x then true else false)
                  || (if string_dec v x then true else false).
Proof.
  unfold nx.add_edge.
  assert (Hn : forall N g', nx.has_node g' u = true ->
                nx.has_node (oset u N g') x = nx.has_node g' x).
  { intros N g' Hu. unfold nx.has_node in *.
    destruct (string_dec u x) as [->|Hne].
    - now rewrite omem_oset_eq, Hu.
    - now rewrite omem_oset_ne. }
  rewrite Hn.
  - rewrite !has_node_add_node.
    destruct (nx.has_node g x), (string_dec u x), (string_dec v x); reflexivity.
  - rewrite !has_node_add_node. destruct (string_dec u u); [|contradiction].
    now rewrite orb_true_r.
Qed.

Lemma get_edge_data_add_edge_eq g u v kw :
  nx.get_edge_data (nx.add_edge g u v kw) u v =
  Some (Edge.update (nx.get_edge_data g u v) kw).
Proof.
  unfold nx.get_edge_data, nx.add_edge.
  unfold nx.neighbors at 1. rewrite oget_oset_eq, oget_oset_eq.
  now rewrite !neighbors_add_node.
Qed.

Lemma get_edge_data_add_edge_ne g u v kw u' v' :
  (u, v) <> (u', v') ->
  nx.get_edge_data (nx.add_edge g u v kw) u' v' = nx.get_edge_data g u' v'.
Proof.
  intros Hne. unfold nx.get_edge_data, nx.add_edge.
  unfold nx.neighbors at 1.
  destruct (string_dec u u') as [<-|Hu].
  - rewrite oget_oset_eq, oget_oset_ne by congruence.
    now rewrite !neighbors_add_node.
  - rewrite oget_oset_ne by assumption.
    fold (nx.neighbors (nx.add_node v (nx.add_node u g)) u').
    now rewrite !neighbors_add_node.
Qed.

Lemma update_update old kw kw' :
  Edge.update (Some (Edge.update old kw)) kw' = Edge.update old kw'.
Proof. now destruct old. Qed.

Lemma add_edge_overwrite g u v kw kw' :
  nx.add_edge (nx.add_edge g u v kw) u v kw' = nx.add_edge g u v kw'.
Proof.
  assert (Hu : nx.has_node (nx.add_edge g u v kw) u = true).
  { rewrite has_node_add_edge. destruct (string_dec u u); [|contradiction].
    now rewrite orb_true_r. }
  assert (Hv : nx.has_node (nx.add_edge g u v kw) v = true).
  { rewrite has_node_add_edge. destruct (string_dec v v); [|contradiction].
    now rewrite orb_true_r. }
  unfold nx.add_edge at 1.
  rewrite (add_node_present u), (add_node_present v) by assumption.
  fold (nx.get_edge_data (nx.add_edge g u v kw) u v).
  rewrite get_edge_data_add_edge_eq, update_update.
  unfold nx.add_edge. unfold nx.neighbors at 1.
  rewrite oget_oset_eq, !oset_oset.
  unfold nx.get_edge_data. now rewrite !neighbors_add_node.
Qed.

Lemma add_edge_same g u v kw d :
  nx.has_node g v = true ->
  nx.get_edge_data g u v = Some d ->
  Edge.update (Some d) kw = d ->
  nx.add_edge g u v kw = g.
Proof.
  intros Hv Hd Hup.
  assert (Hu : nx.has_node g u = true).
  { unfold nx.has_node, omem. unfold nx.get_edge_data, nx.neighbors in Hd.
    destruct (oget u g); [reflexivity|discriminate]. }
  unfold nx.add_edge.
  rewrite (add_node_present u), (add_node_present v) by assumption.
  unfold nx.get_edge_data in Hd. rewrite Hd, Hup.
  rewrite (oset_same v d) by assumption.
  apply oset_same. unfold nx.neighbors.
  unfold nx.has_node, omem in Hu. now destruct (oget u g).
Qed.

(** ** Pool upserts *)

Lemma omem_register key tok d x :
  omem x (register key tok d) = omem x d || (if string_dec key x then true else false).
Proof.
  unfold register. destruct (omem key d) eqn:Hm.
  - destruct (string_dec key x) as [<-|Hne]; [rewrite Hm|]; now rewrite ?orb_false_r.
  - destruct (string_dec key x) as [<-|Hne].
    + now rewrite omem_oset_eq, orb_true_r.
    + now rewrite omem_oset_ne, orb_false_r.
Qed.

Lemma register_present key tok d : omem key d = true -> register key tok d = d.
Proof. unfold register. now intros ->. Qed.

Lemma register_twice a ta b tb d :
  register b tb (register a ta (register b tb (register a ta d))) =
  register b tb (register a ta d).
Proof.
  rewrite (register_present a), (register_present b); [reflexivity| |].
  - rewrite omem_register. destruct (string_dec b b); [|contradiction].
    now rewrite orb_true_r.
  - rewrite !omem_register. destruct (string_dec a a); [|contradiction].
    now rewrite orb_true_r.
Qed.

Lemma add_edge_pair_twice g a b kf kr :
  nx.add_edge (nx.add_edge (nx.add_edge (nx.add_edge g a b kf) b a kr) a b kf) b a kr =
  nx.add_edge (nx.add_edge g a b kf) b a kr.
Proof.
  destruct (string_dec a b) as [->|Hne].
  - now rewrite !add_edge_overwrite.
  - rewrite (add_edge_same _ a b kf (Edge.update (nx.get_edge_data g a b) kf)).
    + apply add_edge_overwrite.
    + rewrite !has_node_add_edge. destruct (string_dec b b); [|contradiction].
      now rewrite !orb_true_r.
    + rewrite get_edge_data_add_edge_ne by congruence.
      apply get_edge_data_add_edge_eq.
    + apply update_update.
Qed.

(** C9.  Upserting the same pool twice leaves the router (graph with all
    edge attributes, pool table, token registry) in the state reached by
    upserting it once, and the second call has the same outcome as the
    first. *)
Theorem add_pool_idempotent (self : OptimizedRouter.t) (pool : Pool.t) :
  add_pool (fst (add_pool self pool)) pool = add_pool self pool.
Proof.
  unfold add_pool.
  destruct (truediv f1 (Pool.price pool)) as [inverse|e] eqn:Hdiv; cbn [fst graph pools tokens].
  - rewrite add_edge_pair_twice, oset_oset, register_twice. reflexivity.
  - rewrite add_edge_overwrite, oset_oset, register_twice. reflexivity.
Qed.

Lemma truediv_nonzero x y : is_zero y = false -> truediv x y = Ok (SFdiv prec emax x y).
Proof. unfold truediv. now intros ->. Qed.

Lemma add_pool_mirror_invariant self pool :
  is_zero (Pool.price pool) = false ->
  mirror_invariant (graph self) ->
  mirror_invariant (graph (fst (add_pool self pool))).
Proof.
  intros Hnz Hinv. unfold add_pool.
  rewrite (truediv_nonzero _ _ Hnz). cbn [fst graph].
  set (a := token_key (Pool.token_a pool)).
  set (b := token_key (Pool.token_b pool)).
  intros u v d Huv Hd.
  destruct (string_dec b u) as [Hbu|Hbu]; [destruct (string_dec a v) as [Hav|Hav]|].
  - (* the reverse edge of the pool *)
    subst u v. rewrite get_edge_data_add_edge_eq in Hd. injection Hd as <-.
    rewrite get_edge_data_add_edge_ne by congruence.
    rewrite get_edge_data_add_edge_eq. eexists. split; [reflexivity|].
    unfold mirrored; cbn. repeat split; try reflexivity.
    right. now apply truediv_nonzero.
  - rewrite get_edge_data_add_edge_ne in Hd by congruence.
    destruct (string_dec a u) as [Hau|Hau]; [destruct (string_dec b v) as [Hbv|Hbv]|].
    + congruence.
    + rewrite get_edge_data_add_edge_ne in Hd by congruence.
      destruct (Hinv u v d Huv Hd) as [d' [Hd' Hm]].
      exists d'. split; [|exact Hm].
      rewrite !get_edge_data_add_edge_ne by congruence. exact Hd'.
    + rewrite get_edge_data_add_edge_ne in Hd by congruence.
      destruct (Hinv u v d Huv Hd) as [d' [Hd' Hm]].
      exists d'. split; [|exact Hm].
      rewrite !get_edge_data_add_edge_ne by congruence. exact Hd'.
  - rewrite get_edge_data_add_edge_ne in Hd by congruence.
    destruct (string_dec a u) as [Hau|Hau]; [destruct (string_dec b v) as [Hbv|Hbv]|].
    + (* the forward edge of the pool *)
      subst u v. rewrite get_edge_data_add_edge_eq in Hd. injection Hd as <-.
      rewrite get_edge_data_add_edge_eq. eexists. split; [reflexivity|].
      unfold mirrored; cbn. repeat split; try reflexivity.
      left. now apply truediv_nonzero.
    + rewrite get_edge_data_add_edge_ne in Hd by congruence.
      destruct (Hinv u v d Huv Hd) as [d' [Hd' Hm]].
      exists d'. split; [|exact Hm].
      rewrite !get_edge_data_add_edge_ne by congruence. exact Hd'.
    + rewrite get_edge_data_add_edge_ne in Hd by congruence.
      destruct (Hinv u v d Huv Hd) as [d' [Hd' Hm]].
      exists d'. split; [|exact Hm].
      rewrite !get_edge_data_add_edge_ne by congruence. exact Hd'.
Qed.

Lemma mirror_invariant_upserts self ps :
  Forall (fun p => is_zero (Pool.price p) = false) ps ->
  mirror_invariant (graph self) ->
  mirror_invariant (graph (upserts self ps)).
Proof.
  intros Hall. revert self.
  induction Hall as [|p ps Hp _ IH]; intros self Hinv; [exact Hinv|].
  cbn. apply IH. now apply add_pool_mirror_invariant.
Qed.

Lemma add_pool_owns_pair self pool :
  is_zero (Pool.price pool) = false ->
  token_key (Pool.token_a pool) <> token_key (Pool.token_b pool) ->
  owns_pair (graph (fst (add_pool self pool))) pool.
Proof.
  intros Hnz Hne. unfold add_pool, owns_pair.
  rewrite (truediv_nonzero _ _ Hnz). cbn [fst graph].
  rewrite get_edge_data_add_edge_ne by congruence.
  rewrite !get_edge_data_add_edge_eq.
  do 2 eexists. repeat split; reflexivity.
Qed.

(** C8 (as amended).  After any sequence of successful pool upserts on a
    fresh router, every directed edge between two different tokens has a
    reverse edge that carries the same pool id, has [reserve_a] and
    [reserve_b] swapped, and whose price is [1.0 /] the other's (or
    conversely); and the pool upserted last, when its two tokens differ,
    owns both edges between them, with its own reserves and price. *)
Theorem upserts_mirror_invariant (ps : list Pool.t) :
  Forall (fun p => is_zero (Pool.price p) = false) ps ->
  mirror_invariant (graph (upserts init ps)) /\
  (forall ps' p, ps = ps' ++ [p] ->
     token_key (Pool.token_a p) <> token_key (Pool.token_b p) ->
     owns_pair (graph (upserts init ps)) p).
Proof.
  intros Hall. split.
  - apply mirror_invariant_upserts; [exact Hall|].
    intros u v d _ Hd. discriminate Hd.
  - intros ps' p -> Hne. unfold upserts. rewrite fold_left_app. cbn.
    apply add_pool_owns_pair; [|exact Hne].
    apply Forall_app in Hall. destruct Hall as [_ Hp].
    now inversion Hp.
Qed.

Lemma upserts_mirror_invariant_witness :
  mirror_invariant (graph main_router) /\
  owns_pair (graph main_router) pool_usdc_dai.
Proof.
  assert (Hall : Forall (fun p => is_zero (Pool.price p) = false)
                   [pool_eth_usdc; pool_usdc_dai])
    by (repeat constructor).
  destruct (upserts_mirror_invariant [pool_eth_usdc; pool_usdc_dai] Hall)
    as [Hinv Hlast].
  split; [exact Hinv|].
  apply (Hlast [pool_eth_usdc] pool_usdc_dai eq_refl).
  vm_compute. discriminate.
Defined.

(** C8 fails as stated: a second pool upserted on the same token pair
    takes over both edges, so the first pool stays in the pool table with
    no edge carrying its id. *)
Lemma overwritten_pool_has_no_edge :
  oget (pool_id_of first_pool) (pools overwritten_router) = Some first_pool /\
  List.length (edges_of_pool (graph overwritten_router) (pool_id_of first_pool)) <> 2%nat.
Proof. split; [vm_compute; reflexivity|vm_compute; discriminate]. Qed.

(** C3 (as amended).  [add_pool] validates nothing: every pool whose price
    is not zero, malformed or not, is accepted.  The call returns normally,
    the pool is stored in the pool table under its id, both tokens are in
    the registry and the edge from [token_b] to [token_a] carries the
    pool's id. *)
Theorem add_pool_accepts_every_pool (self : OptimizedRouter.t) (pool : Pool.t) :
  is_zero (Pool.price pool) = false ->
  exists self',
    add_pool self pool = (self', Ok tt) /\
    oget (pool_id_of pool) (pools self') = Some pool /\
    omem (token_key (Pool.token_a pool)) (tokens self') = true /\
    omem (token_key (Pool.token_b pool)) (tokens self') = true /\
    exists d,
      nx.get_edge_data (graph self') (token_key (Pool.token_b pool))
        (token_key (Pool.token_a pool)) = Some d /\
      Edge.pool_id d = pool_id_of pool.
Proof.
  intros Hnz. unfold add_pool. rewrite (truediv_nonzero _ _ Hnz).
  eexists. split; [reflexivity|]. cbn [graph pools tokens].
  split; [apply oget_oset_eq|].
  split.
  { rewrite !omem_register.
    destruct (string_dec (token_key (Pool.token_a pool)) (token_key (Pool.token_a pool)));
      [|contradiction].
    now rewrite orb_true_r. }
  split.
  { rewrite omem_register.
    destruct (string_dec (token_key (Pool.token_b pool)) (token_key (Pool.token_b pool)));
      [|contradiction].
    now rewrite orb_true_r. }
  rewrite get_edge_data_add_edge_eq. eexists. split; reflexivity.
Qed.

Lemma add_pool_accepts_every_pool_witness :
  malformed bad_pool = true /\
  exists self',
    add_pool init bad_pool = (self', Ok tt) /\
    oget (pool_id_of bad_pool) (pools self') = Some bad_pool.
Proof.
  split; [reflexivity|].
  destruct (add_pool_accepts_every_pool init bad_pool eq_refl)
    as [self' [Hcall [Hstored _]]].
  exists self'. split; assumption.
Defined.

(** C3 fails as stated: a pool with equal tokens, a negative reserve and a
    fee tier of 1.5 is accepted, and the router state changes. *)
Lemma malformed_pool_accepted :
  malformed bad_pool = true /\
  snd (add_pool init bad_pool) = Ok tt /\
  fst (add_pool init bad_pool) <> init.
Proof. repeat split; try reflexivity. vm_compute. discriminate. Qed.

(** ** The preparation loop of the path search *)

Lemma prepare_edge_inv amount d d' :
  prepare_edge amount d = Ok d' ->
  exists pi,
    _calculate_price_impact amount (Edge.reserve_a d) (Edge.reserve_b d) = Ok pi /\
    d' = Edge.set_search pi (_calculate_gas_cost 1 [Edge.exchange d]) f0_005 d.
Proof.
  unfold prepare_edge.
  destruct (_calculate_price_impact amount (Edge.reserve_a d) (Edge.reserve_b d))
    as [pi|e]; unfold bind; intros Hd.
  - exists pi. split; [reflexivity|]. injection Hd. intros <-. reflexivity.
  - discriminate Hd.
Qed.

Lemma set_search_fields pi gc sl d :
  Edge.reserve_a (Edge.set_search pi gc sl d) = Edge.reserve_a d /\
  Edge.reserve_b (Edge.set_search pi gc sl d) = Edge.reserve_b d /\
  Edge.exchange (Edge.set_search pi gc sl d) = Edge.exchange d.
Proof. repeat split. Qed.

Lemma set_search_twice pi gc sl pi' gc' sl' d :
  Edge.set_search pi gc sl (Edge.set_search pi' gc' sl' d) = Edge.set_search pi gc sl d.
Proof. reflexivity. Qed.

Lemma prepare_edge_again amount d d' :
  prepare_edge amount d = Ok d' -> prepare_edge amount d' = Ok d'.
Proof.
  intros Hd. destruct (prepare_edge_inv _ _ _ Hd) as [pi [Hpi ->]].
  unfold prepare_edge.
  destruct (set_search_fields pi (_calculate_gas_cost 1 [Edge.exchange d]) f0_005 d)
    as [-> [-> ->]].
  rewrite Hpi. unfold bind. now rewrite set_search_twice.
Qed.

Lemma prepare_nbrs_again amount nbrs :
  prepare_nbrs amount (fst (prepare_nbrs amount nbrs)) = prepare_nbrs amount nbrs.
Proof.
  induction nbrs as [|[v d] rest IH]; [reflexivity|].
  cbn. destruct (prepare_edge amount d) as [d'|e] eqn:Hd.
  - destruct (prepare_nbrs amount rest) as [rest' r] eqn:Hrest.
    cbn in *. rewrite (prepare_edge_again _ _ _ Hd), IH. reflexivity.
  - cbn. now rewrite Hd.
Qed.

Lemma prepare_graph_again amount g :
  prepare_graph amount (fst (prepare_graph amount g)) = prepare_graph amount g.
Proof.
  induction g as [|[u nbrs] rest IH]; [reflexivity|].
  cbn. pose proof (prepare_nbrs_again amount nbrs) as Hn.
  destruct (prepare_nbrs amount nbrs) as [nbrs' [[]|e]] eqn:Hnbrs; cbn in Hn.
  - destruct (prepare_graph amount rest) as [rest' r] eqn:Hrest.
    cbn in *. rewrite Hn, IH. reflexivity.
  - cbn. now rewrite Hn.
Qed.

Lemma prepare_nbrs_lookup amount nbrs nbrs' v :
  prepare_nbrs amount nbrs = (nbrs', Ok tt) ->
  match oget v nbrs with
  | Some d => exists d', prepare_edge amount d = Ok d' /\ oget v nbrs' = Some d'
  | None => oget v nbrs' = None
  end.
Proof.
  revert nbrs'. induction nbrs as [|[v0 d0] rest IH]; intros nbrs'; cbn.
  - now intros [= <-].
  - destruct (prepare_edge amount d0) as [d0'|e] eqn:Hd0; [|discriminate].
    destruct (prepare_nbrs amount rest) as [rest' r]. intros [= <- ->]. cbn.
    destruct (eq_dec v v0).
    + now exists d0'.
    + now apply IH.
Qed.

Lemma prepare_graph_neighbors amount g g' u :
  prepare_graph amount g = (g', Ok tt) ->
  prepare_nbrs amount (nx.neighbors g u) = (nx.neighbors g' u, Ok tt).
Proof.
  unfold nx.neighbors.
  revert g'. induction g as [|[u0 n0] rest IH]; intros g'; cbn.
  - now intros [= <-].
  - destruct (prepare_nbrs amount n0) as [n0' [[]|e]] eqn:Hn0; [|discriminate].
    destruct (prepare_graph amount rest) as [rest' r]. intros [= <- ->]. cbn.
    destruct (eq_dec u u0); [exact Hn0|now apply IH].
Qed.

Lemma prepare_graph_lookup amount g g' u v :
  prepare_graph amount g = (g', Ok tt) ->
  match nx.get_edge_data g u v with
  | Some d => exists d', prepare_edge amount d = Ok d' /\ nx.get_edge_data g' u v = Some d'
  | None => nx.get_edge_data g' u v = None
  end.
Proof.
  intros Hg. unfold nx.get_edge_data.
  apply prepare_nbrs_lookup. now apply prepare_graph_neighbors.
Qed.

Lemma prepare_graph_has_node amount g x :
  nx.has_node (fst (prepare_graph amount g)) x = nx.has_node g x.
Proof.
  unfold nx.has_node, omem.
  induction g as [|[u0 n0] rest IH]; [reflexivity|]. cbn.
  destruct (prepare_nbrs amount n0) as [n0' [[]|e]]; cbn.
  - destruct (prepare_graph amount rest) as [rest' r]. cbn in *.
    destruct (eq_dec x u0); [reflexivity|exact IH].
  - now destruct (eq_dec x u0).
Qed.

(** The state a path search leaves behind, whatever its outcome. *)
Lemma k_shortest_paths_state self token_in token_out amount k :
  token_in <> token_out ->
  fst (_k_shortest_paths self token_in token_out amount k) =
  OptimizedRouter.mk (fst (prepare_graph amount (graph self))) (pools self) (tokens self).
Proof.
  intros Hne. unfold _k_shortest_paths.
  destruct (string_dec token_in token_out); [contradiction|].
  destruct (prepare_graph amount (graph self)) as [g [[]|e]]; [|reflexivity].
  destruct (paths <- nx.shortest_simple_paths g token_in token_out _weight_function ;;
            mapM (path_hops g) (firstn k paths)) as [l|[]]; reflexivity.
Qed.

Lemma k_shortest_paths_again self token_in token_out amount k :
  _k_shortest_paths (fst (_k_shortest_paths self token_in token_out amount k))
    token_in token_out amount k =
  _k_shortest_paths self token_in token_out amount k.
Proof.
  destruct (string_dec token_in token_out) as [Heq|Hne].
  - unfold _k_shortest_paths. destruct (string_dec token_in token_out); [|contradiction].
    reflexivity.
  - rewrite k_shortest_paths_state by assumption.
    unfold _k_shortest_paths. destruct (string_dec token_in token_out); [contradiction|].
    cbn [graph pools tokens]. rewrite prepare_graph_again.
    destruct (prepare_graph amount (graph self)) as [g r]. reflexivity.
Qed.

(** C7.  With the identity adjuster, a second [find_routes] call with the
    same tokens and amount, made on the router as the first call left it,
    returns the same route list (or raises the same exception) and leaves
    the router unchanged: the per-edge attributes the first call wrote are
    recomputed to the same values before they are read. *)
Theorem find_routes_repeatable (self : OptimizedRouter.t)
    (token_in token_out : Token.t) (amount : Z) :
  find_routes Ok (fst (find_routes Ok self token_in token_out amount))
    token_in token_out amount =
  find_routes Ok self token_in token_out amount.
Proof.
  assert (Hfst : fst (find_routes Ok self token_in token_out amount) =
                 fst (_k_shortest_paths self (token_key token_in)
                        (token_key token_out) amount 5)).
  { unfold find_routes.
    destruct (_k_shortest_paths self (token_key token_in) (token_key token_out) amount 5)
      as [self' [[|p ps]|e]]; reflexivity. }
  rewrite Hfst. unfold find_routes at 1.
  rewrite k_shortest_paths_again. reflexivity.
Qed.

(** C10 (as amended).  A path search between two different token keys whose
    price-impact computations raise no exception overwrites, on every edge
    of the graph, [price_impact], [gas_cost] and [slippage] with the values
    computed from the search amount, whatever the outcome of the search
    itself; the other edge attributes, the pool table and the registry are
    left as they were. *)
Theorem k_shortest_paths_overwrites_edges (self : OptimizedRouter.t)
    (token_in token_out : string) (amount : Z) (k : nat) (g' : nx.DiGraph) :
  token_in <> token_out ->
  prepare_graph amount (graph self) = (g', Ok tt) ->
  let self' := fst (_k_shortest_paths self token_in token_out amount k) in
  graph self' = g' /\ pools self' = pools self /\ tokens self' = tokens self /\
  forall u v d,
    nx.get_edge_data (graph self) u v = Some d ->
    exists pi,
      _calculate_price_impact amount (Edge.reserve_a d) (Edge.reserve_b d) = Ok pi /\
      nx.get_edge_data g' u v =
        Some (Edge.set_search pi (_calculate_gas_cost 1 [Edge.exchange d]) f0_005 d).
Proof.
  intros Hne Hprep self'. subst self'.
  rewrite k_shortest_paths_state by assumption. rewrite Hprep.
  cbn [fst graph pools tokens]. repeat split.
  intros u v d Hd.
  pose proof (prepare_graph_lookup amount (graph self) g' u v Hprep) as Hl.
  rewrite Hd in Hl. destruct Hl as [d' [Hd' Hg']].
  destruct (prepare_edge_inv _ _ _ Hd') as [pi [Hpi ->]].
  now exists pi.
Qed.

Lemma k_shortest_paths_overwrites_edges_witness :
  exists pi,
    nx.get_edge_data
      (graph (fst (_k_shortest_paths main_router (token_key eth) (token_key dai)
                     (10 ^ 18) 5)))
      (token_key eth) (token_key usdc) =
    option_map (Edge.set_search pi 100000 f0_005)
      (nx.get_edge_data (graph main_router) (token_key eth) (token_key usdc)).
Proof.
  destruct (k_shortest_paths_overwrites_edges main_router (token_key eth) (token_key dai)
              (10 ^ 18) 5 (fst (prepare_graph (10 ^ 18) (graph main_router))))
    as [Hg [_ [_ Hedges]]].
  - vm_compute. discriminate.
  - vm_compute. reflexivity.
  - destruct (nx.get_edge_data (graph main_router) (token_key eth) (token_key usdc))
      as [d|] eqn:Hd; [|vm_compute in Hd; discriminate Hd].
    destruct (Hedges _ _ _ Hd) as [pi [_ Hnew]].
    exists pi. rewrite Hg, Hnew. cbn [option_map].
    replace (_calculate_gas_cost 1 [Edge.exchange d]) with 100000; [reflexivity|].
    vm_compute in Hd. injection Hd as <-. vm_compute. reflexivity.
Defined.

(** C10 fails as stated: a search from a token to itself returns before
    the preparation loop, and the edges keep their attributes unset. *)
Lemma same_token_search_leaves_graph :
  _k_shortest_paths main_router (token_key eth) (token_key eth) (10 ^ 18) 5 =
    (main_router, Ok []) /\
  option_map Edge.price_impact
    (nx.get_edge_data (graph main_router) (token_key eth) (token_key usdc)) = Some None.
Proof. split; vm_compute; reflexivity. Qed.

Lemma non_positive_edge_weight u v ex d :
  exists w,
    _weight_function u v
      (Edge.set_search f1 (_calculate_gas_cost 1 [ex]) f0_005 d) = Ok w /\
    ltb w f1 = true.
Proof.
  unfold _calculate_gas_cost, exchange_costs. cbn [fold_left].
  destruct (string_dec (lower ex) "uniswap");
    [|destruct (string_dec (lower ex) "sushiswap");
      [|destruct (string_dec (lower ex) "curve");
        [|destruct (string_dec (lower ex) "balancer")]]];
    (eexists; split; [vm_compute; reflexivity|vm_compute; reflexivity]).
Qed.

Lemma non_positive_price_impact amount reserve_in reserve_out :
  amount <= 0 \/ reserve_in <= 0 \/ reserve_out <= 0 ->
  _calculate_price_impact amount reserve_in reserve_out = Ok f1.
Proof.
  intros Hle. unfold _calculate_price_impact.
  replace ((amount <=? 0) || (reserve_in <=? 0) || (reserve_out <=? 0)) with true;
    [reflexivity|].
  symmetry. rewrite !orb_true_iff, !Z.leb_le. tauto.
Qed.

(** C5 fails as stated: the only edge from A to B has zero reserves, and
    the search returns the path through it. *)
Lemma dead_edge_returned :
  exists d,
    snd (_k_shortest_paths dead_router (token_key tA) (token_key tB) 100 5) =
      Ok [[(token_key tA, token_key tB, d)]] /\
    Edge.reserve_a d = 0 /\ Edge.reserve_b d = 0 /\ Edge.price_impact d = Some f1.
Proof. eexists. split; [vm_compute; reflexivity|]. repeat split. Qed.

(** ** Endpoints of a routing query *)

Lemma consistent_init : consistent init.
Proof. intros key. reflexivity. Qed.

Lemma consistent_add_pool self pool :
  consistent self -> consistent (fst (add_pool self pool)).
Proof.
  intros Hc key. unfold add_pool.
  destruct (truediv f1 (Pool.price pool)); cbn [fst graph tokens];
    rewrite !omem_register, !has_node_add_edge, Hc;
    destruct (nx.has_node (graph self) key),
             (string_dec (token_key (Pool.token_a pool)) key),
             (string_dec (token_key (Pool.token_b pool)) key); reflexivity.
Qed.

Lemma find_routes_state adjust self token_in token_out amount :
  fst (find_routes adjust self token_in token_out amount) =
  fst (_k_shortest_paths self (token_key token_in) (token_key token_out) amount 5).
Proof.
  unfold find_routes.
  destruct (_k_shortest_paths self (token_key token_in) (token_key token_out) amount 5)
    as [self' [[|p ps]|e]]; reflexivity.
Qed.

Lemma consistent_find_routes adjust self token_in token_out amount :
  consistent self ->
  consistent (fst (find_routes adjust self token_in token_out amount)).
Proof.
  intros Hc key. rewrite find_routes_state.
  destruct (string_dec (token_key token_in) (token_key token_out)) as [Heq|Hne].
  - unfold _k_shortest_paths.
    destruct (string_dec (token_key token_in) (token_key token_out)); [|contradiction].
    apply Hc.
  - rewrite k_shortest_paths_state by assumption. cbn [graph tokens].
    rewrite prepare_graph_has_node. apply Hc.
Qed.

Lemma simple_paths_sound fuel g visited u target p :
  In p (nx.simple_paths fuel g visited u target) -> has_path g u target.
Proof.
  revert visited u p.
  induction fuel as [|n IH]; intros visited u p Hin; cbn [nx.simple_paths] in Hin;
    [contradiction|].
  destruct (string_dec u target) as [->|Hne]; [constructor|].
  apply in_flat_map in Hin. destruct Hin as [[v dv] [Hnb Hin]].
  destruct (in_dec string_dec v (u :: visited)); [contradiction|].
  apply in_map_iff in Hin. destruct Hin as [p' [_ Hp']].
  destruct (omem_true_get _ _ (in_omem _ _ _ Hnb)) as [d Hd].
  eapply path_step; [exact Hd|]. eapply IH; exact Hp'.
Qed.

Lemma has_path_before_prepare amount g g' u v :
  prepare_graph amount g = (g', Ok tt) -> has_path g' u v -> has_path g u v.
Proof.
  intros Hprep Hpath. induction Hpath as [u|u v w d Hd _ IH]; [constructor|].
  pose proof (prepare_graph_lookup amount g g' u v Hprep) as Hl.
  destruct (nx.get_edge_data g u v) as [d0|] eqn:Hd0; [|congruence].
  now apply (path_step g u v w d0).
Qed.

Lemma shortest_simple_paths_missing g source target wt :
  nx.has_node g source = false \/ nx.has_node g target = false ->
  nx.shortest_simple_paths g source target wt = Raise NodeNotFound.
Proof.
  unfold nx.shortest_simple_paths. intros [->| ->]; [reflexivity|].
  now destruct (nx.has_node g source).
Qed.

Lemma shortest_simple_paths_no_path g source target wt :
  nx.has_node g source = true -> nx.has_node g target = true ->
  ~ has_path g source target ->
  nx.shortest_simple_paths g source target wt = Raise NetworkXNoPath.
Proof.
  unfold nx.shortest_simple_paths. intros -> -> Hno. cbn [negb].
  destruct (nx.simple_paths (List.length g) g [] source target) as [|p ps] eqn:Hps;
    [reflexivity|].
  exfalso. apply Hno. apply (simple_paths_sound (List.length g) g [] source target p).
  rewrite Hps. now left.
Qed.

(** C4 (as amended).  On a router whose registry and graph agree:
    [find_routes] returns the empty list, and changes nothing, whenever the
    two endpoints have the same key, known or not; it fails whenever the
    keys differ and an endpoint is absent from the registry, with the graph
    library's [NodeNotFound] unless the preparation loop raised first; and
    it returns the empty list whenever the keys differ, both endpoints are
    known, no path joins them and the preparation loop raises nothing. *)
Theorem find_routes_endpoints
    (adjust : list SwapRoute.t -> result (list SwapRoute.t))
    (self : OptimizedRouter.t) (token_in token_out : Token.t) (amount : Z) :
  consistent self ->
  (token_key token_in = token_key token_out ->
     find_routes adjust self token_in token_out amount = (self, Ok [])) /\
  (token_key token_in <> token_key token_out ->
     omem (token_key token_in) (tokens self) = false \/
     omem (token_key token_out) (tokens self) = false ->
     exists e,
       snd (find_routes adjust self token_in token_out amount) = Raise e /\
       (snd (prepare_graph amount (graph self)) = Ok tt -> e = NodeNotFound)) /\
  (token_key token_in <> token_key token_out ->
     omem (token_key token_in) (tokens self) = true ->
     omem (token_key token_out) (tokens self) = true ->
     ~ has_path (graph self) (token_key token_in) (token_key token_out) ->
     snd (prepare_graph amount (graph self)) = Ok tt ->
     snd (find_routes adjust self token_in token_out amount) = Ok []).
Proof.
  intros Hc. repeat split.
  - intros Heq. unfold find_routes, _k_shortest_paths.
    destruct (string_dec (token_key token_in) (token_key token_out)); [|contradiction].
    reflexivity.
  - intros Hne Hmiss. rewrite !Hc in Hmiss.
    unfold find_routes, _k_shortest_paths.
    destruct (string_dec (token_key token_in) (token_key token_out)); [contradiction|].
    pose proof (prepare_graph_has_node amount (graph self)) as Hn.
    destruct (prepare_graph amount (graph self)) as [g [[]|e]]; cbn [fst snd] in *.
    + rewrite shortest_simple_paths_missing by (now rewrite !Hn).
      exists NodeNotFound. split; reflexivity.
    + exists e. split; [reflexivity|discriminate].
  - intros Hne Hin Hout Hno Hprep. rewrite Hc in Hin, Hout.
    unfold find_routes, _k_shortest_paths.
    destruct (string_dec (token_key token_in) (token_key token_out)); [contradiction|].
    pose proof (prepare_graph_has_node amount (graph self)) as Hn.
    destruct (prepare_graph amount (graph self)) as [g [[]|e]] eqn:Hg;
      cbn [fst snd] in *; [|discriminate].
    rewrite shortest_simple_paths_no_path; [reflexivity| | |].
    + now rewrite Hn.
    + now rewrite Hn.
    + intros Hpath. apply Hno. eapply has_path_before_prepare; eassumption.
Qed.

Lemma find_routes_endpoints_witness :
  consistent main_router /\
  find_routes Ok main_router eth eth (10 ^ 18) = (main_router, Ok []) /\
  snd (find_routes Ok main_router eth tA (10 ^ 18)) = Raise NodeNotFound.
Proof.
  assert (Hc : consistent main_router)
    by (apply consistent_add_pool, consistent_add_pool, consistent_init).
  destruct (find_routes_endpoints Ok main_router eth eth (10 ^ 18) Hc) as [Hsame _].
  destruct (find_routes_endpoints Ok main_router eth tA (10 ^ 18) Hc) as [_ [Hmiss _]].
  split; [exact Hc|]. split; [now apply Hsame|].
  destruct Hmiss as [e [He Hnf]].
  - vm_compute. discriminate.
  - right. vm_compute. reflexivity.
  - rewrite He, Hnf; [reflexivity|vm_compute; reflexivity].
Defined.

(** C4 fails as stated: on the empty router no token is registered, yet a
    query from a token to itself returns the empty list instead of
    failing. *)
Lemma unknown_same_token_returns_empty :
  omem (token_key tA) (tokens init) = false /\
  snd (find_routes (PricePredictor.adjust (fun _ => f0_5)) init tA tA 1) = Ok [].
Proof. split; reflexivity. Qed.

(** ** Ranking of the returned routes *)

Lemma string_of_uint_digits d : all_digits (NilEmpty.string_of_uint d) = true.
Proof. induction d; cbn [NilEmpty.string_of_uint all_digits]; try rewrite IHd; reflexivity. Qed.

Lemma digit_not_space c : is_digit c = true -> is_space c = false.
Proof.
  unfold is_digit, is_space. intros H.
  apply andb_true_iff in H as [H1 H2].
  apply Nat.leb_le in H1.
  apply Nat.leb_le in H2.
  destruct (Nat.leb_spec 9 (nat_of_ascii c)); destruct (Nat.leb_spec (nat_of_ascii c) 13);
    destruct (Nat.eqb_spec (nat_of_ascii c) 32);
    destruct (Nat.eqb_spec (nat_of_ascii c) 133);
    destruct (Nat.eqb_spec (nat_of_ascii c) 160); cbn; try reflexivity; lia.
Qed.

Lemma rstrip_digits s : all_digits s = true -> rstrip s = s.
Proof.
  induction s as [|c r IH]; [reflexivity|].
  cbn [all_digits rstrip]. intros H. apply andb_true_iff in H as [Hc Hr].
  rewrite (IH Hr). destruct r; [|reflexivity].
  now rewrite (digit_not_space _ Hc).
Qed.

Lemma rstrip_cons_digits a s :
  all_digits s = true -> s <> EmptyString -> rstrip (String a s) = String a s.
Proof.
  intros H Hne.
  change (rstrip (String a s)) with
    (match rstrip s with
     | EmptyString => if is_space a then EmptyString else String a EmptyString
     | r' => String a r'
     end).
  rewrite (rstrip_digits _ H). destruct s; [congruence|reflexivity].
Qed.

Lemma digit_run_digits s : all_digits s = true -> digit_run s = Some s.
Proof.
  induction s as [|c r IH]; [reflexivity|].
  cbn [all_digits digit_run]. intros H. apply andb_true_iff in H as [Hc Hr].
  now rewrite Hc, (IH Hr).
Qed.

Lemma int_digits s :
  all_digits s = true -> s <> EmptyString ->
  int s = match NilEmpty.uint_of_string s with
          | Some u => Ok (Z.of_uint u) | None => Raise ValueError end /\
  int (String "-" s) = match NilEmpty.uint_of_string s with
          | Some u => Ok (- Z.of_uint u) | None => Raise ValueError end.
Proof.
  intros H Hne. destruct s as [|c r]; [congruence|].
  pose proof H as H0. cbn [all_digits] in H0. apply andb_true_iff in H0 as [Hc Hr].
  assert (Hm : Ascii.eqb c "-" = false /\ Ascii.eqb c "+" = false).
  { split; apply Ascii.eqb_neq; intros ->; discriminate Hc. }
  destruct Hm as [Hm Hp].
  split.
  - unfold int. cbn [lstrip]. rewrite (digit_not_space _ Hc), (rstrip_digits _ H).
    rewrite Hm, Hp. cbn [digits_of]. rewrite Hc, (digit_run_digits _ Hr). reflexivity.
  - unfold int.
    change (lstrip (String "-" (String c r))) with (String "-" (String c r)).
    rewrite (rstrip_cons_digits _ _ H) by congruence.
    change (Ascii.eqb "-" "-") with true.
    cbn [digits_of]. rewrite Hc, (digit_run_digits _ Hr). reflexivity.
Qed.

Lemma string_of_uint_nonempty d : d <> Decimal.Nil -> NilEmpty.string_of_uint d <> EmptyString.
Proof. destruct d; cbn; congruence. Qed.

Lemma string_of_uint_nonnil d :
  d <> Decimal.Nil -> NilZero.string_of_uint d = NilEmpty.string_of_uint d.
Proof. destruct d; [congruence|reflexivity..]. Qed.

Lemma int_str n : int (str n) = Ok n.
Proof.
  unfold str. destruct n as [|p|p].
  - reflexivity.
  - cbn [Z.to_int NilZero.string_of_int].
    pose proof (DecimalPos.Unsigned.to_uint_nonnil p) as Hnn.
    rewrite (string_of_uint_nonnil _ Hnn).
    rewrite (proj1 (int_digits _ (string_of_uint_digits _)
                      (string_of_uint_nonempty _ Hnn))), NilEmpty.usu.
    f_equal. apply (DecimalZ.of_to (Z.pos p)).
  - cbn [Z.to_int NilZero.string_of_int].
    pose proof (DecimalPos.Unsigned.to_uint_nonnil p) as Hnn.
    rewrite (string_of_uint_nonnil _ Hnn).
    rewrite (proj2 (int_digits _ (string_of_uint_digits _)
                      (string_of_uint_nonempty _ Hnn))), NilEmpty.usu.
    f_equal. apply (DecimalZ.of_to (Z.neg p)).
Qed.

Lemma mapM_length {A B} (f : A -> result B) l l' :
  mapM f l = Ok l' -> List.length l' = List.length l.
Proof.
  revert l'. induction l as [|x r IH]; intros l'; cbn.
  - now intros [= <-].
  - destruct (f x) as [y|e]; cbn; [|discriminate].
    destruct (mapM f r) as [ys|e]; cbn; [|discriminate].
    intros [= <-]. cbn. now rewrite (IH ys).
Qed.

Lemma insert_desc_perm x l : Permutation (PricePredictor.insert_desc x l) (x :: l).
Proof.
  induction l as [|y r IH]; cbn; [reflexivity|].
  destruct (fst x <? fst y); [|reflexivity].
  rewrite IH. apply perm_swap.
Qed.

Lemma sort_desc_perm l : Permutation (PricePredictor.sort_desc l) l.
Proof.
  induction l as [|x r IH]; cbn; [reflexivity|].
  rewrite insert_desc_perm. now constructor.
Qed.

Lemma insert_desc_sorted x l :
  StronglySorted Z.ge (map fst l) ->
  StronglySorted Z.ge (map fst (PricePredictor.insert_desc x l)).
Proof.
  induction l as [|y r IH]; cbn; intros Hs.
  - repeat constructor.
  - destruct (fst x <? fst y) eqn:Hlt; cbn.
    + inversion Hs as [|? ? Hr Hall]; subst. constructor; [now apply IH|].
      apply Z.ltb_lt in Hlt.
      rewrite Forall_forall in *. intros k Hk.
      apply in_map_iff in Hk. destruct Hk as [kp [<- Hin]].
      apply (Permutation_in _ (insert_desc_perm x r)) in Hin.
      destruct Hin as [<-|Hin]; [lia|].
      apply Hall. now apply in_map.
    + apply Z.ltb_ge in Hlt. constructor; [exact Hs|].
      inversion Hs as [|? ? Hr Hall]; subst.
      constructor; [lia|].
      rewrite Forall_forall in *. intros k Hk. specialize (Hall k Hk). lia.
Qed.

Lemma sort_desc_sorted l : StronglySorted Z.ge (map fst (PricePredictor.sort_desc l)).
Proof.
  induction l as [|x r IH]; cbn; [constructor|]. now apply insert_desc_sorted.
Qed.

(** Stability: among the entries of one key, the order is unchanged. *)
Lemma insert_desc_stable z x l :
  filter (fun kp : Z * SwapRoute.t => fst kp =? z) (PricePredictor.insert_desc x l) =
  filter (fun kp : Z * SwapRoute.t => fst kp =? z) (x :: l).
Proof.
  induction l as [|y r IH]; [reflexivity|].
  cbn [PricePredictor.insert_desc].
  destruct (fst x <? fst y) eqn:Hlt; [|reflexivity].
  apply Z.ltb_lt in Hlt.
  cbn [filter] in *. rewrite IH.
  destruct (fst x =? z) eqn:Hx, (fst y =? z) eqn:Hy; try reflexivity.
  apply Z.eqb_eq in Hx, Hy. lia.
Qed.

Lemma sort_desc_stable z l :
  filter (fun kp : Z * SwapRoute.t => fst kp =? z) (PricePredictor.sort_desc l) =
  filter (fun kp : Z * SwapRoute.t => fst kp =? z) l.
Proof.
  induction l as [|x r IH]; [reflexivity|].
  cbn [PricePredictor.sort_desc fold_right].
  fold (PricePredictor.sort_desc r).
  rewrite insert_desc_stable. cbn [filter]. now rewrite IH.
Qed.

Lemma mapM_keyed l keyed :
  mapM (fun p => key <- int (SwapRoute.expected_amount_out p) ;; Ok (key, p)) l = Ok keyed ->
  Forall keyed_ok keyed /\ map snd keyed = l.
Proof.
  revert keyed. induction l as [|x r IH]; intros keyed; cbn.
  - intros [= <-]. now split.
  - destruct (int (SwapRoute.expected_amount_out x)) as [k|e] eqn:Hk; cbn; [|discriminate].
    destruct (mapM _ r) as [ks|e]; cbn; [|discriminate].
    intros [= <-]. destruct (IH ks eq_refl) as [Hall Hsnd].
    split; [constructor; [exact Hk|exact Hall]|cbn; now rewrite Hsnd].
Qed.

Lemma keyed_amounts l :
  Forall keyed_ok l -> mapM amount_out (map snd l) = Ok (map fst l).
Proof.
  induction 1 as [|kp r Hkp _ IH]; [reflexivity|].
  cbn. unfold keyed_ok in Hkp. rewrite Hkp. cbn. now rewrite IH.
Qed.

Lemma keyed_filter z l :
  Forall keyed_ok l ->
  filter (amount_out_is z) (map snd l) =
  map snd (filter (fun kp : Z * SwapRoute.t => fst kp =? z) l).
Proof.
  induction 1 as [|kp r Hkp _ IH]; [reflexivity|].
  cbn. unfold amount_out_is at 1. unfold keyed_ok in Hkp. rewrite Hkp.
  destruct (fst kp =? z); cbn; now rewrite IH.
Qed.

Lemma sorted_by_amount_spec l rs :
  PricePredictor.sorted_by_amount l = Ok rs ->
  ranked_by_amount rs /\ Permutation rs l /\
  forall z, filter (amount_out_is z) rs = filter (amount_out_is z) l.
Proof.
  unfold PricePredictor.sorted_by_amount.
  destruct (mapM _ l) as [keyed|e] eqn:Hkeyed; cbn; [|discriminate].
  intros [= <-]. destruct (mapM_keyed _ _ Hkeyed) as [Hall Hsnd].
  assert (Hall' : Forall keyed_ok (PricePredictor.sort_desc keyed)).
  { rewrite Forall_forall in *. intros kp Hin. apply Hall.
    now apply (Permutation_in _ (sort_desc_perm keyed)). }
  repeat split.
  - exists (map fst (PricePredictor.sort_desc keyed)).
    split; [now apply keyed_amounts|apply sort_desc_sorted].
  - rewrite <- Hsnd. apply Permutation_map, sort_desc_perm.
  - intros z. rewrite <- Hsnd, !keyed_filter by assumption.
    now rewrite sort_desc_stable.
Qed.

Ltac bind_inv H :=
  match type of H with
  | bind ?c _ = Ok _ =>
      let x := fresh "x" in
      let E := fresh "E" in
      destruct c as [x|?] eqn:E; [cbn [bind] in H|discriminate H]
  end.

Lemma mapM_Forall2 {A B} (f : A -> result B) l l' :
  mapM f l = Ok l' -> Forall2 (fun x y => f x = Ok y) l l'.
Proof.
  revert l'. induction l as [|x r IH]; intros l' Hm; cbn [mapM] in Hm.
  - injection Hm as <-. constructor.
  - bind_inv Hm. bind_inv Hm. injection Hm as <-.
    constructor; [assumption|now apply IH].
Qed.

Lemma adjust_inv random routes rs :
  PricePredictor.adjust random routes = Ok rs ->
  exists adjusted,
    PricePredictor.adjust_loop random 0 routes = Ok adjusted /\
    PricePredictor.sorted_by_amount adjusted = Ok rs.
Proof.
  unfold PricePredictor.adjust. destruct routes as [|r rest].
  - intros [= <-]. now exists [].
  - intros Ha. bind_inv Ha. now exists x.
Qed.

Lemma adjust_loop_steps random i routes adjusted :
  PricePredictor.adjust_loop random i routes = Ok adjusted ->
  map SwapRoute.steps adjusted = map SwapRoute.steps routes.
Proof.
  revert i adjusted. induction routes as [|r rest IH]; intros i adjusted Ha;
    cbn [PricePredictor.adjust_loop] in Ha.
  - now injection Ha as <-.
  - do 4 bind_inv Ha. injection Ha as <-.
    cbn [map]. f_equal. eapply IH; eassumption.
Qed.

Lemma find_routes_ok_inv random self token_in token_out amount rs :
  snd (find_routes (PricePredictor.adjust random) self token_in token_out amount) = Ok rs ->
  exists paths routes,
    snd (_k_shortest_paths self (token_key token_in) (token_key token_out) amount 5) =
      Ok paths /\
    mapM (fun path =>
            _path_to_swap_route
              (fst (_k_shortest_paths self (token_key token_in) (token_key token_out)
                      amount 5)) path amount) paths = Ok routes /\
    PricePredictor.adjust random routes = Ok rs.
Proof.
  unfold find_routes.
  destruct (_k_shortest_paths self (token_key token_in) (token_key token_out) amount 5)
    as [self' [[|p ps]|e]]; cbn [fst snd]; intros Hr.
  - injection Hr as <-. exists [], []. repeat split.
  - bind_inv Hr. exists (p :: ps), x. repeat split; assumption.
  - discriminate Hr.
Qed.

(** C6 (as amended).  The list returned by [find_routes] with the default
    predictor is sorted by [expected_amount_out] descending, and that is
    the whole ordering: routes of equal expected output stay in the order
    the predictor received them, the order of the candidate paths; neither
    [risk_score] nor [gas_estimate] is looked at. *)
Theorem find_routes_ranking (random : nat -> float) (self : OptimizedRouter.t)
    (token_in token_out : Token.t) (amount : Z) (rs : list SwapRoute.t) :
  snd (find_routes (PricePredictor.adjust random) self token_in token_out amount) = Ok rs ->
  ranked_by_amount rs /\
  exists paths routes adjusted,
    snd (_k_shortest_paths self (token_key token_in) (token_key token_out) amount 5) =
      Ok paths /\
    mapM (fun path =>
            _path_to_swap_route
              (fst (_k_shortest_paths self (token_key token_in) (token_key token_out)
                      amount 5)) path amount) paths = Ok routes /\
    PricePredictor.adjust_loop random 0 routes = Ok adjusted /\
    forall z, filter (amount_out_is z) rs = filter (amount_out_is z) adjusted.
Proof.
  intros Hr.
  destruct (find_routes_ok_inv _ _ _ _ _ _ Hr) as [paths [routes [Hp [Hroutes Hadj]]]].
  destruct (adjust_inv _ _ _ Hadj) as [adjusted [Hloop Hsort]].
  destruct (sorted_by_amount_spec _ _ Hsort) as [Hranked [_ Hstable]].
  split; [exact Hranked|].
  exists paths, routes, adjusted. repeat split; assumption.
Qed.

Lemma find_routes_ranking_witness :
  (exists rs adjusted,
     snd (find_routes
            (PricePredictor.adjust (fun i => match i with O => f0 | _ => f0_5 end))
            rank_router tA tB 100) = Ok rs /\
     map SwapRoute.expected_amount_out adjusted = ["99"; "100"] /\
     map SwapRoute.expected_amount_out rs = ["100"; "99"] /\
     ranked_by_amount rs /\
     forall z, filter (amount_out_is z) rs = filter (amount_out_is z) adjusted) /\
  (exists rs adjusted,
     snd (find_routes (PricePredictor.adjust (fun _ => f0_5)) rank_router tA tB 100) =
       Ok rs /\
     map SwapRoute.expected_amount_out adjusted = ["100"; "100"] /\
     ranked_by_amount rs /\
     filter (amount_out_is 100) rs = adjusted).
Proof.
  split.
  - destruct (snd (find_routes
                     (PricePredictor.adjust (fun i => match i with O => f0 | _ => f0_5 end))
                     rank_router tA tB 100)) as [rs|e] eqn:Hr;
      [|vm_compute in Hr; discriminate Hr].
    destruct (find_routes_ranking _ rank_router tA tB 100 rs Hr)
      as [Hranked [paths [routes [adjusted [Hp [Hroutes [Hloop Hstable]]]]]]].
    exists rs, adjusted. split; [reflexivity|].
    vm_compute in Hp. injection Hp as <-.
    vm_compute in Hroutes. injection Hroutes as <-.
    vm_compute in Hloop. injection Hloop as <-.
    split; [reflexivity|].
    split; [vm_compute in Hr; injection Hr as <-; reflexivity|].
    split; [exact Hranked|exact Hstable].
  - destruct (snd (find_routes (PricePredictor.adjust (fun _ => f0_5)) rank_router tA tB 100))
      as [rs|e] eqn:Hr; [|vm_compute in Hr; discriminate Hr].
    destruct (find_routes_ranking _ rank_router tA tB 100 rs Hr)
      as [Hranked [paths [routes [adjusted [Hp [Hroutes [Hloop Hstable]]]]]]].
    exists rs, adjusted. split; [reflexivity|].
    vm_compute in Hp. injection Hp as <-.
    vm_compute in Hroutes. injection Hroutes as <-.
    vm_compute in Hloop. injection Hloop as <-.
    split; [reflexivity|]. split; [exact Hranked|].
    rewrite (Hstable 100). vm_compute. reflexivity.
Defined.

(** C6 fails as stated: two routes with the same expected output come back
    with the route of risk score 3 ahead of the route of risk score 1. *)
Lemma higher_risk_route_first :
  exists r3 r1,
    snd (find_routes (PricePredictor.adjust (fun _ => f0_5)) rank_router tA tB 100) =
      Ok [r3; r1] /\
    SwapRoute.expected_amount_out r3 = "100" /\
    SwapRoute.expected_amount_out r1 = "100" /\
    SwapRoute.risk_score r3 = 3 /\ SwapRoute.risk_score r1 = 1 /\
    ~ spec_before r3 r1.
Proof.
  do 2 eexists. split; [vm_compute; reflexivity|].
  repeat split.
  intros [k1 [k2 [H1 [H2 Hord]]]].
  vm_compute in H1, H2. injection H1 as <-. injection H2 as <-.
  cbn in Hord. lia.
Qed.

(** ** Route simulation *)

Lemma route_loop_length self path steps cur exs steps' cur' exs' :
  route_loop self path steps cur exs = Ok (steps', cur', exs') ->
  List.length steps' = (List.length steps + List.length path)%nat.
Proof.
  revert steps cur exs.
  induction path as [|[[u v] data] rest IH]; intros steps cur exs Hl;
    cbn [route_loop] in Hl.
  - injection Hl as <- _ _. cbn. lia.
  - do 5 bind_inv Hl. apply IH in Hl. rewrite Hl, length_app. cbn. lia.
Qed.

Lemma path_to_swap_route_steps self path amount r :
  _path_to_swap_route self path amount = Ok r ->
  List.length (SwapRoute.steps r) = List.length path.
Proof.
  unfold _path_to_swap_route. intros Hr. bind_inv Hr.
  destruct x as [[steps cur] exs]. bind_inv Hr. injection Hr as <-.
  cbn [SwapRoute.steps]. now rewrite (route_loop_length _ _ _ _ _ _ _ _ E).
Qed.

(** C2 (as amended).  No route is aborted or dropped during simulation: a
    hop entered with amount 0 is simulated like any other hop.  Whenever
    [find_routes] returns, it returns one route per candidate path of the
    search, the routes being those of the candidate paths up to order, and
    every route has one step per hop of its path. *)
Theorem find_routes_drops_no_route (random : nat -> float)
    (self : OptimizedRouter.t) (token_in token_out : Token.t) (amount : Z)
    (rs : list SwapRoute.t) :
  snd (find_routes (PricePredictor.adjust random) self token_in token_out amount) = Ok rs ->
  exists paths routes,
    snd (_k_shortest_paths self (token_key token_in) (token_key token_out) amount 5) =
      Ok paths /\
    List.length rs = List.length paths /\
    Permutation (map SwapRoute.steps rs) (map SwapRoute.steps routes) /\
    Forall2 (fun path r => List.length (SwapRoute.steps r) = List.length path) paths routes.
Proof.
  intros Hr.
  destruct (find_routes_ok_inv _ _ _ _ _ _ Hr) as [paths [routes [Hp [Hroutes Hadj]]]].
  destruct (adjust_inv _ _ _ Hadj) as [adjusted [Hloop Hsort]].
  destruct (sorted_by_amount_spec _ _ Hsort) as [_ [Hperm _]].
  pose proof (adjust_loop_steps _ _ _ _ Hloop) as Hsteps.
  exists paths, routes. split; [exact Hp|]. split; [|split].
  - rewrite (Permutation_length Hperm).
    rewrite <- (length_map SwapRoute.steps adjusted), Hsteps, length_map.
    now apply mapM_length in Hroutes.
  - rewrite <- Hsteps. now apply Permutation_map.
  - apply mapM_Forall2 in Hroutes.
    eapply Forall2_impl; [|exact Hroutes].
    intros path r Hpr. now apply path_to_swap_route_steps in Hpr.
Qed.

Lemma find_routes_drops_no_route_witness :
  exists rs paths,
    snd (find_routes (PricePredictor.adjust (fun _ => f0_5)) chain_router tA tC 1) = Ok rs /\
    snd (_k_shortest_paths chain_router (token_key tA) (token_key tC) 1 5) = Ok paths /\
    List.length rs = List.length paths.
Proof.
  destruct (snd (find_routes (PricePredictor.adjust (fun _ => f0_5)) chain_router tA tC 1))
    as [rs|e] eqn:Hr; [|vm_compute in Hr; discriminate Hr].
  destruct (find_routes_drops_no_route (fun _ => f0_5) chain_router tA tC 1 rs Hr)
    as [paths [routes [Hp [Hlen _]]]].
  exists rs, paths. repeat split; assumption.
Defined.

(** C2 fails as stated: with amount 1 the first hop of the only path from A
    to C yields 0, the second hop is entered with amount 0, and the route
    is returned all the same. *)
Lemma zero_hop_route_returned :
  exists r,
    snd (find_routes (PricePredictor.adjust (fun _ => f0_5)) chain_router tA tC 1) = Ok [r] /\
    has_zero_hop r = true /\
    SwapRoute.expected_amount_out r = "0".
Proof. eexists. split; [vm_compute; reflexivity|]. split; reflexivity. Qed.

Lemma route_loop_fee_blind self fee path steps steps' cur exs :
  map step_view steps' = map step_view steps ->
  result_map loop_view (route_loop self (map (refee fee) path) steps' cur exs) =
  result_map loop_view (route_loop self path steps cur exs).
Proof.
  revert steps steps' cur exs.
  induction path as [|[[u v] data] rest IH]; intros steps steps' cur exs Hv.
  - cbn. now rewrite Hv.
  - cbn [map refee route_loop].
    destruct (oget u (tokens self)) as [tin|]; cbn [bind result_map]; [|reflexivity].
    destruct (oget v (tokens self)) as [tout|]; cbn [bind result_map]; [|reflexivity].
    change (hop_output (with_fee (fee (u, v, data)) data) cur) with (hop_output data cur).
    destruct (hop_output data cur) as [out|]; cbn [bind result_map]; [|reflexivity].
    destruct (int_mul_float out (sub f1 f0_005)) as [buffered|];
      cbn [bind result_map]; [|reflexivity].
    destruct (to_int buffered) as [min_output|]; cbn [bind result_map]; [|reflexivity].
    apply IH. rewrite !map_app. now rewrite Hv.
Qed.

Lemma price_impact_sum_fee_blind fee path acc :
  fold_left
    (fun acc '(_, _, data) =>
       add acc (match Edge.price_impact data with Some x => x | None => f0 end))
    (map (refee fee) path) acc =
  fold_left
    (fun acc '(_, _, data) =>
       add acc (match Edge.price_impact data with Some x => x | None => f0 end))
    path acc.
Proof.
  revert acc. induction path as [|[[u v] data] rest IH]; intros acc; [reflexivity|].
  cbn [map fold_left refee]. apply IH.
Qed.

Lemma risk_score_fee_blind fee path :
  _calculate_risk_score (map (refee fee) path) = _calculate_risk_score path.
Proof.
  unfold _calculate_risk_score. rewrite length_map, !map_map.
  rewrite (map_ext (fun x => let '(_, _, data) := refee fee x in Edge.liquidity data)
                   (fun '(_, _, data) => Edge.liquidity data))
    by (now intros [[u v] data]).
  rewrite (map_ext (fun x => let '(_, _, data) := refee fee x in Edge.exchange data)
                   (fun '(_, _, data) => Edge.exchange data))
    by (now intros [[u v] data]).
  reflexivity.
Qed.

Lemma path_to_swap_route_fee_blind self fee path amount :
  result_map route_view (_path_to_swap_route self (map (refee fee) path) amount) =
  result_map route_view (_path_to_swap_route self path amount).
Proof.
  unfold _path_to_swap_route.
  pose proof (route_loop_fee_blind self fee path [] [] amount [] eq_refl) as Hloop.
  rewrite price_impact_sum_fee_blind, risk_score_fee_blind, length_map.
  destruct (route_loop self (map (refee fee) path) [] amount [])
    as [[[steps1 cur1] exs1]|e1],
    (route_loop self path [] amount []) as [[[steps2 cur2] exs2]|e2];
    cbn [result_map loop_view] in Hloop; try discriminate Hloop.
  - injection Hloop as Hsteps -> ->. cbn [bind].
    destruct (_calculate_risk_score path) as [risk|e]; cbn [bind result_map]; [|reflexivity].
    unfold route_view. cbn [SwapRoute.steps SwapRoute.amount_in
      SwapRoute.expected_amount_out SwapRoute.price_impact SwapRoute.gas_estimate
      SwapRoute.risk_score]. now rewrite Hsteps.
  - injection Hloop as ->. reflexivity.
Qed.

Lemma hop_output_positive data current :
  0 < Edge.reserve_a data -> 0 < Edge.reserve_b data ->
  hop_output data current =
  constant_product_output (Edge.reserve_a data) (Edge.reserve_b data) current.
Proof.
  intros Ha Hb. unfold hop_output, constant_product_output.
  apply Z.ltb_lt in Ha, Hb. now rewrite Ha, Hb.
Qed.

Lemma route_loop_constant_product self path :
  Forall positive_reserves path ->
  forall steps cur exs steps' cur' exs',
    route_loop self path steps cur exs = Ok (steps', cur', exs') ->
    exists inputs,
      constant_product_amounts cur path = Ok (inputs, cur') /\
      map SwapStep.amount_in steps' = map SwapStep.amount_in steps ++ map str inputs.
Proof.
  induction 1 as [|[[u v] data] rest [Ha Hb] _ IH];
    intros steps cur exs steps' cur' exs' Hl; cbn [route_loop] in Hl.
  - injection Hl as <- <- <-. exists []. split; [reflexivity|].
    cbn [map]. now rewrite app_nil_r.
  - cbn [snd] in Ha, Hb. rewrite (hop_output_positive _ _ Ha Hb) in Hl.
    do 5 bind_inv Hl.
    destruct (IH _ _ _ _ _ _ Hl) as [inputs [Hc Hm]].
    exists (cur :: inputs). split.
    + cbn [constant_product_amounts]. rewrite E1. cbn [bind]. rewrite Hc. reflexivity.
    + rewrite Hm, map_app, <- app_assoc. reflexivity.
Qed.

(** C1 (as amended).  Route simulation applies no fee.  On a path whose
    hops have positive reserves, a route that is returned carries the
    amounts of the constant-product formula on each hop's whole input,
    [int(reserve_out - (reserve_in * reserve_out) / (reserve_in + current))]:
    the first step is entered with the requested amount, every further
    step with the output of the hop before it, and [expected_amount_out]
    is the output of the last hop.  The fee tier is only copied into the
    steps: with any other fee tiers on the hops the same route comes back,
    up to the [fee_tier] fields of its steps. *)
Theorem simulation_is_constant_product_without_fee (self : OptimizedRouter.t)
    (path : list Hop) (amount : Z) (fee : Hop -> float) (r : SwapRoute.t) :
  Forall positive_reserves path ->
  _path_to_swap_route self path amount = Ok r ->
  (exists inputs final,
     constant_product_amounts amount path = Ok (inputs, final) /\
     map SwapStep.amount_in (SwapRoute.steps r) = map str inputs /\
     SwapRoute.expected_amount_out r = str final) /\
  result_map route_view (_path_to_swap_route self (map (refee fee) path) amount) =
    Ok (route_view r).
Proof.
  intros Hpos Hr. split.
  - unfold _path_to_swap_route in Hr. bind_inv Hr.
    destruct x as [[steps cur] exs]. bind_inv Hr. injection Hr as <-.
    destruct (route_loop_constant_product _ _ Hpos _ _ _ _ _ _ E) as [inputs [Hc Hm]].
    exists inputs, cur. cbn [SwapRoute.steps SwapRoute.expected_amount_out].
    repeat split; assumption.
  - rewrite path_to_swap_route_fee_blind, Hr. reflexivity.
Qed.

Example fee_hop_stored :
  nx.get_edge_data (graph fee_router) (token_key tA) (token_key tB) = Some (snd fee_hop).
Proof. vm_compute. reflexivity. Qed.

Lemma simulation_is_constant_product_without_fee_witness :
  exists r,
    _path_to_swap_route fee_router [fee_hop] 100 = Ok r /\
    map SwapStep.amount_in (SwapRoute.steps r) = ["100"] /\
    SwapRoute.expected_amount_out r = "181" /\
    result_map route_view
      (_path_to_swap_route fee_router (map (refee (fun _ => f0)) [fee_hop]) 100) =
      Ok (route_view r).
Proof.
  destruct (_path_to_swap_route fee_router [fee_hop] 100) as [r|e] eqn:Hr;
    [|vm_compute in Hr; discriminate Hr].
  exists r. split; [reflexivity|].
  assert (Hpos : Forall positive_reserves [fee_hop]).
  { constructor; [|constructor]. split; reflexivity. }
  destruct (simulation_is_constant_product_without_fee fee_router [fee_hop] 100
              (fun _ => f0) r Hpos Hr) as [[inputs [final [Hc [Hin Hout]]]] Hfee].
  vm_compute in Hc. injection Hc as <- <-.
  split; [exact Hin|]. split; [exact Hout|exact Hfee].
Defined.

(** C1 fails as stated: on a pool with fee tier 0.3 and reserves 1000 and
    2000, an input of 100 yields 181, the constant-product output of the
    whole input; the fee-reduced input of the spec's formula yields 130. *)
Lemma fee_not_applied_in_simulation :
  exists path r,
    snd (_k_shortest_paths fee_router (token_key tA) (token_key tB) 100 5) = Ok [path] /\
    map (fun '(_, _, d) => (Edge.fee_tier d, Edge.reserve_a d, Edge.reserve_b d)) path =
      [(f0_3, 1000, 2000)] /\
    _path_to_swap_route
      (fst (_k_shortest_paths fee_router (token_key tA) (token_key tB) 100 5)) path 100 =
      Ok r /\
    SwapRoute.expected_amount_out r = "181" /\
    spec_hop_output (float_to_Q f0_3) 1000 2000 100 = 130.
Proof.
  do 2 eexists. split; [vm_compute; reflexivity|].
  split; [reflexivity|]. split; [vm_compute; reflexivity|].
  split; [reflexivity|vm_compute; reflexivity].
Qed.

(** ** The path enumeration finds every simple path *)

Lemma last_in (d x : string) (l : list string) : In (last (x :: l) d) (x :: l).
Proof.
  revert x. induction l as [|y r IH]; intros x; [now left|].
  right. apply (IH y).
Qed.

Lemma last_default (d d' x : string) (l : list string) :
  last (x :: l) d = last (x :: l) d'.
Proof.
  revert x. induction l as [|y r IH]; intros x; [reflexivity|]. apply (IH y).
Qed.

Lemma last_suffix (d x : string) (l1 l2 : list string) :
  last (l1 ++ x :: l2) d = last (x :: l2) d.
Proof.
  induction l1 as [|y r IH]; [reflexivity|].
  change ((y :: r) ++ x :: l2) with (y :: (r ++ x :: l2)).
  destruct (r ++ x :: l2) as [|z q] eqn:Hq; [now destruct r|].
  change (last (y :: z :: q) d) with (last (z :: q) d). exact IH.
Qed.

Lemma walk_suffix g l1 l2 : walk g (l1 ++ l2) -> walk g l2.
Proof.
  induction l1 as [|y r IH]; [trivial|].
  change ((y :: r) ++ l2) with (y :: (r ++ l2)).
  destruct (r ++ l2) as [|z q] eqn:Hq.
  - intros _. apply app_eq_nil in Hq. destruct Hq as [_ ->]. exact I.
  - intros [_ Hw]. now apply IH.
Qed.

Lemma simple_paths_complete_walk g t p :
  forall u fuel visited,
    walk g (u :: p) -> NoDup (u :: p) ->
    (forall x, In x (u :: p) -> ~ In x visited) ->
    last (u :: p) u = t ->
    (List.length (u :: p) <= fuel)%nat ->
    In (u :: p) (nx.simple_paths fuel g visited u t).
Proof.
  induction p as [|v r IH]; intros u fuel visited Hw Hnd Hvis Hlast Hlen;
    (destruct fuel as [|n]; [cbn in Hlen; lia|]); cbn [nx.simple_paths].
  - cbn in Hlast. subst t. destruct (string_dec u u); [now left|contradiction].
  - assert (Hut : u <> t).
    { intros ->. apply NoDup_cons_iff in Hnd. destruct Hnd as [Hnotin _].
      apply Hnotin. rewrite <- Hlast at 1. apply (last_in t v r). }
    destruct (string_dec u t); [contradiction|].
    destruct Hw as [Hedge Hw].
    destruct (nx.get_edge_data g u v) as [d|] eqn:Hd; [|contradiction].
    apply in_flat_map. exists (v, d). split; [now apply oget_in|].
    apply NoDup_cons_iff in Hnd. destruct Hnd as [Hnotin Hnd'].
    destruct (in_dec string_dec v (u :: visited)) as [[Huv|Hin]|_].
    + exfalso. apply Hnotin. left. now symmetry.
    + exfalso. apply (Hvis v); [right; now left|exact Hin].
    + apply in_map. apply IH; try assumption.
      * intros x Hx [Hxu|Hxv].
        -- subst x. now apply Hnotin.
        -- apply (Hvis x); [now right|exact Hxv].
      * rewrite <- Hlast. change (last (u :: v :: r) u) with (last (v :: r) u).
        apply last_default.
      * cbn in *. lia.
Qed.

Lemma has_path_simple g u t :
  has_path g u t ->
  exists p, walk g (u :: p) /\ NoDup (u :: p) /\ last (u :: p) u = t.
Proof.
  induction 1 as [u|u v w d Hd _ [p [Hw [Hnd Hlast]]]].
  - exists []. split; [exact I|].
    split; [constructor; [intros []|constructor]|reflexivity].
  - destruct (in_dec string_dec u (v :: p)) as [Hin|Hnotin].
    + apply in_split in Hin. destruct Hin as [l1 [l2 Heq]].
      exists l2. rewrite Heq in Hw, Hnd, Hlast. repeat split.
      * now apply walk_suffix in Hw.
      * now apply NoDup_app_remove_l in Hnd.
      * rewrite <- Hlast, last_suffix. apply last_default.
    + exists (v :: p). repeat split.
      * congruence.
      * exact Hw.
      * now constructor.
      * rewrite <- Hlast. change (last (u :: v :: p) u) with (last (v :: p) u).
        apply last_default.
Qed.

Lemma walk_nodes g t p :
  nx.has_node g t = true ->
  forall u, walk g (u :: p) -> last (u :: p) u = t ->
  forall x, In x (u :: p) -> In x (okeys g).
Proof.
  intros Ht. induction p as [|v r IH]; intros u Hw Hlast x Hx.
  - destruct Hx as [<-|[]]. cbn in Hlast. subst t.
    destruct (omem_true_get _ _ Ht) as [n Hn].
    apply oget_in in Hn. now apply (in_map fst) in Hn.
  - destruct Hw as [Hedge Hw]. destruct Hx as [<-|Hx].
    + unfold nx.get_edge_data, nx.neighbors in Hedge.
      destruct (oget u g) as [n|] eqn:Hn; [|now contradiction Hedge].
      apply oget_in in Hn. now apply (in_map fst) in Hn.
    + apply (IH v); try assumption.
      rewrite <- Hlast. change (last (u :: v :: r) u) with (last (v :: r) u).
      apply last_default.
Qed.

(** Whenever a path joins [source] to a node [target] of the graph, the
    enumeration bounded by the number of nodes is not empty: the library
    model raises [NetworkXNoPath] only when there is no path. *)
Lemma simple_paths_complete g source target :
  nx.has_node g target = true ->
  has_path g source target ->
  nx.simple_paths (List.length g) g [] source target <> [].
Proof.
  intros Ht Hpath.
  destruct (has_path_simple _ _ _ Hpath) as [p [Hw [Hnd Hlast]]].
  assert (Hin : In (source :: p) (nx.simple_paths (List.length g) g [] source target)).
  { apply simple_paths_complete_walk; try assumption.
    - intros x _ [].
    - rewrite <- (length_map fst g).
      apply NoDup_incl_length; [exact Hnd|].
      intros x Hx. now apply (walk_nodes g target p Ht source). }
  intros Hnil. now rewrite Hnil in Hin.
Qed.

(* ================================================================== *)
(** * Further properties of the cost model *)

Lemma exchange_costs_range name : -10000 <= exchange_costs name <= 15000.
Proof.
  unfold exchange_costs.
  repeat match goal with |- context [string_dec ?a ?b] => destruct (string_dec a b) end;
    lia.
Qed.

Lemma gas_fold_range exs start :
  start - 10000 * Z.of_nat (List.length exs)
  <= fold_left (fun total_cost exchange => total_cost + exchange_costs (lower exchange))
       exs start
  <= start + 15000 * Z.of_nat (List.length exs).
Proof.
  revert start. induction exs as [|ex r IH]; intros start.
  - cbn. lia.
  - cbn [fold_left List.length].
    pose proof (IH (start + exchange_costs (lower ex))) as Hr.
    pose proof (exchange_costs_range (lower ex)) as Hc.
    lia.
Qed.

(** X1.  The gas estimate of [path_length] hops over the exchanges [exs] is
    the base cost plus 70000 per further hop, moved by at most -10000 (curve)
    and +15000 (balancer) per exchange; for a route of [n >= 1] hops with
    one exchange per hop it lies between [30000 + 60000 n] and
    [30000 + 85000 n], so it is positive. *)
Theorem gas_cost_bounds (path_length : Z) (exchanges : list string) :
  let n := Z.of_nat (List.length exchanges) in
  100000 + (path_length - 1) * 70000 - 10000 * n
  <= _calculate_gas_cost path_length exchanges
  <= 100000 + (path_length - 1) * 70000 + 15000 * n.
Proof. unfold _calculate_gas_cost. apply gas_fold_range. Qed.

Lemma risk_score_shape (path : list Hop) :
  match path with
  | [] => _calculate_risk_score path = Raise ValueError
  | _ :: _ =>
      exists r,
        _calculate_risk_score path = Ok r /\
        1 <= r <= 5 /\
        Z.min 4 (Z.of_nat (List.length path)) <= r
  end.
Proof.
  destruct path as [|h rest]; [reflexivity|].
  unfold _calculate_risk_score.
  set (hops := Z.of_nat (List.length (h :: rest))).
  assert (Hhops : 1 <= hops) by (unfold hops; cbn [List.length]; lia).
  cbn [map min_floats bind].
  set (liq := if ltb _ f1e5 then 2 else if ltb _ f1e6 then 1 else 0).
  assert (Hliq : 0 <= liq <= 2)
    by (unfold liq; repeat match goal with |- context [if ?c then _ else _] =>
                                  destruct c end; lia).
  set (high := Z.of_nat (List.length (filter _ _))).
  assert (Hhigh : 0 <= high) by (unfold high; lia).
  eexists. split; [reflexivity|].
  destruct (hops =? 1) eqn:H1; [apply Z.eqb_eq in H1; lia|].
  destruct (hops =? 2) eqn:H2; [apply Z.eqb_eq in H2; lia|].
  destruct (hops =? 3) eqn:H3; [apply Z.eqb_eq in H3; lia|].
  apply Z.eqb_neq in H1, H2, H3. lia.
Qed.

(** X2.  The risk score of a path with at least one hop is an integer from 1
    to 5, and never below the hop count capped at 4; on the empty path the
    builtin [min] raises [ValueError]. *)
Theorem risk_score_range (path : list Hop) :
  match path with
  | [] => _calculate_risk_score path = Raise ValueError
  | _ :: _ =>
      exists r,
        _calculate_risk_score path = Ok r /\
        1 <= r <= 5 /\
        Z.min 4 (Z.of_nat (List.length path)) <= r
  end.
Proof. exact (risk_score_shape path). Qed.

Lemma ltb_leb x y : SFltb x y = true -> SFleb x y = true.
Proof.
  unfold SFltb, SFleb. destruct (SFcompare x y) as [[]|]; congruence.
Qed.

Lemma clamp_in_unit_interval x : in_unit_interval (max2 f0 (min2 f1 x)).
Proof.
  unfold max2, min2, ltb, in_unit_interval.
  destruct (SFltb x f1) eqn:H1.
  - destruct (SFltb f0 x) eqn:H2.
    + split; now apply ltb_leb.
    + split; reflexivity.
  - split; reflexivity.
Qed.

(** X3.  Whenever [_calculate_price_impact] returns, its value lies between
    0.0 and 1.0: the clamp also absorbs a NaN, which becomes 1.0. *)
Theorem price_impact_in_unit_interval (amount reserve_in reserve_out : Z)
    (impact : float) :
  _calculate_price_impact amount reserve_in reserve_out = Ok impact ->
  in_unit_interval impact.
Proof.
  unfold _calculate_price_impact.
  destruct ((amount <=? 0) || (reserve_in <=? 0) || (reserve_out <=? 0)).
  - intros [= <-]. split; reflexivity.
  - intros Hi. do 5 bind_inv Hi. injection Hi as <-.
    apply clamp_in_unit_interval.
Qed.

Lemma price_impact_in_unit_interval_witness :
  exists impact,
    _calculate_price_impact (10 ^ 18) (1000 * 10 ^ 18) (2000000 * 10 ^ 6) = Ok impact /\
    in_unit_interval impact.
Proof.
  destruct (_calculate_price_impact (10 ^ 18) (1000 * 10 ^ 18) (2000000 * 10 ^ 6))
    as [impact|e] eqn:Hi; [|vm_compute in Hi; discriminate Hi].
  exists impact. split; [reflexivity|].
  exact (price_impact_in_unit_interval _ _ _ impact Hi).
Defined.

(* ================================================================== *)
(** * Further properties of pool upserts *)

Import Demo2.

Lemma oget_register_keep key tok k t d :
  oget key d = Some tok -> oget key (register k t d) = Some tok.
Proof.
  intros Hg. unfold register. destruct (omem k d) eqn:Hm; [exact Hg|].
  rewrite oget_oset_ne; [exact Hg|].
  intros ->. unfold omem in Hm. now rewrite Hg in Hm.
Qed.

Lemma add_pool_tokens self pool :
  tokens (fst (add_pool self pool)) =
  register (token_key (Pool.token_b pool)) (Pool.token_b pool)
    (register (token_key (Pool.token_a pool)) (Pool.token_a pool) (tokens self)).
Proof. unfold add_pool. now destruct (truediv f1 (Pool.price pool)). Qed.

Lemma add_pool_pools self pool :
  pools (fst (add_pool self pool)) = oset (pool_id_of pool) pool (pools self).
Proof. unfold add_pool. now destruct (truediv f1 (Pool.price pool)). Qed.

(** X4.  The registry is first-writer-wins: a token already registered
    under a key stays as it is through any upsert, even when the upserted
    pool brings another token object (other symbol or decimals) with the
    same key. *)
Theorem add_pool_keeps_registered_token (self : OptimizedRouter.t) (pool : Pool.t)
    (key : string) (tok : Token.t) :
  oget key (tokens self) = Some tok ->
  oget key (tokens (fst (add_pool self pool))) = Some tok.
Proof.
  intros Hg. rewrite add_pool_tokens. now do 2 apply oget_register_keep.
Qed.

Lemma add_pool_keeps_registered_token_witness :
  oget (token_key usdc)
    (tokens (fst (add_pool main_router
                    (small_pool "curve" (Token.mk 1 (Token.address usdc) "USD COIN" 8) tA 5 5)))) =
  Some usdc.
Proof.
  apply add_pool_keeps_registered_token. vm_compute. reflexivity.
Defined.

(** X5.  An upsert touches nothing but its own entries: every other pool of
    the pool table, and every edge other than the two between the pool's
    tokens, is as before, and the registry gains at most the pool's two
    token keys. *)
Theorem add_pool_frame (self : OptimizedRouter.t) (pool : Pool.t) :
  let a := token_key (Pool.token_a pool) in
  let b := token_key (Pool.token_b pool) in
  let self' := fst (add_pool self pool) in
  (forall id, id <> pool_id_of pool -> oget id (pools self') = oget id (pools self)) /\
  (forall u v, (u, v) <> (a, b) -> (u, v) <> (b, a) ->
     nx.get_edge_data (graph self') u v = nx.get_edge_data (graph self) u v) /\
  (forall key, key <> a -> key <> b ->
     oget key (tokens self') = oget key (tokens self)).
Proof.
  intros a b self'. subst self'. repeat split.
  - intros id Hid. rewrite add_pool_pools. apply oget_oset_ne. congruence.
  - intros u v Hab Hba. unfold add_pool.
    destruct (truediv f1 (Pool.price pool)); cbn [fst graph];
      rewrite ?get_edge_data_add_edge_ne; try reflexivity; fold a b; congruence.
  - intros key Ha Hb. rewrite add_pool_tokens. fold a b.
    assert (Hreg : forall k t d, key <> k -> oget key (register k t d) = oget key d).
    { intros k t d Hk. unfold register. destruct (omem k d); [reflexivity|].
      apply oget_oset_ne. congruence. }
    now rewrite !Hreg.
Qed.

(** X6.  An upsert merges into the existing edge dicts: on the two edges of
    the pool the attributes written by an earlier path search
    ([price_impact], [gas_cost], [slippage]) survive, next to the new
    reserves, so they describe the old reserves until the next search. *)
Theorem add_pool_keeps_search_attributes (self : OptimizedRouter.t) (pool : Pool.t)
    (d : Edge.t) :
  token_key (Pool.token_a pool) <> token_key (Pool.token_b pool) ->
  nx.get_edge_data (graph self) (token_key (Pool.token_a pool))
    (token_key (Pool.token_b pool)) = Some d ->
  exists d',
    nx.get_edge_data (graph (fst (add_pool self pool))) (token_key (Pool.token_a pool))
      (token_key (Pool.token_b pool)) = Some d' /\
    Edge.price_impact d' = Edge.price_impact d /\
    Edge.gas_cost d' = Edge.gas_cost d /\
    Edge.slippage d' = Edge.slippage d /\
    Edge.reserve_a d' = Pool.reserve_a pool /\
    Edge.reserve_b d' = Pool.reserve_b pool.
Proof.
  intros Hne Hd. unfold add_pool.
  destruct (truediv f1 (Pool.price pool)); cbn [fst graph];
    rewrite ?get_edge_data_add_edge_ne by congruence;
    rewrite get_edge_data_add_edge_eq, Hd;
    eexists; (split; [reflexivity|]); repeat split.
Qed.

Lemma add_pool_keeps_search_attributes_witness :
  exists d',
    nx.get_edge_data (graph (fst (add_pool queried_router pool_eth_usdc_moved)))
      (token_key eth) (token_key usdc) = Some d' /\
    Edge.price_impact d' <> None /\
    Edge.reserve_a d' = 1001 * 10 ^ 18.
Proof.
  destruct (nx.get_edge_data (graph queried_router) (token_key eth) (token_key usdc))
    as [d|] eqn:Hd; [|vm_compute in Hd; discriminate Hd].
  destruct (add_pool_keeps_search_attributes queried_router pool_eth_usdc_moved d)
    as [d' [Hd' [Hpi [_ [_ [Hra _]]]]]].
  - vm_compute. discriminate.
  - exact Hd.
  - exists d'. split; [exact Hd'|]. split; [|exact Hra].
    rewrite Hpi. vm_compute in Hd. injection Hd as <-. discriminate.
Defined.

(* ================================================================== *)
(** * Further properties of routing queries *)

Lemma oget_omap {K V W : Type} `{EqDec K} (f : V -> W) (k : K) (d : odict K V) :
  oget k (omap f d) = option_map f (oget k d).
Proof.
  induction d as [|[k0 v0] r IH]; [reflexivity|].
  cbn [omap map fst snd oget]. destruct (eq_dec k k0); [reflexivity|exact IH].
Qed.

Lemma prepare_edge_pool_view amount d d' :
  prepare_edge amount d = Ok d' -> pool_view d' = pool_view d.
Proof.
  intros Hd. destruct (prepare_edge_inv _ _ _ Hd) as [pi [_ ->]]. reflexivity.
Qed.

Lemma prepare_nbrs_pool_view amount nbrs :
  omap pool_view (fst (prepare_nbrs amount nbrs)) = omap pool_view nbrs.
Proof.
  induction nbrs as [|[v d] rest IH]; [reflexivity|].
  cbn [prepare_nbrs]. destruct (prepare_edge amount d) as [d'|e] eqn:Hd.
  - destruct (prepare_nbrs amount rest) as [rest' r]. cbn [fst] in *.
    cbn [omap map fst snd]. rewrite (prepare_edge_pool_view _ _ _ Hd).
    f_equal. exact IH.
  - reflexivity.
Qed.

Lemma omap_cons {K V W : Type} (f : V -> W) (k : K) (v : V) (d : odict K V) :
  omap f ((k, v) :: d) = (k, f v) :: omap f d.
Proof. reflexivity. Qed.

Lemma prepare_graph_pool_data amount g :
  pool_data (fst (prepare_graph amount g)) = pool_data g.
Proof.
  unfold pool_data. induction g as [|[u nbrs] rest IH]; [reflexivity|].
  cbn [prepare_graph].
  pose proof (prepare_nbrs_pool_view amount nbrs) as Hn.
  destruct (prepare_nbrs amount nbrs) as [nbrs' [[]|e]]; cbn [fst] in Hn.
  - destruct (prepare_graph amount rest) as [rest' r]. cbn [fst] in *.
    rewrite !omap_cons, Hn, IH. reflexivity.
  - cbn [fst]. rewrite !omap_cons, Hn. reflexivity.
Qed.

(** The state of the router after a query: the state before, or the state
    before with the graph as the preparation loop left it. *)
Lemma find_routes_state_shape adjust self token_in token_out amount :
  let self' := fst (find_routes adjust self token_in token_out amount) in
  pools self' = pools self /\ tokens self' = tokens self /\
  (graph self' = graph self \/
   graph self' = fst (prepare_graph amount (graph self))).
Proof.
  cbn zeta. rewrite find_routes_state.
  destruct (string_dec (token_key token_in) (token_key token_out)) as [Heq|Hne].
  - unfold _k_shortest_paths.
    destruct (string_dec (token_key token_in) (token_key token_out)); [|contradiction].
    cbn [fst]. auto.
  - rewrite k_shortest_paths_state by assumption. cbn [graph pools tokens]. auto.
Qed.

(** X7.  A routing query, whatever its outcome (a route list, an empty list
    or an exception raised half-way through the preparation loop), changes
    neither the pool table, nor the registry, nor the nodes and edges of
    the graph and their order, nor any pool attribute of an edge (pool id,
    exchange, fee tier, price, liquidity, reserves): it can only write the
    three search attributes. *)
Theorem find_routes_preserves_pool_data
    (adjust : list SwapRoute.t -> result (list SwapRoute.t))
    (self : OptimizedRouter.t) (token_in token_out : Token.t) (amount : Z) :
  let self' := fst (find_routes adjust self token_in token_out amount) in
  pool_data (graph self') = pool_data (graph self) /\
  pools self' = pools self /\
  tokens self' = tokens self.
Proof.
  destruct (find_routes_state_shape adjust self token_in token_out amount)
    as [Hp [Ht [Hg|Hg]]]; cbn zeta; rewrite Hg; repeat split; try assumption.
  apply prepare_graph_pool_data.
Qed.

Lemma get_edge_data_pool_data g u v :
  option_map pool_view (nx.get_edge_data g u v) =
  oget v (match oget u (pool_data g) with Some n => n | None => [] end).
Proof.
  unfold nx.get_edge_data, nx.neighbors, pool_data.
  rewrite oget_omap. destruct (oget u g) as [n|]; cbn [option_map].
  - now rewrite oget_omap.
  - reflexivity.
Qed.

Lemma has_node_pool_data g u : nx.has_node g u = omem u (pool_data g).
Proof.
  unfold nx.has_node, omem, pool_data. rewrite oget_omap.
  now destruct (oget u g).
Qed.

(** ** Well-formed router states *)

Lemma closed_add_edge g a b kw : closed g -> closed (nx.add_edge g a b kw).
Proof.
  intros Hc u v d Hd. rewrite has_node_add_edge.
  destruct (string_dec b v) as [Hbv|Hbv]; [now rewrite orb_true_r|].
  rewrite get_edge_data_add_edge_ne in Hd by congruence.
  now rewrite (Hc u v d Hd).
Qed.

Lemma closed_prepare_graph amount g :
  closed g -> closed (fst (prepare_graph amount g)).
Proof.
  intros Hc u v d' Hd'. rewrite prepare_graph_has_node.
  pose proof (get_edge_data_pool_data (fst (prepare_graph amount g)) u v) as H1.
  rewrite prepare_graph_pool_data, <- get_edge_data_pool_data, Hd' in H1.
  destruct (nx.get_edge_data g u v) as [d|] eqn:Hd; [|discriminate H1].
  exact (Hc u v d Hd).
Qed.

Lemma oget_register_inv key tok k t d :
  oget key (register k t d) = Some tok ->
  oget key d = Some tok \/ (key = k /\ tok = t).
Proof.
  unfold register. destruct (omem k d); [now left|].
  destruct (eq_dec k key) as [<-|Hne].
  - rewrite oget_oset_eq. intros [= <-]. now right.
  - rewrite oget_oset_ne by assumption. now left.
Qed.

Lemma keyed_add_pool self pool : keyed self -> keyed (fst (add_pool self pool)).
Proof.
  intros Hk key tok. rewrite add_pool_tokens. intros Hg.
  apply oget_register_inv in Hg. destruct Hg as [Hg|[-> ->]]; [|reflexivity].
  apply oget_register_inv in Hg. destruct Hg as [Hg|[-> ->]]; [|reflexivity].
  now apply Hk.
Qed.

Lemma closed_add_pool self pool :
  closed (graph self) -> closed (graph (fst (add_pool self pool))).
Proof.
  intros Hc. unfold add_pool.
  destruct (truediv f1 (Pool.price pool)); cbn [fst graph];
    repeat apply closed_add_edge; exact Hc.
Qed.

Lemma reachable_invariant self :
  reachable self -> consistent self /\ closed (graph self) /\ keyed self.
Proof.
  induction 1 as [|self pool _ [Hc [Hcl Hk]]
                  |adjust self token_in token_out amount _ [Hc [Hcl Hk]]].
  - repeat split.
    + intros u v d Hd. discriminate Hd.
    + intros key tok Hg. discriminate Hg.
  - split; [now apply consistent_add_pool|].
    split; [now apply closed_add_pool|now apply keyed_add_pool].
  - split; [now apply consistent_find_routes|].
    destruct (find_routes_state_shape adjust self token_in token_out amount)
      as [_ [Ht Hg]]. cbn zeta in *.
    split.
    + destruct Hg as [-> | ->]; [exact Hcl|now apply closed_prepare_graph].
    + intros key tok. rewrite Ht. apply Hk.
Qed.

(** X8.  In every router state reachable from a fresh router by upserts and
    queries, whatever their outcomes, both endpoints of every edge are keys
    of the token registry, and every registered token is stored under its
    own key: the two registry lookups of the route simulation cannot raise
    [KeyError] on an edge of the graph. *)
Theorem reachable_registered_edges (self : OptimizedRouter.t) :
  reachable self -> registered_edges self /\ keyed self.
Proof.
  intros Hr. destruct (reachable_invariant self Hr) as [Hc [Hcl Hk]].
  split; [|exact Hk].
  intros u v d Hd. rewrite !Hc. split; [|exact (Hcl u v d Hd)].
  unfold nx.has_node, omem. unfold nx.get_edge_data, nx.neighbors in Hd.
  destruct (oget u (graph self)); [reflexivity|discriminate Hd].
Qed.

Lemma reachable_registered_edges_witness :
  registered_edges queried_router /\ keyed queried_router.
Proof.
  apply reachable_registered_edges.
  apply reach_find_routes.
  apply (reach_add_pool (fst (add_pool init pool_eth_usdc)) pool_usdc_dai).
  apply reach_add_pool. apply reach_init.
Defined.

(** ** A query does not depend on what earlier queries wrote *)

Lemma prepare_edge_same_view amount d d' :
  pool_view d = pool_view d' -> prepare_edge amount d = prepare_edge amount d'.
Proof.
  destruct d, d'. unfold pool_view. cbn [Edge.pool_id Edge.exchange Edge.fee_tier
    Edge.price Edge.liquidity Edge.reserve_a Edge.reserve_b].
  intros [= -> -> -> -> -> -> ->]. reflexivity.
Qed.

Lemma prepare_nbrs_same_view amount nbrs :
  forall nbrs',
    omap pool_view nbrs = omap pool_view nbrs' ->
    snd (prepare_nbrs amount nbrs) = snd (prepare_nbrs amount nbrs') /\
    (snd (prepare_nbrs amount nbrs) = Ok tt ->
     fst (prepare_nbrs amount nbrs) = fst (prepare_nbrs amount nbrs')).
Proof.
  induction nbrs as [|[v d] rest IH]; intros [|[v' d'] rest'] Hv;
    try discriminate Hv; [now split|].
  rewrite !omap_cons in Hv.
  assert (Hk : v = v') by congruence.
  assert (Hd : pool_view d = pool_view d') by congruence.
  assert (Hr : omap pool_view rest = omap pool_view rest') by congruence.
  subst v'. cbn [prepare_nbrs]. rewrite (prepare_edge_same_view amount d d' Hd).
  destruct (prepare_edge amount d') as [d0|e].
  - destruct (IH rest' Hr) as [Ho Hf].
    destruct (prepare_nbrs amount rest) as [r1 o1],
             (prepare_nbrs amount rest') as [r2 o2]. cbn [fst snd] in *.
    split; [exact Ho|]. intros Hok. now rewrite (Hf Hok).
  - cbn [snd]. split; [reflexivity|discriminate].
Qed.

Lemma prepare_graph_same_view amount g :
  forall g',
    pool_data g = pool_data g' ->
    snd (prepare_graph amount g) = snd (prepare_graph amount g') /\
    (snd (prepare_graph amount g) = Ok tt ->
     fst (prepare_graph amount g) = fst (prepare_graph amount g')).
Proof.
  unfold pool_data.
  induction g as [|[u n] rest IH]; intros [|[u' n'] rest'] Hv;
    try discriminate Hv; [now split|].
  rewrite !omap_cons in Hv.
  assert (Hk : u = u') by congruence.
  assert (Hn : omap pool_view n = omap pool_view n') by congruence.
  assert (Hr : omap (omap pool_view) rest = omap (omap pool_view) rest') by congruence.
  subst u'. cbn [prepare_graph].
  destruct (prepare_nbrs_same_view amount n n' Hn) as [Hno Hnf].
  destruct (prepare_nbrs amount n) as [n1 o1], (prepare_nbrs amount n') as [n2 o2].
  cbn [fst snd] in *. subst o2. destruct o1 as [[]|e].
  - rewrite (Hnf eq_refl). destruct (IH rest' Hr) as [Ho Hf].
    destruct (prepare_graph amount rest) as [r1 p1],
             (prepare_graph amount rest') as [r2 p2]. cbn [fst snd] in *.
    split; [exact Ho|]. intros Hok. now rewrite (Hf Hok).
  - cbn [snd]. split; [reflexivity|discriminate].
Qed.

Lemma k_shortest_paths_same_view self self' token_in token_out amount k :
  pool_data (graph self) = pool_data (graph self') ->
  snd (_k_shortest_paths self token_in token_out amount k) =
  snd (_k_shortest_paths self' token_in token_out amount k).
Proof.
  intros Hv. unfold _k_shortest_paths.
  destruct (string_dec token_in token_out); [reflexivity|].
  destruct (prepare_graph_same_view amount (graph self) (graph self') Hv) as [Ho Hf].
  destruct (prepare_graph amount (graph self)) as [g o],
           (prepare_graph amount (graph self')) as [g' o'].
  cbn [fst snd] in *. subst o'. destruct o as [[]|e]; [|reflexivity].
  rewrite <- (Hf eq_refl).
  destruct (paths <- nx.shortest_simple_paths g token_in token_out _weight_function ;;
            mapM (path_hops g) (firstn k paths)) as [l|[]]; reflexivity.
Qed.

Lemma k_shortest_paths_tokens self token_in token_out amount k :
  tokens (fst (_k_shortest_paths self token_in token_out amount k)) = tokens self.
Proof.
  destruct (string_dec token_in token_out) as [Heq|Hne].
  - unfold _k_shortest_paths. destruct (string_dec token_in token_out); [|contradiction].
    reflexivity.
  - now rewrite k_shortest_paths_state.
Qed.

Lemma route_loop_tokens self self' path steps cur exs :
  tokens self = tokens self' ->
  route_loop self path steps cur exs = route_loop self' path steps cur exs.
Proof.
  intros Ht. revert steps cur exs.
  induction path as [|[[u v] data] rest IH]; intros steps cur exs; [reflexivity|].
  cbn [route_loop]. rewrite Ht.
  destruct (oget u (tokens self')) as [tin|]; cbn [bind]; [|reflexivity].
  destruct (oget v (tokens self')) as [tout|]; cbn [bind]; [|reflexivity].
  destruct (hop_output data cur) as [out|]; cbn [bind]; [|reflexivity].
  destruct (int_mul_float out (sub f1 f0_005)) as [buffered|]; cbn [bind]; [|reflexivity].
  destruct (to_int buffered) as [min_output|]; cbn [bind]; [|reflexivity].
  apply IH.
Qed.

Lemma path_to_swap_route_tokens self self' path amount :
  tokens self = tokens self' ->
  _path_to_swap_route self path amount = _path_to_swap_route self' path amount.
Proof.
  intros Ht. unfold _path_to_swap_route. now rewrite (route_loop_tokens self self').
Qed.

Lemma mapM_ext {A B} (f g : A -> result B) l :
  (forall x, f x = g x) -> mapM f l = mapM g l.
Proof.
  intros Hfg. induction l as [|x r IH]; [reflexivity|].
  cbn [mapM]. now rewrite Hfg, IH.
Qed.

(** X9.  The outcome of a routing query depends on the pool attributes of
    the graph and on the registry only: two router states that differ in
    nothing but the search attributes earlier queries left on the edges
    (and in their pool tables) give the same route list, or raise the same
    exception, for the same tokens, amount and adjuster. *)
Theorem find_routes_history_independent
    (adjust : list SwapRoute.t -> result (list SwapRoute.t))
    (self self' : OptimizedRouter.t) (token_in token_out : Token.t) (amount : Z) :
  pool_data (graph self) = pool_data (graph self') ->
  tokens self = tokens self' ->
  snd (find_routes adjust self token_in token_out amount) =
  snd (find_routes adjust self' token_in token_out amount).
Proof.
  intros Hv Ht. unfold find_routes.
  pose proof (k_shortest_paths_same_view self self' (token_key token_in)
                (token_key token_out) amount 5 Hv) as Hfound.
  pose proof (k_shortest_paths_tokens self (token_key token_in)
                (token_key token_out) amount 5) as Ht1.
  pose proof (k_shortest_paths_tokens self' (token_key token_in)
                (token_key token_out) amount 5) as Ht2.
  destruct (_k_shortest_paths self (token_key token_in) (token_key token_out) amount 5)
    as [s1 found],
    (_k_shortest_paths self' (token_key token_in) (token_key token_out) amount 5)
    as [s2 found'].
  cbn [fst snd] in *. subst found'.
  destruct found as [[|p ps]|e]; try reflexivity.
  cbn [snd]. f_equal. apply mapM_ext. intros path.
  apply path_to_swap_route_tokens. congruence.
Qed.

Lemma find_routes_history_independent_witness :
  graph main_router <> graph queried_router /\
  snd (find_routes Ok main_router eth usdc 5) =
  snd (find_routes Ok queried_router eth usdc 5).
Proof.
  split; [vm_compute; discriminate|].
  apply find_routes_history_independent; vm_compute; reflexivity.
Defined.

(** ** Candidate paths *)

Lemma simple_paths_spec fuel g t :
  forall visited u p,
    ~ In u visited ->
    In p (nx.simple_paths fuel g visited u t) ->
    exists r, p = u :: r /\ last p u = t /\ walk g p /\ NoDup p /\
              (forall x, In x p -> ~ In x visited).
Proof.
  induction fuel as [|n IH]; intros visited u p Hu Hin; cbn [nx.simple_paths] in Hin;
    [contradiction|].
  destruct (string_dec u t) as [->|Hne].
  - destruct Hin as [<-|[]]. exists []. repeat split.
    + constructor; [intros []|constructor].
    + intros x [<-|[]]. exact Hu.
  - apply in_flat_map in Hin. destruct Hin as [[v dv] [Hnb Hin]].
    destruct (in_dec string_dec v (u :: visited)) as [|Hv]; [contradiction|].
    apply in_map_iff in Hin. destruct Hin as [p' [<- Hp']].
    destruct (IH (u :: visited) v p' Hv Hp') as [r' [-> [Hlast [Hw [Hnd Hvis]]]]].
    exists (v :: r'). repeat split.
    + rewrite <- Hlast. change (last (u :: v :: r') u) with (last (v :: r') u).
      apply last_default.
    + destruct (omem_true_get _ _ (in_omem _ _ _ Hnb)) as [d Hd].
      unfold nx.get_edge_data. now rewrite Hd.
    + exact Hw.
    + constructor; [|exact Hnd]. intros Hin. apply (Hvis u Hin). now left.
    + intros x [<-|Hx]; [exact Hu|].
      intros Hxv. apply (Hvis x Hx). now right.
Qed.

Lemma path_hops_cons g u v r :
  path_hops g (u :: v :: r) =
  match nx.get_edge_data g u v with
  | None => Raise KeyError
  | Some data => hops <- path_hops g (v :: r) ;; Ok ((u, v, data) :: hops)
  end.
Proof. reflexivity. Qed.

Lemma path_hops_spec g r :
  forall u,
    walk g (u :: r) ->
    exists hops,
      path_hops g (u :: r) = Ok hops /\
      chain u hops (last (u :: r) u) /\
      map hop_target hops = r /\
      Forall (fun h => nx.get_edge_data g (hop_source h) (hop_target h) = Some (snd h)) hops.
Proof.
  induction r as [|v r' IH]; intros u Hw.
  - exists []. repeat split. constructor.
  - destruct Hw as [Hedge Hw]. rewrite path_hops_cons.
    destruct (nx.get_edge_data g u v) as [d|] eqn:Hd; [|contradiction].
    destruct (IH v Hw) as [hops [Hh [Hc [Hm Hf]]]].
    rewrite Hh. cbn [bind]. exists ((u, v, d) :: hops). repeat split.
    + change (last (u :: v :: r') u) with (last (v :: r') u).
      now rewrite (last_default u v).
    + cbn [map]. now rewrite Hm.
    + constructor; [exact Hd|exact Hf].
Qed.

Lemma insert_by_length_in x y l :
  In y (nx.insert_by_length x l) -> y = x \/ In y l.
Proof.
  induction l as [|z r IH]; cbn [nx.insert_by_length].
  - intros [<-|[]]. now left.
  - destruct (ltb (fst z) (fst x)).
    + intros [<-|Hin]; [right; now left|].
      destruct (IH Hin); [now left|right; now right].
    + intros [<-|Hin]; [now left|now right].
Qed.

Lemma sort_by_length_in y l : In y (nx.sort_by_length l) -> In y l.
Proof.
  induction l as [|x r IH]; [trivial|].
  cbn [nx.sort_by_length fold_right]. fold (nx.sort_by_length r).
  intros Hin. apply insert_by_length_in in Hin.
  destruct Hin as [->|Hin]; [now left|right; now apply IH].
Qed.

Lemma mapM_weighted (f : list string -> result float) ps ws :
  mapM (fun p => w <- f p ;; Ok (w, p)) ps = Ok ws -> map snd ws = ps.
Proof.
  revert ws. induction ps as [|p r IH]; intros ws Hm; cbn [mapM] in Hm.
  - now injection Hm as <-.
  - do 2 bind_inv Hm. injection Hm as <-. bind_inv E. injection E as <-.
    cbn [map snd]. f_equal. now apply IH.
Qed.

Lemma shortest_simple_paths_in g source target wt sps p :
  nx.shortest_simple_paths g source target wt = Ok sps ->
  In p sps ->
  In p (nx.simple_paths (List.length g) g [] source target).
Proof.
  unfold nx.shortest_simple_paths.
  destruct (negb (nx.has_node g source)); [discriminate|].
  destruct (negb (nx.has_node g target)); [discriminate|].
  destruct (nx.simple_paths (List.length g) g [] source target) as [|p0 ps0];
    [discriminate|].
  intros Hs Hin. bind_inv Hs. injection Hs as <-.
  apply in_map_iff in Hin. destruct Hin as [[w q] [<- Hq]].
  apply sort_by_length_in in Hq. apply (in_map snd) in Hq.
  now rewrite (mapM_weighted _ _ _ E) in Hq.
Qed.

Lemma firstn_in {A} k (l : list A) x : In x (firstn k l) -> In x l.
Proof.
  revert l. induction k as [|k IH]; intros [|y r]; cbn; try tauto.
  intros [<-|Hin]; [now left|right; now apply IH].
Qed.

Lemma Forall2_in_r {A B} (R : A -> B -> Prop) l l' y :
  Forall2 R l l' -> In y l' -> exists x, In x l /\ R x y.
Proof.
  induction 1 as [|x0 y0 r r' HR _ IH]; [intros []|].
  intros [<-|Hin].
  - exists x0. split; [now left|exact HR].
  - destruct (IH Hin) as [x [Hx Hxy]]. exists x. split; [now right|exact Hxy].
Qed.

Lemma candidates_of_search (self : OptimizedRouter.t)
    (token_in token_out : string) (amount : Z) (k : nat) (paths : list (list Hop)) :
  snd (_k_shortest_paths self token_in token_out amount k) = Ok paths ->
  (List.length paths <= k)%nat /\
  Forall (candidate (graph (fst (_k_shortest_paths self token_in token_out amount k)))
            token_in token_out) paths.
Proof.
  unfold _k_shortest_paths.
  destruct (string_dec token_in token_out) as [Heq|Hne].
  { intros [= <-]. split; [cbn; lia|constructor]. }
  destruct (prepare_graph amount (graph self)) as [g [[]|e]]; [|discriminate].
  destruct (nx.shortest_simple_paths g token_in token_out _weight_function)
    as [sps|e] eqn:Hsps; cbn [bind].
  - destruct (mapM (path_hops g) (firstn k sps)) as [l|e] eqn:Hl.
    + cbn [fst snd graph]. intros [= <-]. split.
      * rewrite (mapM_length _ _ _ Hl). apply firstn_le_length.
      * apply Forall_forall. intros hops Hin.
        destruct (Forall2_in_r _ _ _ _ (mapM_Forall2 _ _ _ Hl) Hin) as [p [Hp Hph]].
        apply firstn_in in Hp.
        apply (shortest_simple_paths_in _ _ _ _ _ _ Hsps) in Hp.
        destruct (simple_paths_spec _ _ _ [] _ _ (fun H : In token_in [] => H) Hp)
          as [r [-> [Hlast [Hw [Hnd _]]]]].
        destruct (path_hops_spec g r token_in Hw) as [hops' [Hh [Hc [Hm Hf]]]].
        assert (hops' = hops) by congruence. subst hops'.
        rewrite Hlast in Hc. repeat split; try assumption.
        -- intros ->. cbn in Hc. contradiction.
        -- now rewrite Hm.
    + destruct e; cbn [snd]; intros [= <-]; (split; [cbn; lia|constructor]).
  - destruct e; cbn [snd]; intros [= <-]; (split; [cbn; lia|constructor]).
Qed.

(** X10.  Whenever the path search returns, it returns at most [k]
    candidate paths, and each of them has at least one hop, starts at
    [token_in], ends at [token_out], chains hop to hop, visits no token
    twice and carries, on every hop, the attribute dict of that edge as the
    preparation loop of this same call left it. *)
Theorem k_shortest_paths_candidates (self : OptimizedRouter.t)
    (token_in token_out : string) (amount : Z) (k : nat) (paths : list (list Hop)) :
  snd (_k_shortest_paths self token_in token_out amount k) = Ok paths ->
  (List.length paths <= k)%nat /\
  Forall (candidate (graph (fst (_k_shortest_paths self token_in token_out amount k)))
            token_in token_out) paths.
Proof. apply candidates_of_search. Qed.

Lemma k_shortest_paths_candidates_witness :
  exists paths,
    snd (_k_shortest_paths rank_router (token_key tA) (token_key tB) 100 5) = Ok paths /\
    List.length paths = 2%nat /\
    Forall (candidate
              (graph (fst (_k_shortest_paths rank_router (token_key tA) (token_key tB) 100 5)))
              (token_key tA) (token_key tB)) paths.
Proof.
  destruct (snd (_k_shortest_paths rank_router (token_key tA) (token_key tB) 100 5))
    as [paths|e] eqn:Hp; [|vm_compute in Hp; discriminate Hp].
  exists paths. split; [reflexivity|].
  split; [vm_compute in Hp; injection Hp as <-; reflexivity|].
  exact (proj2 (k_shortest_paths_candidates rank_router (token_key tA) (token_key tB)
                  100 5 paths Hp)).
Defined.

(** ** Routes follow their candidate paths *)

Lemma route_loop_spec self path :
  forall steps cur exs steps' cur' exs',
    route_loop self path steps cur exs = Ok (steps', cur', exs') ->
    exists new,
      steps' = steps ++ new /\
      Forall2 (step_of_hop self) path new /\
      threads cur path new cur' /\
      exs' = exs ++ map (fun h : Hop => Edge.exchange (snd h)) path.
Proof.
  induction path as [|[[u v] data] rest IH]; intros steps cur exs steps' cur' exs' Hl;
    cbn [route_loop] in Hl.
  - injection Hl as <- <- <-. exists []. rewrite !app_nil_r.
    repeat split. constructor.
  - do 5 bind_inv Hl.
    destruct (oget u (tokens self)) as [tin|] eqn:Hu; [|discriminate E].
    destruct (oget v (tokens self)) as [tout|] eqn:Hv; [|discriminate E0].
    injection E as <-. injection E0 as <-.
    destruct (IH _ _ _ _ _ _ Hl) as [new [-> [Hf [Ht ->]]]].
    eexists (_ :: new). rewrite <- !app_assoc. split; [reflexivity|].
    split; [|split].
    + constructor; [|exact Hf]. repeat split; assumption.
    + cbn [threads]. split; [reflexivity|]. exists x1. split; assumption.
    + reflexivity.
Qed.

Lemma path_to_swap_route_inv self path amount r :
  _path_to_swap_route self path amount = Ok r ->
  exists final,
    Forall2 (step_of_hop self) path (SwapRoute.steps r) /\
    threads amount path (SwapRoute.steps r) final /\
    SwapRoute.expected_amount_out r = str final /\
    SwapRoute.amount_in r = str amount /\
    SwapRoute.gas_estimate r =
      _calculate_gas_cost (Z.of_nat (List.length path))
        (map (fun h : Hop => Edge.exchange (snd h)) path) /\
    _calculate_risk_score path = Ok (SwapRoute.risk_score r).
Proof.
  unfold _path_to_swap_route. intros Hr. bind_inv Hr.
  destruct x as [[steps cur] exs]. bind_inv Hr. injection Hr as <-.
  destruct (route_loop_spec _ _ _ _ _ _ _ _ E) as [new [-> [Hf [Ht ->]]]].
  exists cur. cbn [SwapRoute.steps SwapRoute.expected_amount_out SwapRoute.amount_in
    SwapRoute.gas_estimate SwapRoute.risk_score app].
  repeat split; assumption.
Qed.

(** X11.  A route follows its path hop by hop: it has one step per hop,
    each step holds the registry's tokens for the two ends of its hop and
    the edge's exchange and fee tier, each step is entered with the output
    of the hop before it (the first with the requested amount), and
    [expected_amount_out] is the output of the last hop. *)
Theorem path_to_swap_route_follows_path (self : OptimizedRouter.t) (path : list Hop)
    (amount : Z) (r : SwapRoute.t) :
  _path_to_swap_route self path amount = Ok r ->
  exists final,
    Forall2 (step_of_hop self) path (SwapRoute.steps r) /\
    threads amount path (SwapRoute.steps r) final /\
    SwapRoute.expected_amount_out r = str final /\
    SwapRoute.amount_in r = str amount.
Proof.
  intros Hr. destruct (path_to_swap_route_inv _ _ _ _ Hr)
    as [final [Hf [Ht [He [Ha _]]]]].
  exists final. repeat split; assumption.
Qed.

Lemma path_to_swap_route_follows_path_witness :
  exists path r final,
    _path_to_swap_route queried_router path (10 ^ 18) = Ok r /\
    List.length path = 2%nat /\
    threads (10 ^ 18) path (SwapRoute.steps r) final /\
    SwapRoute.expected_amount_out r = str final.
Proof.
  destruct (snd (_k_shortest_paths queried_router (token_key eth) (token_key dai)
                   (10 ^ 18) 5)) as [[|path ps]|e] eqn:Hp;
    try (vm_compute in Hp; discriminate Hp).
  destruct (_path_to_swap_route queried_router path (10 ^ 18)) as [r|e] eqn:Hr;
    [|vm_compute in Hp; injection Hp as <- _; vm_compute in Hr; discriminate Hr].
  destruct (path_to_swap_route_follows_path queried_router path (10 ^ 18) r Hr)
    as [final [_ [Ht [He _]]]].
  exists path, r, final. repeat split; try assumption.
  vm_compute in Hp. injection Hp as <- _. reflexivity.
Defined.

(** X12.  Every route the simulation produces has at least one step, a risk
    score from 1 to 5 that is at least its number of steps capped at 4, and
    a gas estimate between [30000 + 60000 n] and [30000 + 85000 n] for its
    [n] steps. *)
Theorem path_to_swap_route_metrics (self : OptimizedRouter.t) (path : list Hop)
    (amount : Z) (r : SwapRoute.t) :
  _path_to_swap_route self path amount = Ok r ->
  let n := Z.of_nat (List.length (SwapRoute.steps r)) in
  1 <= n /\
  1 <= SwapRoute.risk_score r <= 5 /\
  Z.min 4 n <= SwapRoute.risk_score r /\
  30000 + 60000 * n <= SwapRoute.gas_estimate r <= 30000 + 85000 * n.
Proof.
  intros Hr n.
  destruct (path_to_swap_route_inv _ _ _ _ Hr) as [final [Hf [_ [_ [_ [Hgas Hrisk]]]]]].
  assert (Hn : n = Z.of_nat (List.length path)).
  { unfold n. f_equal. symmetry. eapply Forall2_length. exact Hf. }
  pose proof (risk_score_shape path) as Hshape.
  destruct path as [|h rest]; [rewrite Hshape in Hrisk; discriminate Hrisk|].
  destruct Hshape as [risk [Hrisk' [Hrange Hmin]]].
  assert (risk = SwapRoute.risk_score r) by congruence. subst risk.
  pose proof (gas_fold_range (map (fun h : Hop => Edge.exchange (snd h)) (h :: rest))
                (100000 + (Z.of_nat (List.length (h :: rest)) - 1) * 70000)) as Hg.
  rewrite length_map in Hg. unfold _calculate_gas_cost in Hgas. rewrite <- Hgas in Hg.
  rewrite <- Hn in *.
  assert (1 <= n) by (rewrite Hn; cbn [List.length]; lia).
  repeat split; lia.
Qed.

Lemma path_to_swap_route_metrics_witness :
  exists r,
    _path_to_swap_route chain_router
      [(token_key tA, token_key tB,
        Edge.mk (pool_id_of first_pool) "Curve" f0_3 f1 f1e6 1000 1000 None None None)] 10 =
    Ok r /\
    1 <= SwapRoute.risk_score r <= 5 /\
    90000 <= SwapRoute.gas_estimate r <= 115000.
Proof.
  destruct (_path_to_swap_route chain_router
              [(token_key tA, token_key tB,
                Edge.mk (pool_id_of first_pool) "Curve" f0_3 f1 f1e6 1000 1000
                  None None None)] 10) as [r|e] eqn:Hr;
    [|vm_compute in Hr; discriminate Hr].
  exists r. split; [reflexivity|].
  destruct (path_to_swap_route_metrics _ _ _ _ Hr) as [_ [Hrisk [_ Hgas]]].
  split; [exact Hrisk|].
  assert (Hlen : List.length (SwapRoute.steps r) = 1%nat)
    by (vm_compute in Hr; injection Hr as <-; reflexivity).
  rewrite Hlen in Hgas. cbn in Hgas. lia.
Defined.

Lemma adjust_loop_strip random i routes adjusted :
  PricePredictor.adjust_loop random i routes = Ok adjusted ->
  map route_strip adjusted = map route_strip routes.
Proof.
  revert i adjusted. induction routes as [|r rest IH]; intros i adjusted Ha;
    cbn [PricePredictor.adjust_loop] in Ha.
  - now injection Ha as <-.
  - do 4 bind_inv Ha. injection Ha as <-.
    cbn [map]. f_equal. eapply IH; eassumption.
Qed.

Lemma adjust_strip random routes rs :
  PricePredictor.adjust random routes = Ok rs ->
  Permutation (map route_strip rs) (map route_strip routes).
Proof.
  intros Ha. destruct (adjust_inv _ _ _ Ha) as [adjusted [Hloop Hsort]].
  destruct (sorted_by_amount_spec _ _ Hsort) as [_ [Hperm _]].
  rewrite <- (adjust_loop_strip _ _ _ _ Hloop). now apply Permutation_map.
Qed.

(** X13.  The predictor returns the routes it was given, reordered, with
    nothing changed but [expected_amount_out]: steps, [amount_in], price
    impact, gas estimate and risk score of every route are kept, no route
    is added and none is lost. *)
Theorem adjust_only_changes_expected_amount (random : nat -> float)
    (routes rs : list SwapRoute.t) :
  PricePredictor.adjust random routes = Ok rs ->
  Permutation (map route_strip rs) (map route_strip routes) /\
  List.length rs = List.length routes.
Proof.
  intros Ha. pose proof (adjust_strip _ _ _ Ha) as Hperm.
  split; [exact Hperm|].
  apply Permutation_length in Hperm. now rewrite !length_map in Hperm.
Qed.

Lemma adjust_only_changes_expected_amount_witness :
  exists routes rs,
    snd (find_routes Ok rank_router tA tB 100) = Ok routes /\
    PricePredictor.adjust (fun i => match i with O => f0 | _ => f0_5 end) routes = Ok rs /\
    map SwapRoute.expected_amount_out rs <> map SwapRoute.expected_amount_out routes /\
    Permutation (map route_strip rs) (map route_strip routes).
Proof.
  destruct (snd (find_routes Ok rank_router tA tB 100)) as [routes|e] eqn:Hroutes;
    [|vm_compute in Hroutes; discriminate Hroutes].
  destruct (PricePredictor.adjust (fun i => match i with O => f0 | _ => f0_5 end) routes)
    as [rs|e] eqn:Hrs;
    [|vm_compute in Hroutes; injection Hroutes as <-; vm_compute in Hrs; discriminate Hrs].
  exists routes, rs. split; [reflexivity|]. split; [exact Hrs|].
  split; [|exact (proj1 (adjust_only_changes_expected_amount _ _ _ Hrs))].
  vm_compute in Hroutes. injection Hroutes as <-.
  vm_compute in Hrs. injection Hrs as <-. vm_compute. discriminate.
Defined.

Lemma steps_chain_of_hops self a b path steps :
  keyed self ->
  chain a path b ->
  Forall2 (step_of_hop self) path steps ->
  steps_chain a steps b.
Proof.
  intros Hk Hc Hf. revert a Hc.
  induction Hf as [|[[u v] d] s path steps [Hin [Hout _]] _ IH]; intros a Hc.
  - exact Hc.
  - destruct Hc as [-> Hc]. cbn [steps_chain]. unfold hop_source, hop_target in *.
    cbn [fst snd] in *.
    split; [exact (Hk _ _ Hin)|].
    rewrite (Hk _ _ Hout). now apply IH.
Qed.

(** X14.  Route integrity.  On a router whose registered tokens are stored
    under their own keys, [find_routes] returns at most five routes; every
    one of them has at least one step, its steps chain from the key of
    [token_in] to the key of [token_out], and its [amount_in] is the
    requested amount. *)
Theorem find_routes_route_integrity (random : nat -> float)
    (self : OptimizedRouter.t) (token_in token_out : Token.t) (amount : Z)
    (rs : list SwapRoute.t) :
  keyed self ->
  snd (find_routes (PricePredictor.adjust random) self token_in token_out amount) = Ok rs ->
  (List.length rs <= 5)%nat /\
  Forall (fun r =>
            SwapRoute.steps r <> [] /\
            steps_chain (token_key token_in) (SwapRoute.steps r) (token_key token_out) /\
            SwapRoute.amount_in r = str amount) rs.
Proof.
  intros Hk Hr.
  destruct (find_routes_ok_inv _ _ _ _ _ _ Hr) as [paths [routes [Hp [Hroutes Hadj]]]].
  destruct (candidates_of_search _ _ _ _ _ _ Hp) as [Hlen Hcand].
  pose proof (adjust_strip _ _ _ Hadj) as Hperm.
  split.
  - apply Permutation_length in Hperm. rewrite !length_map in Hperm.
    rewrite Hperm, (mapM_length _ _ _ Hroutes). exact Hlen.
  - apply Forall_forall. intros r Hin.
    apply (in_map route_strip) in Hin.
    apply (Permutation_in _ Hperm) in Hin.
    apply in_map_iff in Hin. destruct Hin as [r0 [Hstrip Hr0]].
    injection Hstrip as Hsteps Hamount _ _ _.
    destruct (Forall2_in_r _ _ _ _ (mapM_Forall2 _ _ _ Hroutes) Hr0) as [path [Hpath Hsim]].
    rewrite Forall_forall in Hcand.
    destruct (Hcand path Hpath) as [Hne [Hchain _]].
    destruct (path_to_swap_route_inv _ _ _ _ Hsim) as [final [Hf [_ [_ [Ha _]]]]].
    rewrite <- Hsteps, <- Hamount. repeat split.
    + intros Hnil. rewrite Hnil in Hf. inversion Hf. now subst.
    + eapply steps_chain_of_hops; [|exact Hchain|exact Hf].
      intros key tok. rewrite k_shortest_paths_tokens. apply Hk.
    + exact Ha.
Qed.

Lemma find_routes_route_integrity_witness :
  exists rs,
    snd (find_routes (PricePredictor.adjust (fun _ => f0_5)) main_router eth dai (10 ^ 18)) =
      Ok rs /\
    Forall (fun r =>
              steps_chain (token_key eth) (SwapRoute.steps r) (token_key dai)) rs.
Proof.
  destruct (snd (find_routes (PricePredictor.adjust (fun _ => f0_5)) main_router eth dai
                   (10 ^ 18))) as [rs|e] eqn:Hr; [|vm_compute in Hr; discriminate Hr].
  exists rs. split; [reflexivity|].
  assert (Hk : keyed main_router).
  { apply (keyed_add_pool (fst (add_pool init pool_eth_usdc)) pool_usdc_dai).
    apply keyed_add_pool. intros key tok Hg. discriminate Hg. }
  destruct (find_routes_route_integrity _ _ _ _ _ _ Hk Hr) as [_ Hall].
  eapply Forall_impl; [|exact Hall]. intros r [_ [Hc _]]. exact Hc.
Defined.

(** ** The search finds a path whenever there is one *)

Lemma has_path_after_prepare amount g g' u v :
  prepare_graph amount g = (g', Ok tt) -> has_path g u v -> has_path g' u v.
Proof.
  intros Hprep Hpath. induction Hpath as [u|u v w d Hd _ IH]; [constructor|].
  pose proof (prepare_graph_lookup amount g g' u v Hprep) as Hl.
  rewrite Hd in Hl. destruct Hl as [d' [_ Hd']].
  now apply (path_step g' u v w d').
Qed.

Lemma prepared_edge amount g g' u v d' :
  prepare_graph amount g = (g', Ok tt) ->
  nx.get_edge_data g' u v = Some d' ->
  exists d, nx.get_edge_data g u v = Some d /\ prepare_edge amount d = Ok d'.
Proof.
  intros Hprep Hd'.
  pose proof (prepare_graph_lookup amount g g' u v Hprep) as Hl.
  destruct (nx.get_edge_data g u v) as [d|]; [|congruence].
  destruct Hl as [d0 [Hd0 Hg]]. exists d. split; [reflexivity|congruence].
Qed.

Lemma gas_share_of_prepared ex :
  exists share, int_div_float (_calculate_gas_cost 1 [ex]) f1e6 = Ok share.
Proof.
  unfold _calculate_gas_cost, exchange_costs. cbn [fold_left].
  destruct (string_dec (lower ex) "uniswap");
    [|destruct (string_dec (lower ex) "sushiswap");
      [|destruct (string_dec (lower ex) "curve");
        [|destruct (string_dec (lower ex) "balancer")]]];
    (eexists; vm_compute; reflexivity).
Qed.

Lemma weight_of_prepared amount u v d d' :
  prepare_edge amount d = Ok d' -> exists w, _weight_function u v d' = Ok w.
Proof.
  intros Hd. destruct (prepare_edge_inv _ _ _ Hd) as [pi [_ ->]].
  destruct (gas_share_of_prepared (Edge.exchange d)) as [share Hshare].
  unfold _weight_function. cbn [Edge.gas_cost Edge.price_impact Edge.slippage Edge.set_search].
  rewrite Hshare. cbn [bind]. eexists. reflexivity.
Qed.

Lemma path_length_ok wt g p :
  (forall u v d, nx.get_edge_data g u v = Some d -> exists w, wt u v d = Ok w) ->
  walk g p ->
  forall acc, exists w, nx.path_length wt g acc p = Ok w.
Proof.
  intros Hwt. induction p as [|u [|v r] IH]; intros Hw acc.
  - now exists acc.
  - now exists acc.
  - destruct Hw as [Hedge Hw]. cbn [nx.path_length].
    destruct (nx.get_edge_data g u v) as [d|] eqn:Hd; [|contradiction].
    destruct (Hwt u v d Hd) as [w Hw']. rewrite Hw'. cbn [bind]. now apply IH.
Qed.

Lemma mapM_ok {A B} (f : A -> result B) l :
  (forall x, In x l -> exists y, f x = Ok y) -> exists l', mapM f l = Ok l'.
Proof.
  induction l as [|x r IH]; intros Hf; [now exists []|].
  destruct (Hf x (or_introl eq_refl)) as [y Hy].
  destruct IH as [ys Hys]; [intros z Hz; apply Hf; now right|].
  exists (y :: ys). cbn [mapM]. now rewrite Hy, Hys.
Qed.

Lemma insert_by_length_length x l :
  List.length (nx.insert_by_length x l) = S (List.length l).
Proof.
  induction l as [|y r IH]; [reflexivity|]. cbn [nx.insert_by_length].
  destruct (ltb (fst y) (fst x)); cbn [List.length]; [now rewrite IH|reflexivity].
Qed.

Lemma sort_by_length_length l :
  List.length (nx.sort_by_length l) = List.length l.
Proof.
  induction l as [|x r IH]; [reflexivity|].
  cbn [nx.sort_by_length fold_right]. fold (nx.sort_by_length r).
  rewrite insert_by_length_length. cbn [List.length]. now rewrite IH.
Qed.

Lemma has_path_nodes g a b :
  closed g -> a <> b -> has_path g a b ->
  nx.has_node g a = true /\ nx.has_node g b = true.
Proof.
  intros Hc Hne Hpath. induction Hpath as [u|u v w d Hd Hvw IH]; [contradiction|].
  split.
  - unfold nx.has_node, omem. unfold nx.get_edge_data, nx.neighbors in Hd.
    destruct (oget u g); [reflexivity|discriminate Hd].
  - destruct (string_dec v w) as [<-|Hvw'].
    + exact (Hc u v d Hd).
    + now apply IH.
Qed.

Lemma search_returns_some_path (self : OptimizedRouter.t)
    (token_in token_out : string) (amount : Z) (k : nat) :
  reachable self ->
  token_in <> token_out ->
  (1 <= k)%nat ->
  snd (prepare_graph amount (graph self)) = Ok tt ->
  has_path (graph self) token_in token_out ->
  exists path paths,
    snd (_k_shortest_paths self token_in token_out amount k) = Ok (path :: paths).
Proof.
  intros Hreach Hne Hk Hprep Hpath.
  destruct (reachable_invariant self Hreach) as [_ [Hclosed _]].
  destruct (has_path_nodes _ _ _ Hclosed Hne Hpath) as [Hin Hout].
  unfold _k_shortest_paths.
  destruct (string_dec token_in token_out); [contradiction|].
  pose proof (prepare_graph_has_node amount (graph self)) as Hnodes.
  destruct (prepare_graph amount (graph self)) as [g [[]|e]] eqn:Hg;
    cbn [fst snd] in *; [|discriminate Hprep].
  assert (Hwt : forall u v d, nx.get_edge_data g u v = Some d ->
                  exists w, _weight_function u v d = Ok w).
  { intros u v d' Hd'. destruct (prepared_edge _ _ _ _ _ _ Hg Hd') as [d [_ Hd]].
    now apply (weight_of_prepared amount u v d d'). }
  pose proof (has_path_after_prepare _ _ _ _ _ Hg Hpath) as Hpath'.
  assert (Hout' : nx.has_node g token_out = true) by (now rewrite Hnodes).
  pose proof (simple_paths_complete g token_in token_out Hout' Hpath') as Hsome.
  assert (Hwalk : forall p, In p (nx.simple_paths (List.length g) g [] token_in token_out) ->
                    walk g p).
  { intros p Hp.
    destruct (simple_paths_spec _ _ _ [] _ _ (fun H : In token_in [] => H) Hp)
      as [r [_ [_ [Hw _]]]]. exact Hw. }
  destruct (nx.shortest_simple_paths g token_in token_out _weight_function)
    as [sps|e] eqn:Hsps.
  - assert (Hlen : (1 <= List.length sps)%nat).
    { unfold nx.shortest_simple_paths in Hsps. rewrite !Hnodes, Hin, Hout in Hsps.
      cbn [negb] in Hsps.
      destruct (nx.simple_paths (List.length g) g [] token_in token_out) as [|p0 ps0];
        [contradiction|].
      bind_inv Hsps. injection Hsps as <-.
      rewrite length_map, sort_by_length_length, (mapM_length _ _ _ E).
      cbn [List.length]. lia. }
    destruct (mapM_ok (path_hops g) (firstn k sps)) as [l Hl].
    { intros p Hp. apply firstn_in in Hp.
      apply (shortest_simple_paths_in _ _ _ _ _ _ Hsps) in Hp.
      destruct (simple_paths_spec _ _ _ [] _ _ (fun H : In token_in [] => H) Hp)
        as [r [-> [_ [Hw _]]]].
      destruct (path_hops_spec g r token_in Hw) as [hops [Hh _]]. now exists hops. }
    cbn [bind]. rewrite Hl. cbn [snd].
    pose proof (mapM_length _ _ _ Hl) as Hll.
    rewrite length_firstn in Hll.
    destruct l as [|path paths]; [cbn [List.length] in Hll; lia|].
    now exists path, paths.
  - exfalso. unfold nx.shortest_simple_paths in Hsps.
    rewrite !Hnodes, Hin, Hout in Hsps. cbn [negb] in Hsps.
    destruct (nx.simple_paths (List.length g) g [] token_in token_out) as [|p0 ps0] eqn:Hps;
      [contradiction|].
    destruct (mapM_ok (fun p => w <- nx.path_length _weight_function g f0 p ;; Ok (w, p))
                (p0 :: ps0)) as [ws Hws].
    { intros p Hp. destruct (path_length_ok _ g p Hwt (Hwalk p Hp) f0) as [w Hw].
      exists (w, p). now rewrite Hw. }
    rewrite Hws in Hsps. discriminate Hsps.
Qed.

(** X15.  In a reachable router state, whenever some directed path of
    edges joins two different tokens and the preparation loop raises
    nothing, the path search with [k >= 1] returns at least one candidate
    path: an empty result means that no path exists. *)
Theorem k_shortest_paths_finds_path (self : OptimizedRouter.t)
    (token_in token_out : string) (amount : Z) (k : nat) :
  reachable self ->
  token_in <> token_out ->
  (1 <= k)%nat ->
  snd (prepare_graph amount (graph self)) = Ok tt ->
  has_path (graph self) token_in token_out ->
  exists path paths,
    snd (_k_shortest_paths self token_in token_out amount k) = Ok (path :: paths).
Proof. apply search_returns_some_path. Qed.

Lemma k_shortest_paths_finds_path_witness :
  exists path paths,
    snd (_k_shortest_paths main_router (token_key dai) (token_key eth) 7 1) =
    Ok (path :: paths).
Proof.
  apply k_shortest_paths_finds_path.
  - apply (reach_add_pool (fst (add_pool init pool_eth_usdc)) pool_usdc_dai).
    apply reach_add_pool. apply reach_init.
  - vm_compute. discriminate.
  - apply le_n.
  - vm_compute. reflexivity.
  - eapply (path_step _ _ (token_key usdc)); [vm_compute; reflexivity|].
    eapply (path_step _ _ (token_key eth)); [vm_compute; reflexivity|]. apply path_here.
Defined.

(** ** Unusable edges take part in the search *)

Lemma unusable_dec amount d : {unusable amount d} + {~ unusable amount d}.
Proof.
  unfold unusable.
  destruct (Z_le_gt_dec amount 0); [left; tauto|].
  destruct (Z_le_gt_dec (Edge.reserve_a d) 0); [left; tauto|].
  destruct (Z_le_gt_dec (Edge.reserve_b d) 0); [left; tauto|].
  right. lia.
Qed.

Lemma chain_usable_path amount g hops :
  forall a b,
    chain a hops b ->
    Forall (fun h => exists d,
              nx.get_edge_data g (hop_source h) (hop_target h) = Some d /\
              ~ unusable amount d) hops ->
    usable_path amount g a b.
Proof.
  induction hops as [|[[u v] d0] rest IH]; intros a b Hc Hall.
  - cbn [chain] in Hc. subst b. constructor.
  - destruct Hc as [Ha Hc]. subst a.
    inversion Hall as [|h l [d [Hd Hu]] Hrest]; subst.
    unfold hop_source, hop_target in Hd. cbn [fst snd] in Hd.
    apply (usable_step amount g u v b d Hd Hu). now apply IH.
Qed.

Lemma unusable_hop_or_usable_path amount g g' a b hops :
  prepare_graph amount g = (g', Ok tt) ->
  candidate g' a b hops ->
  Exists (unusable_hop amount) hops \/ usable_path amount g a b.
Proof.
  intros Hprep [_ [Hchain [_ Hedges]]].
  assert (Hsplit :
    Exists (unusable_hop amount) hops \/
    Forall (fun h => exists d,
              nx.get_edge_data g (hop_source h) (hop_target h) = Some d /\
              ~ unusable amount d) hops).
  { clear Hchain. induction Hedges as [|h rest Hh _ IH]; [right; constructor|].
    destruct (prepared_edge _ _ _ _ _ _ Hprep Hh) as [d [Hd Hd']].
    destruct (prepare_edge_inv _ _ _ Hd') as [pi [Hpi Heq]].
    destruct (unusable_dec amount d) as [Hu|Hu].
    - left. constructor. unfold unusable_hop.
      rewrite (non_positive_price_impact _ _ _ Hu) in Hpi.
      injection Hpi as <-. rewrite Heq.
      split; [exact Hu|]. split; [reflexivity|].
      apply non_positive_edge_weight.
    - destruct IH as [IH|IH]; [left; now constructor|].
      right. constructor; [|exact IH]. now exists d. }
  destruct Hsplit as [Hex|Hall]; [now left|right].
  now apply (chain_usable_path amount g hops).
Qed.

(** C5 (as amended).  An edge with a non-positive reserve, or any edge when
    the search amount is non-positive, gets price impact 1, and the search
    goes through it like through any other edge.  In a reachable router
    state, when the preparation raises nothing and two different tokens are
    joined only by paths that run through such an edge, the search with
    [k >= 1] still returns candidate paths, and every one of them contains
    such an edge, with price impact 1 and an ordinary weight below 1. *)
Theorem search_returns_unusable_edges (self : OptimizedRouter.t)
    (token_in token_out : string) (amount : Z) (k : nat) :
  reachable self ->
  token_in <> token_out ->
  (1 <= k)%nat ->
  snd (prepare_graph amount (graph self)) = Ok tt ->
  has_path (graph self) token_in token_out ->
  ~ usable_path amount (graph self) token_in token_out ->
  (forall u v d,
     nx.get_edge_data (graph self) u v = Some d ->
     unusable amount d ->
     _calculate_price_impact amount (Edge.reserve_a d) (Edge.reserve_b d) = Ok f1) /\
  exists path paths,
    snd (_k_shortest_paths self token_in token_out amount k) = Ok (path :: paths) /\
    Forall (Exists (unusable_hop amount)) (path :: paths).
Proof.
  intros Hreach Hne Hk Hprep Hpath Hnone.
  split; [intros u v d _ Hu; now apply non_positive_price_impact|].
  destruct (search_returns_some_path self token_in token_out amount k
              Hreach Hne Hk Hprep Hpath) as [path [paths Hsearch]].
  exists path, paths. split; [exact Hsearch|].
  destruct (candidates_of_search _ _ _ _ _ _ Hsearch) as [_ Hcand].
  rewrite k_shortest_paths_state in Hcand by assumption.
  destruct (prepare_graph amount (graph self)) as [g' [[]|e]] eqn:Hg;
    cbn [fst snd graph] in *; [|discriminate Hprep].
  eapply Forall_impl; [|exact Hcand].
  intros hops Hc.
  destruct (unusable_hop_or_usable_path _ _ _ _ _ _ Hg Hc) as [Hex|Hup];
    [exact Hex|contradiction].
Qed.

Lemma search_returns_unusable_edges_witness :
  exists path paths,
    snd (_k_shortest_paths dead_router (token_key tA) (token_key tB) 100 5) =
      Ok (path :: paths) /\
    Forall (Exists (unusable_hop 100)) (path :: paths).
Proof.
  apply (search_returns_unusable_edges dead_router (token_key tA) (token_key tB) 100 5).
  - apply (reach_add_pool init). apply reach_init.
  - vm_compute. discriminate.
  - repeat constructor.
  - vm_compute. reflexivity.
  - eapply (path_step _ _ (token_key tB)); [vm_compute; reflexivity|]. apply path_here.
  - intros Hup. inversion Hup as [|u v w d Hd Hnot Hrest]; subst.
    apply Hnot. right. left.
    unfold nx.get_edge_data, nx.neighbors in Hd.
    destruct (oget (token_key tA) (graph dead_router)) as [nbrs|] eqn:Hn;
      [|discriminate Hd].
    vm_compute in Hn. injection Hn as <-.
    cbn [oget] in Hd.
    match type of Hd with context [if ?c then _ else _] => destruct c end;
      [|discriminate Hd].
    injection Hd as <-. apply Z.le_refl.
Defined.

(** ** The exceptions a caller can see *)

Lemma raises_in_ok P {A} (a : A) : raises_in P (Ok a).
Proof. intros e He. discriminate He. Qed.

Lemma raises_in_raise (P : exn -> Prop) {A} e : P e -> raises_in P (@Raise A e).
Proof. intros HP e' [= <-]. exact HP. Qed.

Lemma raises_in_bind P {A B} (c : result A) (f : A -> result B) :
  raises_in P c -> (forall x, c = Ok x -> raises_in P (f x)) -> raises_in P (bind c f).
Proof.
  intros Hc Hf e. destruct c as [x|e']; cbn [bind].
  - now apply Hf.
  - intros [= <-]. now apply Hc.
Qed.

Lemma raises_in_mapM P {A B} (f : A -> result B) l :
  (forall x, In x l -> raises_in P (f x)) -> raises_in P (mapM f l).
Proof.
  induction l as [|x r IH]; intros Hf; cbn [mapM]; [apply raises_in_ok|].
  apply raises_in_bind; [apply Hf; now left|]. intros y _.
  apply raises_in_bind; [apply IH; intros z Hz; apply Hf; now right|].
  intros ys _. apply raises_in_ok.
Qed.

Lemma of_int_raises n : raises_in arithmetic_error (of_int n).
Proof.
  unfold of_int. cbv zeta.
  destruct (is_inf _); [apply raises_in_raise; right; now left|apply raises_in_ok].
Qed.

Lemma int_truediv_raises a b : raises_in arithmetic_error (int_truediv a b).
Proof.
  unfold int_truediv.
  destruct (b =? 0); [apply raises_in_raise; now left|].
  destruct (a =? 0); [apply raises_in_ok|]. cbv zeta.
  destruct (is_inf _); [apply raises_in_raise; right; now left|apply raises_in_ok].
Qed.

Lemma truediv_raises x y : raises_in arithmetic_error (truediv x y).
Proof.
  unfold truediv. destruct (is_zero y); [apply raises_in_raise; now left|apply raises_in_ok].
Qed.

Lemma to_int_raises x : raises_in arithmetic_error (to_int x).
Proof.
  destruct x; cbn [to_int]; try apply raises_in_ok; apply raises_in_raise.
  - right. now left.
  - right. now right.
Qed.

Lemma int_raises s : raises_in arithmetic_error (int s).
Proof.
  unfold int.
  destruct (rstrip (lstrip s)) as [|c r];
    [|destruct (Ascii.eqb c "-"); [|destruct (Ascii.eqb c "+")]];
    (match goal with |- context [digits_of ?b] => destruct (digits_of b) end;
     [match goal with |- context [NilEmpty.uint_of_string ?d] =>
        destruct (NilEmpty.uint_of_string d) end;
      [apply raises_in_ok|]|];
     apply raises_in_raise; right; now right).
Qed.

Lemma int_sub_float_raises n x : raises_in arithmetic_error (int_sub_float n x).
Proof.
  unfold int_sub_float. apply raises_in_bind; [apply of_int_raises|].
  intros. apply raises_in_ok.
Qed.

Lemma int_mul_float_raises n x : raises_in arithmetic_error (int_mul_float n x).
Proof.
  unfold int_mul_float. apply raises_in_bind; [apply of_int_raises|].
  intros. apply raises_in_ok.
Qed.

Lemma float_div_int_raises x n : raises_in arithmetic_error (float_div_int x n).
Proof.
  unfold float_div_int. apply raises_in_bind; [apply of_int_raises|].
  intros. apply truediv_raises.
Qed.

Lemma int_div_float_raises n x : raises_in arithmetic_error (int_div_float n x).
Proof.
  unfold int_div_float. apply raises_in_bind; [apply of_int_raises|].
  intros. apply truediv_raises.
Qed.

Lemma price_impact_raises amount reserve_in reserve_out :
  raises_in arithmetic_error (_calculate_price_impact amount reserve_in reserve_out).
Proof.
  unfold _calculate_price_impact.
  destruct ((amount <=? 0) || (reserve_in <=? 0) || (reserve_out <=? 0));
    [apply raises_in_ok|]. cbv zeta.
  apply raises_in_bind; [apply int_truediv_raises|]. intros nro _.
  apply raises_in_bind; [apply int_sub_float_raises|]. intros out _.
  apply raises_in_bind; [apply int_truediv_raises|]. intros pb _.
  apply raises_in_bind; [apply float_div_int_raises|]. intros pa _.
  apply raises_in_bind; [apply truediv_raises|]. intros ratio _.
  apply raises_in_ok.
Qed.

Lemma prepare_edge_raises amount d : raises_in arithmetic_error (prepare_edge amount d).
Proof.
  unfold prepare_edge. cbv zeta.
  apply raises_in_bind; [apply price_impact_raises|]. intros. apply raises_in_ok.
Qed.

Lemma prepare_nbrs_raises amount nbrs :
  raises_in arithmetic_error (snd (prepare_nbrs amount nbrs)).
Proof.
  induction nbrs as [|[v d] rest IH]; cbn [prepare_nbrs]; [apply raises_in_ok|].
  pose proof (prepare_edge_raises amount d) as Hd.
  destruct (prepare_edge amount d) as [d'|e].
  - destruct (prepare_nbrs amount rest) as [rest' r]. exact IH.
  - cbn [snd]. apply raises_in_raise. now apply Hd.
Qed.

Lemma prepare_graph_raises amount g :
  raises_in arithmetic_error (snd (prepare_graph amount g)).
Proof.
  induction g as [|[u n] rest IH]; cbn [prepare_graph]; [apply raises_in_ok|].
  pose proof (prepare_nbrs_raises amount n) as Hn.
  destruct (prepare_nbrs amount n) as [n' [[]|e]].
  - destruct (prepare_graph amount rest) as [rest' r]. exact IH.
  - cbn [snd] in *. apply raises_in_raise. now apply Hn.
Qed.

(** On a graph whose edges all have a weight, the library call raises
    nothing but [NodeNotFound] and [NetworkXNoPath], and the hops of every
    path it returns are found. *)
Lemma search_on_weighted_graph g token_in token_out k :
  (forall u v d, nx.get_edge_data g u v = Some d ->
     exists w, _weight_function u v d = Ok w) ->
  match nx.shortest_simple_paths g token_in token_out _weight_function with
  | Ok sps =>
      (1 <= List.length sps)%nat /\
      exists l, mapM (path_hops g) (firstn k sps) = Ok l
  | Raise e =>
      (e = NodeNotFound /\
       (nx.has_node g token_in = false \/ nx.has_node g token_out = false)) \/
      e = NetworkXNoPath
  end.
Proof.
  intros Hwt.
  assert (Hwalk : forall p, In p (nx.simple_paths (List.length g) g [] token_in token_out) ->
                    exists r, p = token_in :: r /\ walk g p).
  { intros p Hp.
    destruct (simple_paths_spec _ _ _ [] _ _ (fun H : In token_in [] => H) Hp)
      as [r [Hr [_ [Hw _]]]]. now exists r. }
  destruct (nx.shortest_simple_paths g token_in token_out _weight_function)
    as [sps|e] eqn:Hsps.
  - split.
    + unfold nx.shortest_simple_paths in Hsps.
      destruct (negb (nx.has_node g token_in)); [discriminate Hsps|].
      destruct (negb (nx.has_node g token_out)); [discriminate Hsps|].
      destruct (nx.simple_paths (List.length g) g [] token_in token_out) as [|p0 ps0];
        [discriminate Hsps|].
      bind_inv Hsps. injection Hsps as <-.
      rewrite length_map, sort_by_length_length, (mapM_length _ _ _ E).
      cbn [List.length]. lia.
    + apply mapM_ok. intros p Hp. apply firstn_in in Hp.
      apply (shortest_simple_paths_in _ _ _ _ _ _ Hsps) in Hp.
      destruct (Hwalk p Hp) as [r [-> Hw]].
      destruct (path_hops_spec g r token_in Hw) as [hops [Hh _]]. now exists hops.
  - unfold nx.shortest_simple_paths in Hsps.
    destruct (nx.has_node g token_in); cbn [negb] in Hsps;
      [|injection Hsps as <-; left; split; [reflexivity|now left]].
    destruct (nx.has_node g token_out); cbn [negb] in Hsps;
      [|injection Hsps as <-; left; split; [reflexivity|now right]].
    destruct (nx.simple_paths (List.length g) g [] token_in token_out) as [|p0 ps0] eqn:Hps;
      [injection Hsps as <-; now right|].
    exfalso.
    destruct (mapM_ok (fun p => w <- nx.path_length _weight_function g f0 p ;; Ok (w, p))
                (p0 :: ps0)) as [ws Hws].
    { intros p Hp. destruct (Hwalk p Hp) as [r [_ Hw]].
      destruct (path_length_ok _ g p Hwt Hw f0) as [w Hw'].
      exists (w, p). now rewrite Hw'. }
    rewrite Hws in Hsps. discriminate Hsps.
Qed.

Lemma k_shortest_paths_raise_cases self token_in token_out amount k e :
  snd (_k_shortest_paths self token_in token_out amount k) = Raise e ->
  (snd (prepare_graph amount (graph self)) = Raise e /\ arithmetic_error e) \/
  (e = NodeNotFound /\
   (nx.has_node (graph self) token_in = false \/
    nx.has_node (graph self) token_out = false)).
Proof.
  unfold _k_shortest_paths.
  destruct (string_dec token_in token_out); [discriminate|].
  pose proof (prepare_graph_raises amount (graph self)) as Hraise.
  pose proof (prepare_graph_has_node amount (graph self)) as Hnodes.
  destruct (prepare_graph amount (graph self)) as [g [[]|e0]] eqn:Hg; cbn [fst snd] in *.
  - assert (Hwt : forall u v d, nx.get_edge_data g u v = Some d ->
                    exists w, _weight_function u v d = Ok w).
    { intros u v d' Hd'. destruct (prepared_edge _ _ _ _ _ _ Hg Hd') as [d [_ Hd]].
      now apply (weight_of_prepared amount u v d d'). }
    pose proof (search_on_weighted_graph g token_in token_out k Hwt) as Hs.
    destruct (nx.shortest_simple_paths g token_in token_out _weight_function)
      as [sps|e1]; cbn [bind].
    + destruct Hs as [_ [l ->]]. discriminate.
    + destruct Hs as [[-> Hmiss]| ->]; cbn [snd]; [|discriminate].
      intros [= <-]. right. split; [reflexivity|]. now rewrite <- !Hnodes.
  - intros [= <-]. left. split; [reflexivity|]. now apply Hraise.
Qed.

(** X16.  A path search raises in two cases only: an arithmetic exception
    of the preparation loop, passed on as it is, or [NodeNotFound] when an
    endpoint is not a node of the graph.  Once the edges are prepared, the
    weight function and the edge lookups of the search raise nothing. *)
Theorem k_shortest_paths_raises (self : OptimizedRouter.t)
    (token_in token_out : string) (amount : Z) (k : nat) (e : exn) :
  snd (_k_shortest_paths self token_in token_out amount k) = Raise e ->
  (snd (prepare_graph amount (graph self)) = Raise e /\ arithmetic_error e) \/
  (e = NodeNotFound /\
   (nx.has_node (graph self) token_in = false \/
    nx.has_node (graph self) token_out = false)).
Proof. apply k_shortest_paths_raise_cases. Qed.

Lemma k_shortest_paths_raises_witness :
  snd (_k_shortest_paths main_router (token_key eth) (token_key tA) 1 5) =
    Raise NodeNotFound /\
  nx.has_node (graph main_router) (token_key tA) = false.
Proof.
  split; [|reflexivity].
  destruct (snd (_k_shortest_paths main_router (token_key eth) (token_key tA) 1 5))
    as [l|e] eqn:He; [vm_compute in He; discriminate He|].
  destruct (k_shortest_paths_raises _ _ _ _ _ _ He) as [[Hprep _]|[-> _]];
    [vm_compute in Hprep; discriminate Hprep|reflexivity].
Defined.

Lemma hop_output_raises data cur : raises_in arithmetic_error (hop_output data cur).
Proof.
  unfold hop_output. cbv zeta.
  destruct ((0 <? Edge.reserve_a data) && (0 <? Edge.reserve_b data)).
  - apply raises_in_bind; [apply int_truediv_raises|]. intros nro _.
    apply raises_in_bind; [apply int_sub_float_raises|]. intros diff _.
    apply to_int_raises.
  - apply raises_in_bind; [apply int_mul_float_raises|]. intros scaled _.
    apply to_int_raises.
Qed.

Lemma route_loop_raises self path :
  Forall (fun h : Hop => omem (hop_source h) (tokens self) = true /\
                         omem (hop_target h) (tokens self) = true) path ->
  forall steps cur exs, raises_in arithmetic_error (route_loop self path steps cur exs).
Proof.
  induction 1 as [|[[u v] data] rest [Hu Hv] _ IH]; intros steps cur exs;
    cbn [route_loop]; [apply raises_in_ok|].
  unfold hop_source, hop_target, omem in Hu, Hv. cbn [fst snd] in Hu, Hv.
  destruct (oget u (tokens self)) as [tin|]; [|discriminate Hu].
  destruct (oget v (tokens self)) as [tout|]; [|discriminate Hv].
  cbn [bind].
  apply raises_in_bind; [apply hop_output_raises|]. intros out _.
  apply raises_in_bind; [apply int_mul_float_raises|]. intros buffered _.
  apply raises_in_bind; [apply to_int_raises|]. intros min_output _.
  apply IH.
Qed.

Lemma risk_score_raises path : raises_in arithmetic_error (_calculate_risk_score path).
Proof.
  pose proof (risk_score_shape path) as Hs. destruct path as [|h rest].
  - rewrite Hs. apply raises_in_raise. right. now right.
  - destruct Hs as [r [-> _]]. apply raises_in_ok.
Qed.

Lemma path_to_swap_route_raises self path amount :
  Forall (fun h : Hop => omem (hop_source h) (tokens self) = true /\
                         omem (hop_target h) (tokens self) = true) path ->
  raises_in arithmetic_error (_path_to_swap_route self path amount).
Proof.
  intros Hreg. unfold _path_to_swap_route.
  apply raises_in_bind; [now apply route_loop_raises|].
  intros [[steps cur] exs] _. cbv zeta.
  apply raises_in_bind; [apply risk_score_raises|]. intros risk _. apply raises_in_ok.
Qed.

Lemma adjust_loop_raises random routes :
  forall i, raises_in arithmetic_error (PricePredictor.adjust_loop random i routes).
Proof.
  induction routes as [|r rest IH]; intros i; cbn [PricePredictor.adjust_loop];
    [apply raises_in_ok|]. cbv zeta.
  apply raises_in_bind; [apply int_raises|]. intros current _.
  apply raises_in_bind; [apply int_mul_float_raises|]. intros x _.
  apply raises_in_bind; [apply to_int_raises|]. intros n _.
  apply raises_in_bind; [apply IH|]. intros rest' _. apply raises_in_ok.
Qed.

Lemma adjust_raises random routes :
  raises_in arithmetic_error (PricePredictor.adjust random routes).
Proof.
  unfold PricePredictor.adjust. destruct routes as [|r rest]; [apply raises_in_ok|].
  apply raises_in_bind; [apply adjust_loop_raises|]. intros adjusted _.
  unfold PricePredictor.sorted_by_amount.
  apply raises_in_bind; [|intros; apply raises_in_ok].
  apply raises_in_mapM. intros p _.
  apply raises_in_bind; [apply int_raises|]. intros. apply raises_in_ok.
Qed.

(** X17.  In a reachable router state, [find_routes] with the default
    predictor raises nothing but [NodeNotFound] and the arithmetic
    exceptions ([ZeroDivisionError], [OverflowError], [ValueError]): the
    registry lookups of the simulation never raise [KeyError], and the
    library's [NetworkXNoPath] never reaches the caller. *)
Theorem find_routes_raises (random : nat -> float) (self : OptimizedRouter.t)
    (token_in token_out : Token.t) (amount : Z) (e : exn) :
  reachable self ->
  snd (find_routes (PricePredictor.adjust random) self token_in token_out amount) = Raise e ->
  e = NodeNotFound \/ arithmetic_error e.
Proof.
  intros Hreach.
  assert (Hreach' : reachable (fst (_k_shortest_paths self (token_key token_in)
                                      (token_key token_out) amount 5))).
  { rewrite <- (find_routes_state Ok). now apply reach_find_routes. }
  pose proof (k_shortest_paths_raise_cases self (token_key token_in)
                (token_key token_out) amount 5) as Hsearch.
  pose proof (candidates_of_search self (token_key token_in)
                (token_key token_out) amount 5) as Hcand.
  unfold find_routes.
  destruct (_k_shortest_paths self (token_key token_in) (token_key token_out) amount 5)
    as [self' [[|p ps]|e0]]; cbn [fst snd] in *.
  - discriminate.
  - intros He. right. revert e He.
    apply raises_in_bind; [|intros routes _; apply adjust_raises].
    apply raises_in_mapM. intros path Hpath.
    apply path_to_swap_route_raises.
    destruct (Hcand _ eq_refl) as [_ Hall]. rewrite Forall_forall in Hall.
    destruct (Hall path Hpath) as [_ [_ [_ Hedges]]].
    destruct (reachable_invariant self' Hreach') as [Hc [Hcl _]].
    eapply Forall_impl; [|exact Hedges].
    intros h Hh. rewrite !Hc. split; [|exact (Hcl _ _ _ Hh)].
    unfold nx.has_node, omem. unfold nx.get_edge_data, nx.neighbors in Hh.
    destruct (oget (hop_source h) (graph self')); [reflexivity|discriminate Hh].
  - intros [= <-]. destruct (Hsearch e0 eq_refl) as [[_ Ha]|[-> _]]; [now right|now left].
Qed.

Lemma find_routes_raises_witness :
  snd (find_routes (PricePredictor.adjust (fun _ => f0_5)) main_router eth tA 1) =
    Raise NodeNotFound.
Proof.
  destruct (snd (find_routes (PricePredictor.adjust (fun _ => f0_5)) main_router eth tA 1))
    as [l|e] eqn:He; [vm_compute in He; discriminate He|].
  assert (Hreach : reachable main_router).
  { apply (reach_add_pool (fst (add_pool init pool_eth_usdc)) pool_usdc_dai).
    apply reach_add_pool. apply reach_init. }
  destruct (find_routes_raises _ _ _ _ _ _ Hreach He) as [->|Ha]; [reflexivity|].
  vm_compute in He. injection He as <-.
  destruct Ha as [Ha|[Ha|Ha]]; discriminate Ha.
Defined.

(** ** Non-positive amounts *)

Lemma prepare_nbrs_non_positive amount nbrs :
  amount <= 0 ->
  prepare_nbrs amount nbrs =
  (map (fun kv => (fst kv,
                   Edge.set_search f1 (_calculate_gas_cost 1 [Edge.exchange (snd kv)])
                     f0_005 (snd kv))) nbrs, Ok tt).
Proof.
  intros Hle. induction nbrs as [|[v d] rest IH]; [reflexivity|].
  cbn [prepare_nbrs]. unfold prepare_edge at 1.
  rewrite non_positive_price_impact by (now left). cbn [bind]. rewrite IH. reflexivity.
Qed.

Lemma prepare_graph_non_positive amount g :
  amount <= 0 -> snd (prepare_graph amount g) = Ok tt.
Proof.
  intros Hle. induction g as [|[u n] rest IH]; [reflexivity|].
  cbn [prepare_graph]. rewrite prepare_nbrs_non_positive by assumption.
  destruct (prepare_graph amount rest) as [rest' r]. exact IH.
Qed.

(** X18.  A non-positive amount is not rejected: the preparation loop then
    raises nothing, and a search between two different tokens leaves every
    edge of the graph with price impact 1.0. *)
Theorem non_positive_amount_search (self : OptimizedRouter.t)
    (token_in token_out : string) (amount : Z) (k : nat) :
  amount <= 0 ->
  token_in <> token_out ->
  snd (prepare_graph amount (graph self)) = Ok tt /\
  forall u v d,
    nx.get_edge_data (graph self) u v = Some d ->
    nx.get_edge_data
      (graph (fst (_k_shortest_paths self token_in token_out amount k))) u v =
    Some (Edge.set_search f1 (_calculate_gas_cost 1 [Edge.exchange d]) f0_005 d).
Proof.
  intros Hle Hne.
  pose proof (prepare_graph_non_positive amount (graph self) Hle) as Hok.
  split; [exact Hok|]. intros u v d Hd.
  rewrite k_shortest_paths_state by assumption. cbn [graph].
  destruct (prepare_graph amount (graph self)) as [g' r] eqn:Hg. cbn [fst snd] in *.
  subst r.
  pose proof (prepare_graph_lookup amount (graph self) g' u v Hg) as Hl.
  rewrite Hd in Hl. destruct Hl as [d' [Hd' ->]].
  destruct (prepare_edge_inv _ _ _ Hd') as [pi [Hpi ->]].
  rewrite non_positive_price_impact in Hpi by (now left).
  now injection Hpi as <-.
Qed.

Lemma non_positive_amount_search_witness :
  option_map Edge.price_impact
    (nx.get_edge_data
       (graph (fst (_k_shortest_paths main_router (token_key eth) (token_key dai) (-3) 5)))
       (token_key usdc) (token_key dai)) = Some (Some f1).
Proof.
  destruct (nx.get_edge_data (graph main_router) (token_key usdc) (token_key dai))
    as [d|] eqn:Hd; [|vm_compute in Hd; discriminate Hd].
  destruct (non_positive_amount_search main_router (token_key eth) (token_key dai) (-3) 5)
    as [_ Hedges].
  - discriminate.
  - vm_compute. discriminate.
  - rewrite (Hedges _ _ _ Hd). reflexivity.
Defined.

(** ** What the hops of a candidate path carry *)

Lemma price_impact_unit amount reserve_in reserve_out impact :
  _calculate_price_impact amount reserve_in reserve_out = Ok impact ->
  in_unit_interval impact.
Proof.
  unfold _calculate_price_impact.
  destruct ((amount <=? 0) || (reserve_in <=? 0) || (reserve_out <=? 0)).
  - intros [= <-]. split; reflexivity.
  - intros Hi. do 5 bind_inv Hi. injection Hi as <-.
    apply clamp_in_unit_interval.
Qed.

(** X19.  Every hop of every candidate path carries the search attributes
    of this very call: its [price_impact] is the price impact of the whole
    request amount on the hop's reserves (not of the amount that reaches
    the hop), a number between 0.0 and 1.0, its [gas_cost] is the one-hop
    gas cost of its exchange and its [slippage] is 0.005. *)
Theorem candidate_hops_carry_search_attributes (self : OptimizedRouter.t)
    (token_in token_out : string) (amount : Z) (k : nat) (paths : list (list Hop)) :
  snd (_k_shortest_paths self token_in token_out amount k) = Ok paths ->
  Forall
    (Forall (fun h : Hop =>
       exists impact,
         _calculate_price_impact amount (Edge.reserve_a (snd h)) (Edge.reserve_b (snd h)) =
           Ok impact /\
         in_unit_interval impact /\
         Edge.price_impact (snd h) = Some impact /\
         Edge.gas_cost (snd h) = Some (_calculate_gas_cost 1 [Edge.exchange (snd h)]) /\
         Edge.slippage (snd h) = Some f0_005))
    paths.
Proof.
  intros Hp. destruct (candidates_of_search _ _ _ _ _ _ Hp) as [_ Hcand].
  destruct (string_dec token_in token_out) as [Heq|Hne].
  { unfold _k_shortest_paths in Hp.
    destruct (string_dec token_in token_out); [|contradiction].
    injection Hp as <-. constructor. }
  rewrite k_shortest_paths_state in Hcand by assumption. cbn [graph] in Hcand.
  assert (Hprep : snd (prepare_graph amount (graph self)) = Ok tt).
  { unfold _k_shortest_paths in Hp.
    destruct (string_dec token_in token_out); [contradiction|].
    destruct (prepare_graph amount (graph self)) as [g [[]|e]]; [reflexivity|discriminate Hp]. }
  destruct (prepare_graph amount (graph self)) as [g' r] eqn:Hg. cbn [fst snd] in *.
  subst r.
  eapply Forall_impl; [|exact Hcand]. intros path [_ [_ [_ Hedges]]].
  eapply Forall_impl; [|exact Hedges]. intros h Hh.
  destruct (prepared_edge _ _ _ _ _ _ Hg Hh) as [d [_ Hd]].
  destruct (prepare_edge_inv _ _ _ Hd) as [impact [Hi Hset]].
  exists impact. rewrite Hset. cbn [Edge.reserve_a Edge.reserve_b Edge.price_impact
    Edge.gas_cost Edge.slippage Edge.exchange Edge.set_search].
  repeat split; try reflexivity; try exact Hi.
  - exact (proj1 (price_impact_unit _ _ _ _ Hi)).
  - exact (proj2 (price_impact_unit _ _ _ _ Hi)).
Qed.

Lemma candidate_hops_carry_search_attributes_witness :
  exists path,
    snd (_k_shortest_paths main_router (token_key eth) (token_key dai) (10 ^ 18) 5) =
      Ok [path] /\
    Forall (fun h : Hop => Edge.slippage (snd h) = Some f0_005) path.
Proof.
  destruct (snd (_k_shortest_paths main_router (token_key eth) (token_key dai) (10 ^ 18) 5))
    as [paths|e] eqn:Hp; [|vm_compute in Hp; discriminate Hp].
  pose proof (candidate_hops_carry_search_attributes _ _ _ _ _ _ Hp) as Hall.
  destruct paths as [|path [|p ps]];
    try (vm_compute in Hp; discriminate Hp).
  exists path. split; [reflexivity|].
  inversion Hall as [|? ? Hpath _]; subst.
  eapply Forall_impl; [|exact Hpath].
  intros h [impact [_ [_ [_ [_ Hs]]]]]. exact Hs.
Defined.

(** ** An upsert that fails *)

(** X20.  A pool whose price is zero makes [add_pool] raise
    [ZeroDivisionError], but only after part of the upsert is done: the pool
    is already in the pool table, its tokens are registered and the edge
    from [token_a] to [token_b] already holds its reserves and price, while
    the edge back (when the two tokens differ) is left as it was. *)
Theorem add_pool_zero_price (self : OptimizedRouter.t) (pool : Pool.t) :
  is_zero (Pool.price pool) = true ->
  let a := token_key (Pool.token_a pool) in
  let b := token_key (Pool.token_b pool) in
  let self' := fst (add_pool self pool) in
  snd (add_pool self pool) = Raise ZeroDivisionError /\
  oget (pool_id_of pool) (pools self') = Some pool /\
  omem a (tokens self') = true /\ omem b (tokens self') = true /\
  (exists d,
     nx.get_edge_data (graph self') a b = Some d /\
     Edge.pool_id d = pool_id_of pool /\
     Edge.reserve_a d = Pool.reserve_a pool /\
     Edge.reserve_b d = Pool.reserve_b pool /\
     Edge.price d = Pool.price pool) /\
  (a <> b ->
   nx.get_edge_data (graph self') b a = nx.get_edge_data (graph self) b a).
Proof.
  intros Hz a b self'. subst self'. unfold add_pool, truediv. rewrite Hz.
  cbn [fst snd graph pools tokens]. fold a b.
  split; [reflexivity|]. split; [apply oget_oset_eq|].
  split.
  { rewrite !omem_register. destruct (string_dec a a); [|contradiction].
    now rewrite orb_true_r. }
  split.
  { rewrite omem_register. destruct (string_dec b b); [|contradiction].
    now rewrite orb_true_r. }
  split.
  - rewrite get_edge_data_add_edge_eq. eexists. split; [reflexivity|]. repeat split.
  - intros Hne. apply get_edge_data_add_edge_ne. congruence.
Qed.

Lemma add_pool_zero_price_witness :
  snd (add_pool init (Pool.mk "uniswap" tA tB f0_3 10 20 f0 f1e6)) =
    Raise ZeroDivisionError /\
  nx.get_edge_data
    (graph (fst (add_pool init (Pool.mk "uniswap" tA tB f0_3 10 20 f0 f1e6))))
    (token_key tB) (token_key tA) = None.
Proof.
  destruct (add_pool_zero_price init (Pool.mk "uniswap" tA tB f0_3 10 20 f0 f1e6) eq_refl)
    as [Hraise [_ [_ [_ [_ Hback]]]]].
  split; [exact Hraise|]. apply Hback. vm_compute. discriminate.
Defined.

(** ** Size of the pool table *)

Lemma okeys_oset {K V} `{EqDec K} (k : K) (v : V) (d : odict K V) :
  okeys (oset k v d) = if omem k d then okeys d else okeys d ++ [k].
Proof.
  unfold okeys, omem. induction d as [|[k0 v0] r IH]; [reflexivity|].
  cbn [oset oget]. destruct (eq_dec k k0) as [->|Hne]; [reflexivity|].
  cbn [map fst]. rewrite IH. now destruct (oget k r).
Qed.

(** X21.  Upsert is by pool identity: a pool whose id is already in the pool
    table replaces the stored pool in place, and the table keeps its keys
    and their order; a pool with a new id is appended at the end.  Either
    way a lookup of the id then returns the upserted pool. *)
Theorem add_pool_table_keys (self : OptimizedRouter.t) (pool : Pool.t) :
  okeys (pools (fst (add_pool self pool))) =
    (if omem (pool_id_of pool) (pools self) then okeys (pools self)
     else okeys (pools self) ++ [pool_id_of pool]) /\
  oget (pool_id_of pool) (pools (fst (add_pool self pool))) = Some pool.
Proof.
  rewrite add_pool_pools. split; [apply okeys_oset|apply oget_oset_eq].
Qed.

(** ** Gas cost and the names of the exchanges *)

Lemma gas_fold_sum exs start :
  fold_left (fun total_cost exchange => total_cost + exchange_costs (lower exchange))
    exs start =
  start + fold_right Z.add 0 (map exchange_costs (map lower exs)).
Proof.
  revert start. induction exs as [|ex r IH]; intros start; cbn [fold_left map fold_right].
  - lia.
  - rewrite IH. lia.
Qed.

Lemma sum_permutation (l l' : list Z) :
  Permutation l l' -> fold_right Z.add 0 l = fold_right Z.add 0 l'.
Proof.
  induction 1 as [| x l l' _ IH | x y l | l l' l'' _ IH1 _ IH2]; cbn [fold_right]; lia.
Qed.

(** X22.  The gas estimate depends on the exchanges only through their
    lower-cased names and not on their order: two exchange lists that are
    equal up to letter case and order give the same estimate. *)
Theorem gas_cost_case_and_order (path_length : Z) (exchanges exchanges' : list string) :
  Permutation (map lower exchanges) (map lower exchanges') ->
  _calculate_gas_cost path_length exchanges = _calculate_gas_cost path_length exchanges'.
Proof.
  intros Hperm. unfold _calculate_gas_cost. cbv zeta. rewrite !gas_fold_sum.
  f_equal. apply sum_permutation. now apply Permutation_map.
Qed.

Lemma gas_cost_case_and_order_witness :
  _calculate_gas_cost 2 ["Curve"; "BALANCER"] = _calculate_gas_cost 2 ["balancer"; "curve"].
Proof.
  apply gas_cost_case_and_order. cbn [map]. apply perm_swap.
Defined.
